(** * EpiStatKit: distribution approximations, interval estimators and
      sample-size solvers

    A shallow embedding of the numerical core of the repository
    (confidenceIntervals/utils.ts, ciRatePoisson.ts, ciProportion.ts, the
    epidemiology utilities, ratioCalculators.ts, the chi-square test and
    the sample-size calculators, and further calculators built on them:
    standardized ratios, variance intervals, clinical impact, power)
    together with the properties its specification states about it and
    further properties that follow from the code.

    ** Number model

    The source computes with ECMAScript numbers.  A number is modelled as a
    value of [num]: a real number, one of the two infinities, or NaN.
    Every operator and every [Math] function is embedded with its
    ECMAScript case table (division by zero, square root of a negative
    number, logarithm of zero, ...), but a finite result is the exact real
    result: binary64 rounding, overflow to an infinity and the sign of zero
    are not modelled (a zero divisor counts as +0).  All statements below
    are therefore statements about the ideal real evaluation of the code;
    the numerical margins they establish are many orders of magnitude above
    the rounding error of the few dozen operations involved.

    Two kinds of result are sensitive to rounding however small it is: the
    whole number that [Math.ceil] returns when its argument lies at a whole
    number, and the outcome of a test of a computed difference against
    zero.  A theorem that concerns such a result for all inputs is worded
    so that it holds for the binary64 evaluation as well: the whole number is
    located up to one unit, the sign of a bound is asserted only where it
    has a margin, and a finite or an infinite outcome only at a distance
    from the threshold.  The auxiliary lemmas describe the ideal
    evaluation.

    String formatting ([toFixed], [formatCI], the R snippets) is
    presentation: each calculator is modelled by the numbers it hands to
    the formatter. *)

From Stdlib Require Import Reals Lra Lia ZArith Bool Psatz.

Set Implicit Arguments.

(* ================================================================== *)
(** * ECMAScript numbers *)
(* ================================================================== *)

Module JS.

Inductive num : Type :=
| Fin (r : R)
| PInf
| NInf
| NaN.

Coercion Fin : R >-> num.

(** The infinity carrying the sign of [s]; NaN for [s = 0]. *)
Definition inf_of_sign (s : R) : num :=
  if Rlt_dec 0 s then PInf else if Rlt_dec s 0 then NInf else NaN.

(** As [inf_of_sign], with zero counted as +0. *)
Definition inf_of_sign0 (s : R) : num :=
  if Rlt_dec s 0 then NInf else PInf.

Definition nopp (x : num) : num :=
  match x with
  | Fin a => Fin (- a)
  | PInf => NInf
  | NInf => PInf
  | NaN => NaN
  end.

Definition nadd (x y : num) : num :=
  match x, y with
  | Fin a, Fin b => Fin (a + b)
  | NaN, _ | _, NaN => NaN
  | PInf, NInf | NInf, PInf => NaN
  | PInf, _ | _, PInf => PInf
  | NInf, _ | _, NInf => NInf
  end.

Definition nsub (x y : num) : num := nadd x (nopp y).

Definition nmul (x y : num) : num :=
  match x, y with
  | Fin a, Fin b => Fin (a * b)
  | NaN, _ | _, NaN => NaN
  | Fin a, PInf | PInf, Fin a => inf_of_sign a
  | Fin a, NInf | NInf, Fin a => inf_of_sign (- a)
  | PInf, PInf | NInf, NInf => PInf
  | PInf, NInf | NInf, PInf => NInf
  end.

Definition ndiv (x y : num) : num :=
  match x, y with
  | Fin a, Fin b =>
      if Req_dec_T b 0 then inf_of_sign a else Fin (a / b)
  | NaN, _ | _, NaN => NaN
  | Fin _, PInf | Fin _, NInf => Fin 0
  | PInf, Fin b => inf_of_sign0 b
  | NInf, Fin b => nopp (inf_of_sign0 b)
  | _, _ => NaN
  end.

(** Comparisons: every comparison with NaN is false. *)
Definition nlt (x y : num) : bool :=
  match x, y with
  | Fin a, Fin b => if Rlt_dec a b then true else false
  | NaN, _ | _, NaN => false
  | NInf, NInf | PInf, PInf => false
  | NInf, _ | _, PInf => true
  | _, _ => false
  end.

Definition nle (x y : num) : bool :=
  match x, y with
  | Fin a, Fin b => if Rle_dec a b then true else false
  | NaN, _ | _, NaN => false
  | NInf, _ | _, PInf => true
  | _, _ => false
  end.

Definition ngt (x y : num) : bool := nlt y x.

(** Strict equality [===] on numbers. *)
Definition neq (x y : num) : bool :=
  match x, y with
  | Fin a, Fin b => if Req_dec_T a b then true else false
  | PInf, PInf | NInf, NInf => true
  | _, _ => false
  end.

(** Integer part toward zero, and the least integer not below [r]. *)
Definition truncZ (r : R) : Z :=
  if Rle_dec 0 r then Int_part r else (- Int_part (- r))%Z.

Definition ceilZ (r : R) : Z := (1 - up (- r))%Z.

(** The remainder operator [%]: the result has the sign of the dividend. *)
Definition nmod (x y : num) : num :=
  match x, y with
  | Fin a, Fin b =>
      if Req_dec_T b 0 then NaN else Fin (a - b * IZR (truncZ (a / b)))
  | Fin a, PInf | Fin a, NInf => Fin a
  | _, _ => NaN
  end.

Definition Math_abs (x : num) : num :=
  match x with
  | Fin a => Fin (Rabs a)
  | PInf | NInf => PInf
  | NaN => NaN
  end.

Definition Math_sqrt (x : num) : num :=
  match x with
  | Fin a => if Rle_dec 0 a then Fin (sqrt a) else NaN
  | PInf => PInf
  | NInf | NaN => NaN
  end.

Definition Math_exp (x : num) : num :=
  match x with
  | Fin a => Fin (exp a)
  | PInf => PInf
  | NInf => Fin 0
  | NaN => NaN
  end.

Definition Math_log (x : num) : num :=
  match x with
  | Fin a =>
      if Rlt_dec 0 a then Fin (ln a)
      else if Req_dec_T a 0 then NInf else NaN
  | PInf => PInf
  | NInf | NaN => NaN
  end.

Definition Math_atan (x : num) : num :=
  match x with
  | Fin a => Fin (atan a)
  | PInf => Fin (PI / 2)
  | NInf => Fin (- PI / 2)
  | NaN => NaN
  end.

Definition Math_sin (x : num) : num :=
  match x with Fin a => Fin (sin a) | _ => NaN end.

Definition Math_cos (x : num) : num :=
  match x with Fin a => Fin (cos a) | _ => NaN end.

Definition Math_PI : num := Fin PI.

Definition Math_max (x y : num) : num :=
  match x, y with
  | NaN, _ | _, NaN => NaN
  | _, _ => if nlt x y then y else x
  end.

Definition Math_min (x y : num) : num :=
  match x, y with
  | NaN, _ | _, NaN => NaN
  | _, _ => if nlt y x then y else x
  end.

Definition Math_ceil (x : num) : num :=
  match x with
  | Fin a => Fin (IZR (ceilZ a))
  | _ => x
  end.

(** [is_int r] holds when the real [r] is an integer. *)
Definition is_int (r : R) : bool :=
  if Req_dec_T r (IZR (Int_part r)) then true else false.

(** Power of a finite base: repeated multiplication for an integer
    exponent, [exp (y * ln a)] for a positive base otherwise. *)
Definition pow_fin (a y : R) : num :=
  if is_int y then
    let k := Int_part y in
    if (0 <=? k)%Z then Fin (a ^ Z.to_nat k)
    else if Req_dec_T a 0 then PInf
    else Fin (/ a ^ Z.to_nat (- k))
  else if Rlt_dec 0 a then Fin (Rpower a y)
  else if Req_dec_T a 0 then (if Rlt_dec 0 y then Fin 0 else PInf)
  else NaN.

Definition Math_pow (x y : num) : num :=
  match x, y with
  | Fin a, Fin b => pow_fin a b
  | _, NaN => NaN
  | _, Fin b =>
      if Req_dec_T b 0 then Fin 1
      else match x with
           | PInf => if Rlt_dec 0 b then PInf else Fin 0
           | NInf =>
               if Rlt_dec 0 b
               then (if is_int b && Z.odd (Int_part b) then NInf else PInf)
               else Fin 0
           | _ => NaN
           end
  | Fin a, PInf =>
      if Rlt_dec 1 (Rabs a) then PInf
      else if Rlt_dec (Rabs a) 1 then Fin 0 else NaN
  | Fin a, NInf =>
      if Rlt_dec 1 (Rabs a) then Fin 0
      else if Rlt_dec (Rabs a) 1 then PInf else NaN
  | NaN, _ => NaN
  | _, PInf => PInf
  | _, NInf => Fin 0
  end.

End JS.

Import JS.

Declare Scope js_scope.
Delimit Scope js_scope with js.
Bind Scope js_scope with num.

Notation "x + y" := (nadd x y) : js_scope.
Notation "x - y" := (nsub x y) : js_scope.
Notation "x * y" := (nmul x y) : js_scope.
Notation "x / y" := (ndiv x y) : js_scope.
Notation "- x" := (nopp x) : js_scope.
Notation "x <? y" := (nlt x y) (at level 70, no associativity) : js_scope.
Notation "x <=? y" := (nle x y) (at level 70, no associativity) : js_scope.
Notation "x >? y" := (ngt x y) (at level 70, no associativity) : js_scope.
Notation "x === y" := (neq x y) (at level 70, no associativity) : js_scope.
Notation "x % y" := (nmod x y) (at level 40, left associativity) : js_scope.

Open Scope R_scope.

(* ================================================================== *)
(** * confidenceIntervals/utils.ts *)
(* ================================================================== *)

Module Utils.

Local Open Scope js_scope.

(** Numerical approximation of the error function erf(x). *)
Definition erf (x : num) : num :=
  let a1 : num := 0.254829592 in
  let a2 : num := - 0.284496736 in
  let a3 : num := 1.421413741 in
  let a4 : num := - 1.453152027 in
  let a5 : num := 1.061405429 in
  let p : num := 0.3275911 in
  let sign : num := if x <? 0 then - 1 else 1 in
  let absX := Math_abs x in
  let t := 1 / (1 + p * absX) in
  let y := 1 - (((((a5 * t + a4) * t) + a3) * t + a2) * t + a1) * t
               * Math_exp (- absX * absX) in
  sign * y.

(** Standard Normal CDF: P(Z < z). *)
Definition getNormalCDF (z : num) : num :=
  0.5 * (1 + erf (z / Math_sqrt 2)).

(** Standard Normal inverse CDF, keyed by a two-sided confidence level
    in percent. *)
Definition getZCritical (confidence : num) : num :=
  let alpha := 1 - confidence / 100 in
  let p := 1 - alpha / 2 in
  let t := Math_sqrt (- 2 * Math_log (1 - p)) in
  let c0 : num := 2.515517 in
  let c1 : num := 0.802853 in
  let c2 : num := 0.010328 in
  let d0 : num := 1.432788 in
  let d1 : num := 0.189269 in
  let d2 : num := 0.001308 in
  let num_ := c0 + (c1 * t) + (c2 * t * t) in
  let den := 1 + (d0 * t) + (d1 * t * t) + (d2 * t * t * t) in
  t - (num_ / den).

(** t-distribution critical value. *)
Definition getTCritical (confidence df : num) : num :=
  if df <=? 0 then 0
  else
    let z := getZCritical confidence in
    if df >? 500 then z
    else
      let z2 := z * z in
      let z3 := z2 * z in
      let z5 := z2 * z3 in
      let term1 := (z3 + z) / (4 * df) in
      let term2 := (5 * z5 + 16 * z3 + 3 * z) / (96 * df * df) in
      let term3 :=
        (3 * z5 * z2 + 19 * z5 + 17 * z3 - 15 * z) / (384 * df * df * df) in
      z + term1 + term2 + term3.

Record TPValue : Type := mkTPValue
  { twoSided : num; lower : num; upper : num }.

(** The loop [for (let i = i0; i <= df - 2; i += 2)] of [getTPValue],
    shared by the odd and the even branch; it yields the final [poly].
    [None] when the fuel does not reach the loop exit. *)
Fixpoint tp_loop (fuel : nat) (i df cos term poly : num) : option num :=
  if i <=? df - 2 then
    match fuel with
    | O => None
    | S fuel' =>
        let term' := term * ((i - 1) / i * cos * cos) in
        let poly' := poly + term' in
        tp_loop fuel' (i + 2) df cos term' poly'
    end
  else Some poly.

(** The loops run only when [df > 100] is false, hence at most fifty
    times. *)
Definition tp_fuel : nat := 50.

(** The block of [getTPValue] that computes the two-sided probability
    [p] from the angle (the [df === 1], odd and even branches). *)
Definition tp_two_sided (angle df : num) : option num :=
  if df === 1 then Some (1 - (2 / Math_PI) * angle)
  else
    let sin := Math_sin angle in
    let cos := Math_cos angle in
    if df % 2 === 1 then
      match tp_loop tp_fuel 3 df cos sin sin with
      | Some poly => Some (1 - (2 / Math_PI) * (angle + poly * cos))
      | None => None
      end
    else
      match tp_loop tp_fuel 2 df cos sin sin with
      | Some poly => Some (1 - poly * cos)
      | None => None
      end.

(** [getTPValue]; the result is [None] only if a loop ran out of fuel,
    which theorem [getTPValue_consistent] excludes for integer [df >= 1]. *)
Definition getTPValue (t df : num) : option TPValue :=
  let absT := Math_abs t in
  if df >? 100 then
    let pZ := getNormalCDF absT in
    let twoSided := 2 * (1 - pZ) in
    let lower := if t <? 0 then pZ else 1 - pZ in
    Some (mkTPValue twoSided lower (1 - lower))
  else
    let angle := Math_atan (absT / Math_sqrt df) in
    match tp_two_sided angle df with
    | Some p =>
        Some (mkTPValue (Math_max 0 (Math_min 1 p))
                (if t <? 0 then 1 - p / 2 else p / 2)
                (if t >? 0 then 1 - p / 2 else p / 2))
    | None => None
    end.

Definition getChiSqPValue (chi2 df : num) : num :=
  if chi2 <=? 0 then 1
  else
    let z := Math_pow (chi2 / df) (1 / 3) - (1 - 2 / (9 * df)) in
    let denom := Math_sqrt (2 / (9 * df)) in
    let zStat := z / denom in
    1 - getNormalCDF zStat.

Definition getChiSqCritical (p df : num) : num :=
  if df <=? 0 then 0
  else
    let z := getZCritical ((1 - p) * 100) in
    let inner := 1 - (2 / (9 * df)) + z * Math_sqrt (2 / (9 * df)) in
    df * Math_pow inner 3.

Definition lambda (z : num) : num := (z * z - 3) / 6.

(** F-distribution critical value (used for Clopper-Pearson). *)
Definition getFCritical (p d1 d2 : num) : num :=
  let z := getZCritical (p * 100) in
  let h := 2 / (1 / d1 + 1 / d2) in
  let g := (d2 - d1) / (d1 * d2) in
  let w := (z * Math_sqrt (h + lambda z) / h) - g * (z * z + 2) in
  Math_exp (2 * w).

End Utils.

(* ================================================================== *)
(** * confidenceIntervals/ciRatePoisson.ts *)
(* ================================================================== *)

Module CiRatePoisson.

Local Open Scope js_scope.

(** The numbers [compute] formats: the observed rate and the bounds of
    the exact and of Byar's interval. *)
Record Values : Type := mkValues
  { rate : num;
    exactLower : num; exactUpper : num;
    byarLower : num; byarUpper : num }.

Definition compute (k T conf : num) : Values :=
  let alpha := 1 - conf / 100 in
  let rate := k / T in
  let exactLower :=
    if k === 0 then Fin 0
    else Utils.getChiSqCritical (alpha / 2) (2 * k) / (2 * T) in
  let exactUpper :=
    Utils.getChiSqCritical (1 - alpha / 2) (2 * (k + 1)) / (2 * T) in
  let zCrit := Utils.getZCritical conf in
  let byarTerm := (zCrit / 3) * Math_sqrt (1 / (k + 0.5)) in
  let byarLower :=
    ((k + 0.5) * Math_pow (1 - 1 / (9 * (k + 0.5)) - byarTerm) 3) / T in
  let byarUpper :=
    ((k + 0.5) * Math_pow (1 - 1 / (9 * (k + 0.5)) + byarTerm) 3) / T in
  mkValues rate exactLower exactUpper byarLower byarUpper.

End CiRatePoisson.

(* ================================================================== *)
(** * epidemiology utilities: 2x2 tables, RR, OR, RD *)
(* ================================================================== *)

Module EpiUtils.

Local Open Scope js_scope.

Record Table2x2 : Type := mkTable
  { a : num;   (* Exposed + Disease *)
    b : num;   (* Exposed - Disease *)
    c : num;   (* Unexposed + Disease *)
    d : num }. (* Unexposed - Disease *)

Record Estimate : Type := mkEstimate
  { value : num; lower : num; upper : num }.

Record RDEstimate : Type := mkRDEstimate
  { rd_value : num; rd_lower : num; rd_upper : num; nnt : num }.

Definition applyContinuityCorrection (table : Table2x2) : Table2x2 :=
  let hasZero :=
    (a table === 0) || (b table === 0) || (c table === 0)
    || (d table === 0) in
  if negb hasZero then table
  else mkTable (a table + 0.5) (b table + 0.5) (c table + 0.5)
               (d table + 0.5).

Definition computeRR (table : Table2x2) (conf : num) : Estimate :=
  let t := applyContinuityCorrection table in
  let r1 := a t / (a t + b t) in
  let r2 := c t / (c t + d t) in
  let rr := r1 / r2 in
  let seLog :=
    Math_sqrt ((1 / a t - 1 / (a t + b t)) + (1 / c t - 1 / (c t + d t))) in
  let z := Utils.getZCritical conf in
  mkEstimate rr
    (Math_exp (Math_log rr - z * seLog))
    (Math_exp (Math_log rr + z * seLog)).

Definition computeOR (table : Table2x2) (conf : num) : Estimate :=
  let t := applyContinuityCorrection table in
  let or := (a t * d t) / (b t * c t) in
  let seLog := Math_sqrt (1 / a t + 1 / b t + 1 / c t + 1 / d t) in
  let z := Utils.getZCritical conf in
  mkEstimate or
    (Math_exp (Math_log or - z * seLog))
    (Math_exp (Math_log or + z * seLog)).

Definition computeRD (table : Table2x2) (conf : num) : RDEstimate :=
  let r1 := a table / (a table + b table) in
  let r2 := c table / (c table + d table) in
  let rd := r1 - r2 in
  let se :=
    Math_sqrt ((r1 * (1 - r1)) / (a table + b table)
               + (r2 * (1 - r2)) / (c table + d table)) in
  let z := Utils.getZCritical conf in
  mkRDEstimate rd (rd - z * se) (rd + z * se)
    (if rd === 0 then PInf else Math_ceil (Math_abs (1 / rd))).

End EpiUtils.

(* ================================================================== *)
(** * calculators/epidemiology/ratioCalculators.ts *)
(* ================================================================== *)

Module RatioCalculators.

Local Open Scope js_scope.

(** The numbers [riskRatioCalc.compute] formats: the estimate of
    [computeRR] (at its default confidence of 95) and the two risks. *)
Record RiskRatioValues : Type := mkRiskRatioValues
  { rrEstimate : EpiUtils.Estimate;
    riskExposed : num;
    riskUnexposed : num }.

Definition riskRatioCalc
  (exposed_cases unexposed_cases exposed_control unexposed_control : num)
  : RiskRatioValues :=
  let table :=
    EpiUtils.mkTable exposed_cases exposed_control unexposed_cases
      unexposed_control in
  let res := EpiUtils.computeRR table 95 in
  mkRiskRatioValues res
    (EpiUtils.a table / (EpiUtils.a table + EpiUtils.b table))
    (EpiUtils.c table / (EpiUtils.c table + EpiUtils.d table)).

(** The numbers [oddsRatioCalc.compute] formats. *)
Record OddsRatioValues : Type := mkOddsRatioValues
  { orEstimate : EpiUtils.Estimate;
    oddsExposed : num;
    oddsUnexposed : num }.

Definition oddsRatioCalc
  (exposed_cases unexposed_cases exposed_control unexposed_control : num)
  : OddsRatioValues :=
  let table :=
    EpiUtils.mkTable exposed_cases exposed_control unexposed_cases
      unexposed_control in
  let res := EpiUtils.computeOR table 95 in
  mkOddsRatioValues res
    (EpiUtils.a table / EpiUtils.b table)
    (EpiUtils.c table / EpiUtils.d table).

End RatioCalculators.

(* ================================================================== *)
(** * sample size: non-inferiority of proportions *)
(* ================================================================== *)

Module SampleSizeNonInferiority.

Local Open Scope js_scope.

Record SampleSize : Type := mkSampleSize { n : num; nTotal : num }.

(** The closure [calculateN] of [compute], with the variables it captures
    as parameters. *)
Definition calculateN (pStandard pTest margin zAlpha targetPower : num)
  : SampleSize :=
  let zPower := Utils.getZCritical ((targetPower * 2 - 1) * 100) in
  let numerator :=
    Math_pow (zAlpha + zPower) 2
    * (pStandard * (1 - pStandard) + pTest * (1 - pTest)) in
  let denominator := Math_pow (pTest - pStandard - margin) 2 in
  let nPerArm := Math_ceil (numerator / denominator) in
  mkSampleSize nPerArm (nPerArm * 2).

Definition spectrumPowers : list num :=
  (Fin 0.70 :: Fin 0.75 :: Fin 0.80 :: Fin 0.85 :: Fin 0.90 :: Fin 0.95
   :: Fin 0.99 :: nil)%list.

(** What [compute] returns: the per-group and total sizes, the one-sided
    z of alpha, and the power spectrum. *)
Record Result : Type := mkResult
  { perGroup : num;
    total : num;
    zAlphaShown : num;
    powerSpectrum : list (num * SampleSize) }.

Definition compute (pStandard pTest margin power alpha : num) : Result :=
  let zAlpha := Utils.getZCritical ((1 - alpha * 2) * 100) in
  let mainN := calculateN pStandard pTest margin zAlpha power in
  let n := n mainN in
  mkResult n (n * 2) zAlpha
    (List.map
       (fun p => (p * 100, calculateN pStandard pTest margin zAlpha p))
       spectrumPowers).

End SampleSizeNonInferiority.

(* ================================================================== *)
(** * sample size: two independent proportions *)
(* ================================================================== *)

Module SampleSizeTwoProps.

Local Open Scope js_scope.

Record Result : Type := mkResult { n1 : num; n2 : num; totalN : num }.

Definition compute (p1 p2 power alpha ratio : num) : Result :=
  let q1 := 1 - p1 in
  let q2 := 1 - p2 in
  let pAvg := (p1 + ratio * p2) / (1 + ratio) in
  let qAvg := 1 - pAvg in
  let zAlpha := Utils.getZCritical ((1 - alpha) * 100) in
  let zPower := Utils.getZCritical ((power * 2 - 1) * 100) in
  let n1 :=
    Math_ceil
      (Math_pow (zAlpha * Math_sqrt ((1 + 1 / ratio) * pAvg * qAvg)
                 + zPower * Math_sqrt (p1 * q1 + (p2 * q2) / ratio)) 2
       / Math_pow (p1 - p2) 2) in
  let n2 := Math_ceil (n1 * ratio) in
  mkResult n1 n2 (n1 + n2).

End SampleSizeTwoProps.

(* ================================================================== *)
(** * chi-square test on a 2x2 table *)
(* ================================================================== *)

Module ChiSquare.

Local Open Scope js_scope.

Record Result : Type := mkResult { chi2 : num; pValue : num }.

(** [None] is the early return with an empty result list ("Table
    contains a row or column with zero totals."). *)
Definition compute (a b c d : num) (yates : bool) : option Result :=
  let n := a + b + c + d in
  let row1 := a + b in
  let row2 := c + d in
  let col1 := a + c in
  let col2 := b + d in
  if (row1 === 0) || (row2 === 0) || (col1 === 0) || (col2 === 0) then None
  else
    let numerator := Math_abs (a * d - b * c) in
    let correctedNum :=
      if yates then Math_max 0 (numerator - n / 2) else numerator in
    let chi2 := (n * Math_pow correctedNum 2) / (row1 * row2 * col1 * col2) in
    let pValue := Utils.getChiSqPValue chi2 1 in
    Some (mkResult chi2 pValue).

End ChiSquare.

(* ================================================================== *)
(** * calculators/confidenceIntervals/ciProportion.ts *)
(* ================================================================== *)

Module CiProportion.

Local Open Scope js_scope.

Record Values : Type := mkValues
  { p : num;
    wLow : num; wHigh : num;
    wilsonLow : num; wilsonHigh : num;
    wilsonCCLow : num; wilsonCCHigh : num;
    cpLow : num; cpHigh : num }.

Definition compute (x n conf : num) : Values :=
  let p := x / n in
  let alpha := 1 - conf / 100 in
  let zCrit := Utils.getZCritical conf in
  let z2 := zCrit * zCrit in
  (* 1. Normal approximation (Wald) *)
  let seWald := Math_sqrt ((p * (1 - p)) / n) in
  let wLow := p - zCrit * seWald in
  let wHigh := p + zCrit * seWald in
  (* 2. Wilson score *)
  let wilsonDenom := 1 + z2 / n in
  let wilsonCenter := p + z2 / (2 * n) in
  let wilsonSpread :=
    zCrit * Math_sqrt ((p * (1 - p) / n) + (z2 / (4 * n * n))) in
  let wilsonLow := (wilsonCenter - wilsonSpread) / wilsonDenom in
  let wilsonHigh := (wilsonCenter + wilsonSpread) / wilsonDenom in
  (* 3. Wilson score with continuity correction *)
  let wilsonCCLow :=
    (2 * n * p + z2 - 1
     - zCrit * Math_sqrt (z2 - (2 + 1 / n) + 4 * p * (n * (1 - p) + 1)))
    / (2 * (n + z2)) in
  let wilsonCCHigh :=
    (2 * n * p + z2 + 1
     + zCrit * Math_sqrt (z2 + (2 - 1 / n) + 4 * p * (n * (1 - p) - 1)))
    / (2 * (n + z2)) in
  (* 4. Clopper-Pearson (exact) *)
  let cpLow :=
    if x >? 0 then
      let v1L := 2 * (n - x + 1) in
      let v2L := 2 * x in
      let fValL := Utils.getFCritical (1 - alpha / 2) v1L v2L in
      x / (x + (n - x + 1) * fValL)
    else Fin 0 in
  let cpHigh :=
    if x <? n then
      let v1U := 2 * (x + 1) in
      let v2U := 2 * (n - x) in
      let fValU := Utils.getFCritical (1 - alpha / 2) v1U v2U in
      ((x + 1) * fValU) / ((n - x) + (x + 1) * fValU)
    else Fin 1 in
  mkValues p wLow wHigh wilsonLow wilsonHigh wilsonCCLow wilsonCCHigh
    cpLow cpHigh.

End CiProportion.

(* ================================================================== *)
(** * Further calculators built on the same utilities *)
(* ================================================================== *)

(** ** epiMeasures: relative risk and odds ratio without correction *)
Module EpiMeasures.

Local Open Scope js_scope.

Record Values : Type := mkValues { rr : num; or : num }.

Definition compute
  (exposed_cases unexposed_cases exposed_control unexposed_control : num)
  : Values :=
  let a := exposed_cases in
  let b := exposed_control in
  let c := unexposed_cases in
  let d := unexposed_control in
  let n1 := a + b in
  let n2 := c + d in
  let r1 := a / n1 in
  let r2 := c / n2 in
  mkValues (r1 / r2) ((a * d) / (b * c)).

End EpiMeasures.

(** ** screeningImpact: ARR, NNT, NNH *)
Module ScreeningImpact.

Local Open Scope js_scope.

(** [nntShown] is the [Math.ceil(nnt)] that is displayed; [nnhShown] is
    [None] where the calculator prints 'N/A'. *)
Record Values : Type := mkValues
  { arr : num; nntShown : num; rrr : num; nnhShown : option num }.

Definition compute (r_exposed r_control : num) : Values :=
  let arr := Math_abs (r_control - r_exposed) in
  let nnt := if arr === 0 then PInf else 1 / arr in
  let rrr := Math_abs (r_control - r_exposed) / r_control in
  mkValues arr (Math_ceil nnt) rrr
    (if r_exposed >? r_control
     then Some (Math_ceil (1 / (r_exposed - r_control)))
     else None).

End ScreeningImpact.

(** ** epidemiology/standardizedRates.ts *)
Module StandardizedRates.

Local Open Scope js_scope.

Record Values : Type := mkValues { ratio : num; lower : num; upper : num }.

Definition compute (observed expected : num) : Values :=
  let ratio := observed / expected in
  let zCrit : num := 1.96 in
  let lower :=
    if observed === 0 then Fin 0
    else
      (observed
       * Math_pow (1 - 1 / (9 * observed) - zCrit / (3 * Math_sqrt observed))
           3)
      / expected in
  let upper :=
    ((observed + 1)
     * Math_pow (1 - 1 / (9 * (observed + 1))
                 + zCrit / (3 * Math_sqrt (observed + 1))) 3)
    / expected in
  mkValues ratio lower upper.

End StandardizedRates.

(** ** confidenceIntervals/ciVariance.ts *)
Module CiVariance.

Local Open Scope js_scope.

Record Values : Type := mkValues
  { s2 : num; df : num;
    chiLower : num; chiUpper : num;
    varLower : num; varUpper : num;
    sdLower : num; sdUpper : num }.

Definition compute (sd n conf : num) : Values :=
  let df := n - 1 in
  let alpha := 1 - conf / 100 in
  let s2 := sd * sd in
  let chiLower := Utils.getChiSqCritical (1 - alpha / 2) df in
  let chiUpper := Utils.getChiSqCritical (alpha / 2) df in
  let varLower := (df * s2) / chiUpper in
  let varUpper := (df * s2) / chiLower in
  let sdLower := Math_sqrt varLower in
  let sdUpper := Math_sqrt varUpper in
  mkValues s2 df chiLower chiUpper varLower varUpper sdLower sdUpper.

End CiVariance.

(** ** powerMeans *)
Module PowerMeans.

Local Open Scope js_scope.

Record Values : Type := mkValues
  { power : num; diff : num; zAlpha : num; se : num }.

Definition compute (n1 n2 m1 m2 sd alpha : num) : Values :=
  let diff := Math_abs (m1 - m2) in
  let zAlpha := Utils.getZCritical ((1 - alpha) * 100) in
  let se := sd * Math_sqrt (1 / n1 + 1 / n2) in
  let lambda := diff / se in
  let power :=
    Utils.getNormalCDF (lambda - zAlpha)
    + Utils.getNormalCDF (- lambda - zAlpha) in
  mkValues power diff zAlpha se.

End PowerMeans.

(** ** calculators/sampleSizeProp.ts *)
Module SampleSizeProp.

Local Open Scope js_scope.

(** [zMap[conf] || 1.96] for the table {90: 1.645, 95: 1.96, 99: 2.576}. *)
Definition zVal (conf : num) : num :=
  if conf === 90 then 1.645
  else if conf === 95 then 1.96
  else if conf === 99 then 2.576
  else 1.96.

End SampleSizeProp.

(** ** epidemiology: the risk-difference calculator *)

(** The global [isFinite] on numbers. *)
Definition isFinite (x : num) : bool :=
  match x with Fin _ => true | _ => false end.

Module RiskDiffCalc.

Local Open Scope js_scope.

Inductive Label : Type := NNT | NNH.

(** [nntShown] is [None] where the calculator prints 'N/A'. *)
Record Values : Type := mkValues
  { rd : num; label : Label; nntShown : option num }.

Definition compute
  (exposed_cases unexposed_cases exposed_control unexposed_control : num)
  : Values :=
  let table :=
    EpiUtils.mkTable exposed_cases exposed_control unexposed_cases
      unexposed_control in
  let res := EpiUtils.computeRD table 95 in
  mkValues (EpiUtils.rd_value res)
    (if EpiUtils.rd_value res <? 0 then NNT else NNH)
    (if isFinite (EpiUtils.nnt res) then Some (EpiUtils.nnt res) else None).

End RiskDiffCalc.

(* ================================================================== *)
(** * Real forms of the approximations

    On finite operands inside their domains the functions above compute
    the following real expressions (lemmas [*_fin] below). *)
(* ================================================================== *)

(** The intermediate [t] of [getZCritical] and its rational correction. *)
Definition zcrit_t (conf : R) : R := sqrt (- 2 * ln ((1 - conf / 100) / 2)).

Definition zcrit_num (t : R) : R := 2.515517 + 0.802853 * t + 0.010328 * t * t.

Definition zcrit_den (t : R) : R :=
  1 + 1.432788 * t + 0.189269 * t * t + 0.001308 * t * t * t.

Definition zcrit_of_t (t : R) : R := t - zcrit_num t / zcrit_den t.

Definition zcrit (conf : R) : R := zcrit_of_t (zcrit_t conf).

(** Wilson-Hilferty quantile as [getChiSqCritical] evaluates it. *)
Definition chisq_inner (z df : R) : R :=
  1 - 2 / (9 * df) + z * sqrt (2 / (9 * df)).

Definition chisq_crit (p df : R) : R :=
  let inner := chisq_inner (zcrit ((1 - p) * 100)) df in
  df * (inner * inner * inner).

(** Byar's cube-root bound as [ciRatePoisson] evaluates it; [sgn] is
    [-1] for the lower and [1] for the upper bound. *)
Definition byar_inner (sgn z k : R) : R :=
  1 - 1 / (9 * (k + 0.5)) + sgn * (z / 3 * sqrt (1 / (k + 0.5))).

Definition byar_bound (sgn z k T : R) : R :=
  let inner := byar_inner sgn z k in
  (k + 0.5) * (inner * inner * inner) / T.

(** ** Certified enclosures of [exp]

    [sqn n x] is [x] squared [n] times; [sqiter s n a] is the same on
    fixed-point integers of scale [s], rounding down at every step. *)
Fixpoint sqn (n : nat) (x : R) : R :=
  match n with O => x | S n' => sqn n' (x * x) end.

Fixpoint sqiter (s : Z) (n : nat) (a : Z) : Z :=
  match n with O => a | S n' => sqiter s n' (a * a / s) end.

(** ** Statements of the specification, for comparison with the code *)

(** The chi-square statistic as the specification words it:
    n (|ad - bc| - c)^2 / (R1 R2 C1 C2), with c = n/2 under Yates'
    correction and c = 0 otherwise. *)
Definition chi2_spec (a b c d : R) (yates : bool) : R :=
  let n := a + b + c + d in
  let corr := if yates then n / 2 else 0 in
  n * ((Rabs (a * d - b * c) - corr) * (Rabs (a * d - b * c) - corr))
  / ((a + b) * (c + d) * (a + c) * (b + d)).

(** The statistic as the code computes it: the corrected numerator is
    clipped at zero. *)
Definition chi2_real (a b c d : R) (yates : bool) : R :=
  let n := a + b + c + d in
  let num_ := Rabs (a * d - b * c) in
  let corrected := if yates then Rmax 0 (num_ - n / 2) else num_ in
  n * (corrected * corrected) / ((a + b) * (c + d) * (a + c) * (b + d)).

(** Real forms of the effect measures on a table with cells a, b, c, d. *)
Definition rr_real (a b c d : R) : R := (a / (a + b)) / (c / (c + d)).

Definition rr_se (a b c d : R) : R :=
  sqrt ((1 / a - 1 / (a + b)) + (1 / c - 1 / (c + d))).

Definition or_real (a b c d : R) : R := (a * d) / (b * c).

Definition or_se (a b c d : R) : R := sqrt (1 / a + 1 / b + 1 / c + 1 / d).

Definition rd_real (a b c d : R) : R := a / (a + b) - c / (c + d).

Definition rd_se (a b c d : R) : R :=
  sqrt ((a / (a + b) * (1 - a / (a + b))) / (a + b)
        + (c / (c + d) * (1 - c / (c + d))) / (c + d)).

(** The risk ratio of the table as given, without any correction: the
    point estimate the specification attributes to [computeRR]. *)
Definition rr_uncorrected (t : EpiUtils.Table2x2) : num :=
  ((EpiUtils.a t / (EpiUtils.a t + EpiUtils.b t))
   / (EpiUtils.c t / (EpiUtils.c t + EpiUtils.d t)))%js.

(** Numerator and denominator of the non-inferiority closed form. *)
Definition noninf_numerator (pS pT zA zP : R) : R :=
  (zA + zP) * (zA + zP) * (pS * (1 - pS) + pT * (1 - pT)).

Definition noninf_denominator (pS pT margin : R) : R :=
  (pT - pS - margin) * (pT - pS - margin).

(** What the specification calls a rejection: an undefined (NaN) or a
    negative result. *)
Definition rejected (x : num) : Prop := x = NaN \/ nlt x (Fin 0) = true.

(** The error-function approximation on a finite argument. *)
Definition erf_poly (t : R) : R :=
  ((((1.061405429 * t + -1.453152027) * t + 1.421413741) * t
    + -0.284496736) * t + 0.254829592) * t.

Definition erf_real (x : R) : R :=
  (if Rlt_dec x 0 then -1 else 1)
  * (1 - erf_poly (1 / (1 + 0.3275911 * Rabs x)) * exp (- Rabs x * Rabs x)).

Definition normal_cdf (z : R) : R := 0.5 * (1 + erf_real (z / sqrt 2)).

(** The F quantile approximation of [getFCritical]. *)
Definition fcrit_w (z d1 d2 : R) : R :=
  let h := 2 / (1 / d1 + 1 / d2) in
  let g := (d2 - d1) / (d1 * d2) in
  z * sqrt (h + (z * z - 3) / 6) / h - g * (z * z + 2).

Definition fcrit (p d1 d2 : R) : R := exp (2 * fcrit_w (zcrit (p * 100)) d1 d2).

(** The loops of [getTPValue] on reals: [tp_loop_real n] runs [n]
    iterations from index [i]; [tp_series i0 n] is the sum the loop started
    at index [i0] has accumulated after [n] iterations, as a function of
    the angle. *)
Fixpoint tp_loop_real (n : nat) (i c term poly : R) : R :=
  match n with
  | O => poly
  | S n' =>
      let term' := term * ((i - 1) / i * c * c) in
      tp_loop_real n' (i + 2) c term' (poly + term')
  end.

Fixpoint tp_coef (i0 : R) (k : nat) : R :=
  match k with
  | O => 1
  | S k' => tp_coef i0 k' * ((i0 + 2 * INR k' - 1) / (i0 + 2 * INR k'))
  end.

Fixpoint tp_series (i0 : R) (n : nat) (x : R) : R :=
  match n with
  | O => sin x
  | S n' =>
      tp_series i0 n' x
      + tp_coef i0 (S n') * (sin x * (cos x * cos x) ^ S n')
  end.

(** Odd degrees of freedom: the angle plus the cosine-weighted sum. *)
Definition tp_odd (n : nat) (x : R) : R := x + cos x * tp_series 3 n x.


(** ** Real forms used by the further properties *)

(** The Cornish-Fisher correction of [getTCritical] for 0 < df <= 500. *)
Definition tcrit_real (z df : R) : R :=
  let z2 := z * z in
  let z3 := z2 * z in
  let z5 := z2 * z3 in
  z + (z3 + z) / (4 * df)
  + (5 * z5 + 16 * z3 + 3 * z) / (96 * df * df)
  + (3 * z5 * z2 + 19 * z5 + 17 * z3 - 15 * z) / (384 * df * df * df).

(** Derivative of [erf_poly]. *)
Definition erf_poly' (t : R) : R :=
  0.254829592 + 2 * -0.284496736 * t + 3 * 1.421413741 * (t * t)
  + 4 * -1.453152027 * (t * t * t) + 5 * 1.061405429 * (t * t * t * t).

(** The value [getChiSqPValue] computes for chi2 > 0. *)
Definition chisq_pvalue_real (chi2 df : R) : R :=
  1 - normal_cdf ((Rpower (chi2 / df) (1 / 3) - (1 - 2 / (9 * df)))
                  / sqrt (2 / (9 * df))).

(** [getChiSqPValue] on all finite statistics: 1 up to zero. *)
Definition chisq_pvalue_tot (chi2 df : R) : R :=
  if Rle_dec chi2 0 then 1 else chisq_pvalue_real chi2 df.

(* ================================================================== *)
(** * Evaluation of the number operations on finite operands *)
(* ================================================================== *)

Section FiniteEvaluation.

Lemma ndiv_fin (x y : R) : y <> 0 -> ndiv (Fin x) (Fin y) = Fin (x / y).
Proof.
  intro H. unfold ndiv. destruct (Req_dec_T y 0) as [E|_]; [contradiction|].
  reflexivity.
Qed.

Lemma ndiv_zero_pos (x : R) : 0 < x -> ndiv (Fin x) (Fin 0) = PInf.
Proof.
  intro H. unfold ndiv, inf_of_sign.
  destruct (Req_dec_T 0 0) as [_|N]; [|contradiction].
  destruct (Rlt_dec 0 x) as [_|N]; [reflexivity|contradiction].
Qed.

Lemma sqrt_fin (x : R) : 0 <= x -> Math_sqrt (Fin x) = Fin (sqrt x).
Proof.
  intro H. unfold Math_sqrt. destruct (Rle_dec 0 x); [reflexivity|contradiction].
Qed.

Lemma log_fin (x : R) : 0 < x -> Math_log (Fin x) = Fin (ln x).
Proof.
  intro H. unfold Math_log. destruct (Rlt_dec 0 x); [reflexivity|contradiction].
Qed.

Lemma nlt_fin_true (x y : R) : x < y -> nlt (Fin x) (Fin y) = true.
Proof. intro H. unfold nlt. destruct (Rlt_dec x y); [reflexivity|contradiction]. Qed.

Lemma nlt_fin_false (x y : R) : y <= x -> nlt (Fin x) (Fin y) = false.
Proof. intro H. unfold nlt. destruct (Rlt_dec x y); [lra|reflexivity]. Qed.

Lemma nle_fin_true (x y : R) : x <= y -> nle (Fin x) (Fin y) = true.
Proof. intro H. unfold nle. destruct (Rle_dec x y); [reflexivity|contradiction]. Qed.

Lemma nle_fin_false (x y : R) : y < x -> nle (Fin x) (Fin y) = false.
Proof. intro H. unfold nle. destruct (Rle_dec x y); [lra|reflexivity]. Qed.

Lemma neq_fin_true (x y : R) : x = y -> neq (Fin x) (Fin y) = true.
Proof. intro H. unfold neq. destruct (Req_dec_T x y); [reflexivity|contradiction]. Qed.

Lemma neq_fin_false (x y : R) : x <> y -> neq (Fin x) (Fin y) = false.
Proof. intro H. unfold neq. destruct (Req_dec_T x y); [contradiction|reflexivity]. Qed.

Lemma up_IZR (k : Z) : up (IZR k) = (k + 1)%Z.
Proof.
  symmetry. apply tech_up; rewrite plus_IZR; lra.
Qed.

Lemma Int_part_IZR (k : Z) : Int_part (IZR k) = k.
Proof. unfold Int_part. rewrite up_IZR. lia. Qed.

Lemma is_int_IZR (k : Z) : is_int (IZR k) = true.
Proof.
  unfold is_int. rewrite Int_part_IZR.
  destruct (Req_dec_T (IZR k) (IZR k)) as [_|N]; [reflexivity|now elim N].
Qed.

(** [Math.pow] with a natural-number exponent is iterated multiplication. *)
Lemma pow_fin_nat (x : R) (k : Z) :
  (0 <= k)%Z -> Math_pow (Fin x) (Fin (IZR k)) = Fin (x ^ Z.to_nat k).
Proof.
  intro H. unfold Math_pow, pow_fin. rewrite is_int_IZR, Int_part_IZR.
  apply Z.leb_le in H. rewrite H. reflexivity.
Qed.

Lemma pow_fin_2 (x : R) : Math_pow (Fin x) (Fin 2) = Fin (x * x).
Proof. rewrite (pow_fin_nat x (k := 2)) by lia. simpl. f_equal. ring. Qed.

Lemma pow_fin_3 (x : R) : Math_pow (Fin x) (Fin 3) = Fin (x * x * x).
Proof. rewrite (pow_fin_nat x (k := 3)) by lia. simpl. f_equal. ring. Qed.

Lemma is_int_third : is_int (1 / 3) = false.
Proof.
  unfold is_int.
  assert (E : Int_part (1 / 3) = 0%Z).
  { unfold Int_part. replace (up (1 / 3)) with 1%Z; [reflexivity|].
    apply tech_up; lra. }
  rewrite E. destruct (Req_dec_T (1 / 3) 0) as [A|_]; [lra|reflexivity].
Qed.

(** The cube root taken by [Math.pow (., 1/3)] undoes a cube. *)
Lemma pow_third_cube (x : R) :
  0 < x -> Math_pow (Fin (x * x * x)) (ndiv (Fin 1) (Fin 3)) = Fin x.
Proof.
  intro H. rewrite ndiv_fin by lra. unfold Math_pow, pow_fin.
  rewrite is_int_third.
  assert (P : 0 < x * x * x) by (repeat apply Rmult_lt_0_compat; exact H).
  destruct (Rlt_dec 0 (x * x * x)) as [_|N]; [|contradiction].
  f_equal.
  replace (x * x * x) with (Rpower x (INR 3)).
  - rewrite Rpower_mult. replace (INR 3 * (1 / 3)) with 1 by (simpl; field).
    apply Rpower_1. exact H.
  - rewrite Rpower_pow by exact H. ring.
Qed.

Lemma ceilZ_unique (r : R) (k : Z) : IZR k - 1 < r <= IZR k -> ceilZ r = k.
Proof.
  intros [H1 H2]. unfold ceilZ.
  replace (up (- r)) with (1 - k)%Z; [lia|].
  apply tech_up; rewrite minus_IZR; lra.
Qed.

End FiniteEvaluation.

Section FiniteArithmetic.

Lemma nadd_fin (x y : R) : nadd (Fin x) (Fin y) = Fin (x + y).
Proof. reflexivity. Qed.

Lemma nsub_fin (x y : R) : nsub (Fin x) (Fin y) = Fin (x - y).
Proof. reflexivity. Qed.

Lemma nmul_fin (x y : R) : nmul (Fin x) (Fin y) = Fin (x * y).
Proof. reflexivity. Qed.

Lemma nopp_fin (x : R) : nopp (Fin x) = Fin (- x).
Proof. reflexivity. Qed.

Lemma exp_fin (x : R) : Math_exp (Fin x) = Fin (exp x).
Proof. reflexivity. Qed.

Lemma abs_fin (x : R) : Math_abs (Fin x) = Fin (Rabs x).
Proof. reflexivity. Qed.

End FiniteArithmetic.

(** Push the four arithmetic operations through finite operands. *)
Ltac js_arith :=
  repeat first
    [ rewrite nsub_fin | rewrite nadd_fin | rewrite nmul_fin
    | rewrite nopp_fin | rewrite exp_fin | rewrite abs_fin ].

(* ================================================================== *)
(** * Certified bounds for exp, ln and sqrt *)
(* ================================================================== *)

Section RealBounds.

Lemma sqn_mono n : forall x y, 0 <= x <= y -> 0 <= sqn n x <= sqn n y.
Proof.
  induction n as [|n IH]; intros x y H; simpl; [exact H|].
  apply IH. split; [nra|]. apply Rmult_le_compat; lra.
Qed.

Lemma exp_sqn n : forall y, exp y = sqn n (exp (y / 2 ^ n)).
Proof.
  induction n as [|n IH]; intro y; simpl.
  - f_equal. field.
  - rewrite <- exp_plus. rewrite (IH y). do 2 f_equal. field.
    apply pow_nonzero. lra.
Qed.

Lemma sqiter_sound (s : Z) n : (0 < s)%Z -> forall a, (0 <= a)%Z ->
  0 <= IZR (sqiter s n a) / IZR s <= sqn n (IZR a / IZR s).
Proof.
  intros Hs. assert (HS : 0 < IZR s) by (apply IZR_lt; exact Hs).
  induction n as [|n IH]; intros a Ha; simpl.
  - split; [|lra]. apply Rmult_le_pos; [apply IZR_le; exact Ha|].
    left; apply Rinv_0_lt_compat; exact HS.
  - assert (Hq : (0 <= a * a / s)%Z) by (apply Z.div_pos; nia).
    destruct (IH _ Hq) as [H0 H1]. split; [exact H0|].
    eapply Rle_trans; [exact H1|].
    apply sqn_mono. split.
    + apply Rmult_le_pos; [apply IZR_le; exact Hq|].
      left; apply Rinv_0_lt_compat; exact HS.
    + assert (Hz : (a * a / s * s <= a * a)%Z).
      { rewrite Z.mul_comm. apply Z.mul_div_le. exact Hs. }
      apply IZR_le in Hz. rewrite !mult_IZR in Hz.
      apply Rmult_le_reg_r with (IZR s * IZR s); [nra|].
      field_simplify; [|lra|lra]. nra.
Qed.

Lemma exp_lower_cert (s : Z) (n : nat) (a : Z) (y : R) :
  (0 < s)%Z -> (0 <= a)%Z ->
  IZR a / IZR s <= 1 + y / 2 ^ n ->
  IZR (sqiter s n a) / IZR s <= exp y.
Proof.
  intros Hs Ha H.
  assert (HS : 0 < IZR s) by (apply IZR_lt; exact Hs).
  destruct (sqiter_sound n Hs Ha) as [_ H1].
  eapply Rle_trans; [exact H1|].
  rewrite (exp_sqn n y). apply sqn_mono. split.
  - apply Rmult_le_pos; [apply IZR_le; exact Ha|].
    left; apply Rinv_0_lt_compat; exact HS.
  - eapply Rle_trans; [exact H|]. apply exp_ineq1_le.
Qed.

Lemma exp_upper_cert (s : Z) (n : nat) (a : Z) (y : R) :
  (0 < s)%Z -> (0 <= a)%Z ->
  IZR a / IZR s <= 1 - y / 2 ^ n ->
  (0 < sqiter s n a)%Z ->
  exp y <= IZR s / IZR (sqiter s n a).
Proof.
  intros Hs Ha H Hpos.
  assert (HS : 0 < IZR s) by (apply IZR_lt; exact Hs).
  assert (HQ : 0 < IZR (sqiter s n a)) by (apply IZR_lt; exact Hpos).
  assert (L : IZR (sqiter s n a) / IZR s <= exp (- y)).
  { apply exp_lower_cert; try assumption.
    replace (- y / 2 ^ n) with (- (y / 2 ^ n)) by (field; apply pow_nonzero; lra).
    lra. }
  rewrite exp_Ropp in L.
  assert (E : 0 < exp y) by apply exp_pos.
  apply Rmult_le_reg_r with (IZR (sqiter s n a) / IZR s).
  - apply Rdiv_lt_0_compat; assumption.
  - replace (IZR s / IZR (sqiter s n a) * (IZR (sqiter s n a) / IZR s)) with 1
      by (field; lra).
    apply Rle_trans with (exp y * / exp y); [|right; field; lra].
    apply Rmult_le_compat_l; lra.
Qed.

Lemma ln_le_of_exp x u : 0 < x -> x <= exp u -> ln x <= u.
Proof.
  intros Hx H. destruct (Rle_lt_dec (ln x) u) as [L|L]; [exact L|].
  apply exp_increasing in L. rewrite exp_ln in L by exact Hx. lra.
Qed.

Lemma ln_ge_of_exp x l : 0 < x -> exp l <= x -> l <= ln x.
Proof.
  intros Hx H. destruct (Rle_lt_dec l (ln x)) as [L|L]; [exact L|].
  apply exp_increasing in L. rewrite exp_ln in L by exact Hx. lra.
Qed.

(** ln (c/d) <= u, certified by an iterated-squaring lower bound of exp u *)
Lemma ln_upper_cert (s : Z) (n : nat) (a c d : Z) (u : R) :
  (0 < s)%Z -> (0 <= a)%Z -> (0 < c)%Z -> (0 < d)%Z ->
  IZR a / IZR s <= 1 + u / 2 ^ n ->
  (c * s <=? sqiter s n a * d)%Z = true ->
  ln (IZR c / IZR d) <= u.
Proof.
  intros Hs Ha Hc Hd H Hz.
  assert (HS : 0 < IZR s) by (apply IZR_lt; exact Hs).
  assert (HC : 0 < IZR c) by (apply IZR_lt; exact Hc).
  assert (HD : 0 < IZR d) by (apply IZR_lt; exact Hd).
  apply ln_le_of_exp; [apply Rdiv_lt_0_compat; assumption|].
  eapply Rle_trans; [|apply (exp_lower_cert n Hs Ha H)].
  apply Z.leb_le in Hz. apply IZR_le in Hz. rewrite !mult_IZR in Hz.
  apply Rmult_le_reg_r with (IZR d * IZR s); [nra|].
  field_simplify; [|lra|lra]. nra.
Qed.

Lemma ln_lower_cert (s : Z) (n : nat) (a c d : Z) (l : R) :
  (0 < s)%Z -> (0 <= a)%Z -> (0 < c)%Z -> (0 < d)%Z ->
  IZR a / IZR s <= 1 - l / 2 ^ n ->
  (0 <? sqiter s n a)%Z && (s * d <=? c * sqiter s n a)%Z = true ->
  l <= ln (IZR c / IZR d).
Proof.
  intros Hs Ha Hc Hd H Hz.
  apply andb_prop in Hz. destruct Hz as [Hp Hz].
  apply Z.ltb_lt in Hp.
  assert (HS : 0 < IZR s) by (apply IZR_lt; exact Hs).
  assert (HC : 0 < IZR c) by (apply IZR_lt; exact Hc).
  assert (HD : 0 < IZR d) by (apply IZR_lt; exact Hd).
  assert (HQ : 0 < IZR (sqiter s n a)) by (apply IZR_lt; exact Hp).
  apply ln_ge_of_exp; [apply Rdiv_lt_0_compat; assumption|].
  eapply Rle_trans; [apply (exp_upper_cert n Hs Ha H Hp)|].
  apply Z.leb_le in Hz. apply IZR_le in Hz. rewrite !mult_IZR in Hz.
  apply Rmult_le_reg_r with (IZR d * IZR (sqiter s n a)); [nra|].
  field_simplify; [|lra|lra]. nra.
Qed.

End RealBounds.

(* ================================================================== *)
(** * The Normal quantile approximation *)
(* ================================================================== *)

Lemma zcrit_den_pos (t : R) : 0 <= t -> 1 <= zcrit_den t.
Proof.
  intro H. unfold zcrit_den.
  assert (0 <= t * t) by nra. assert (0 <= t * t * t) by nra. nra.
Qed.

Lemma getZCritical_fin (conf : R) :
  - 100 <= conf < 100 -> Utils.getZCritical (Fin conf) = Fin (zcrit conf).
Proof.
  intros [Hlo Hhi]. unfold Utils.getZCritical. cbv zeta.
  rewrite ndiv_fin by lra. js_arith. rewrite ndiv_fin by lra. js_arith.
  replace (1 - (1 - (1 - conf / 100) / 2)) with ((1 - conf / 100) / 2) by lra.
  assert (Hx : 0 < (1 - conf / 100) / 2 <= 1) by lra.
  rewrite log_fin by lra. js_arith.
  assert (Hl : ln ((1 - conf / 100) / 2) <= 0).
  { rewrite <- ln_1. destruct Hx as [Hx [Hx1|Hx1]].
    - left. apply ln_increasing; lra.
    - rewrite Hx1. lra. }
  rewrite sqrt_fin by lra. fold (zcrit_t conf).
  assert (Ht : 0 <= zcrit_t conf) by apply sqrt_pos.
  js_arith. fold (zcrit_num (zcrit_t conf)). fold (zcrit_den (zcrit_t conf)).
  pose proof (zcrit_den_pos Ht).
  rewrite ndiv_fin by lra. js_arith. reflexivity.
Qed.

Lemma sqrt_lower (a x : R) : 0 <= a -> a * a <= x -> a <= sqrt x.
Proof.
  intros Ha H. rewrite <- (sqrt_square a Ha).
  apply sqrt_le_1; nra.
Qed.

Lemma sqrt_upper (b x : R) : 0 <= b -> x <= b * b -> sqrt x <= b.
Proof.
  intros Hb H. destruct (Rle_lt_dec 0 x) as [Hx|Hx].
  - rewrite <- (sqrt_square b Hb). apply sqrt_le_1; nra.
  - rewrite sqrt_neg_0 by lra. exact Hb.
Qed.

Lemma Rdiv_le_mono (a a' b b' : R) :
  0 <= a <= a' -> 0 < b' <= b -> a / b <= a' / b'.
Proof.
  intros [Ha Haa] [Hb Hbb].
  apply Rmult_le_reg_r with (b * b'); [nra|].
  replace (a / b * (b * b')) with (a * b') by (field; lra).
  replace (a' / b' * (b * b')) with (a' * b) by (field; lra).
  nra.
Qed.

Lemma zcrit_num_mono (s t : R) : 0 <= s <= t -> 0 <= zcrit_num s <= zcrit_num t.
Proof. intros [H0 H1]. unfold zcrit_num. assert (s * s <= t * t) by nra. nra. Qed.

Lemma zcrit_den_mono (s t : R) : 0 <= s <= t -> zcrit_den s <= zcrit_den t.
Proof.
  intros [H0 H1]. unfold zcrit_den.
  assert (H2 : s * s <= t * t) by nra.
  assert (H3 : s * s * s <= t * t * t).
  { apply Rmult_le_compat; nra. }
  nra.
Qed.

(** Enclosure of the rational correction over an interval of [t]. *)
Lemma zcrit_of_t_bounds (t tl tu : R) :
  0 <= tl -> tl <= t <= tu ->
  tl - zcrit_num tu / zcrit_den tl <= zcrit_of_t t
  <= tu - zcrit_num tl / zcrit_den tu.
Proof.
  intros H0 [Hl Hu]. unfold zcrit_of_t.
  pose proof (@zcrit_den_pos tl H0).
  assert (Ht : 0 <= t) by lra.
  pose proof (@zcrit_den_pos t Ht).
  pose proof (@zcrit_num_mono tl t (conj H0 Hl)).
  pose proof (@zcrit_num_mono t tu (conj Ht Hu)).
  pose proof (@zcrit_den_mono tl t (conj H0 Hl)).
  pose proof (@zcrit_den_mono t tu (conj Ht Hu)).
  assert (A : zcrit_num t / zcrit_den t <= zcrit_num tu / zcrit_den tl).
  { apply Rdiv_le_mono; lra. }
  assert (B : zcrit_num tl / zcrit_den tu <= zcrit_num t / zcrit_den t).
  { apply Rdiv_le_mono; lra. }
  lra.
Qed.

(** ** Enclosures at the confidence levels used below

    For a confidence level c, [ln_c_bounds] encloses the logarithm that
    [getZCritical] takes at c, [zcrit_t_c_bounds] its intermediate [t] and
    [zcrit_c_bounds] the resulting quantile.  The logarithms are certified
    by thirty squarings on fixed-point integers of scale 10^20. *)

Lemma ln_95_bounds :
  -3.6888797 <= ln (IZR 25 / IZR 1000) <= -3.6888792.
Proof.
  split.
  - apply ln_lower_cert with (s := (10 ^ 20)%Z) (n := 30%nat)
      (a := 100000000343553693965%Z); try lia; [lra | vm_compute; reflexivity].
  - apply ln_upper_cert with (s := (10 ^ 20)%Z) (n := 30%nat)
      (a := 99999999656446352601%Z); try lia; [lra | vm_compute; reflexivity].
Qed.

Lemma zcrit_t_95_bounds : 2.7162028 <= zcrit_t 95 <= 2.7162033.
Proof.
  unfold zcrit_t.
  replace ((1 - 95 / 100) / 2) with (IZR 25 / IZR 1000) by lra.
  pose proof ln_95_bounds as [Hl Hu].
  split; [apply sqrt_lower | apply sqrt_upper]; lra.
Qed.

Lemma zcrit_95_bounds : 1.960394 <= zcrit 95 <= 1.960396.
Proof.
  pose proof zcrit_t_95_bounds as [Hl Hu].
  pose proof (@zcrit_of_t_bounds (zcrit_t 95) 2.7162028 2.7162033) as B.
  unfold zcrit. unfold zcrit_num, zcrit_den in B. lra.
Qed.

Lemma ln_60_bounds :
  -1.6094382 <= ln (IZR 1 / IZR 5) <= -1.6094377.
Proof.
  split.
  - apply ln_lower_cert with (s := (10 ^ 20)%Z) (n := 30%nat)
      (a := 100000000149890612810%Z); try lia; [lra | vm_compute; reflexivity].
  - apply ln_upper_cert with (s := (10 ^ 20)%Z) (n := 30%nat)
      (a := 99999999850109433755%Z); try lia; [lra | vm_compute; reflexivity].
Qed.

Lemma zcrit_t_60_bounds : 1.7941223 <= zcrit_t 60 <= 1.7941229.
Proof.
  unfold zcrit_t.
  replace ((1 - 60 / 100) / 2) with (IZR 1 / IZR 5) by lra.
  pose proof ln_60_bounds as [Hl Hu].
  split; [apply sqrt_lower | apply sqrt_upper]; lra.
Qed.

Lemma zcrit_60_bounds : 0.841456 <= zcrit 60 <= 0.841458.
Proof.
  pose proof zcrit_t_60_bounds as [Hl Hu].
  pose proof (@zcrit_of_t_bounds (zcrit_t 60) 1.7941223 1.7941229) as B.
  unfold zcrit. unfold zcrit_num, zcrit_den in B. lra.
Qed.

Lemma ln_97_5_bounds :
  -4.3820269 <= ln (IZR 1 / IZR 80) <= -4.3820264.
Proof.
  split.
  - apply ln_lower_cert with (s := (10 ^ 20)%Z) (n := 30%nat)
      (a := 100000000408108057454%Z); try lia; [lra | vm_compute; reflexivity].
  - apply ln_upper_cert with (s := (10 ^ 20)%Z) (n := 30%nat)
      (a := 99999999591891989111%Z); try lia; [lra | vm_compute; reflexivity].
Qed.

Lemma zcrit_t_97_5_bounds : 2.9604141 <= zcrit_t 97.5 <= 2.9604146.
Proof.
  unfold zcrit_t.
  replace ((1 - 97.5 / 100) / 2) with (IZR 1 / IZR 80) by lra.
  pose proof ln_97_5_bounds as [Hl Hu].
  split; [apply sqrt_lower | apply sqrt_upper]; lra.
Qed.

Lemma zcrit_97_5_bounds : 2.241844 <= zcrit 97.5 <= 2.241846.
Proof.
  pose proof zcrit_t_97_5_bounds as [Hl Hu].
  pose proof (@zcrit_of_t_bounds (zcrit_t 97.5) 2.9604141 2.9604146) as B.
  unfold zcrit. unfold zcrit_num, zcrit_den in B. lra.
Qed.

Lemma ln_2_5_bounds :
  -0.7184652 <= ln (IZR 39 / IZR 80) <= -0.7184647.
Proof.
  split.
  - apply ln_lower_cert with (s := (10 ^ 20)%Z) (n := 30%nat)
      (a := 100000000066912285983%Z); try lia; [lra | vm_compute; reflexivity].
  - apply ln_upper_cert with (s := (10 ^ 20)%Z) (n := 30%nat)
      (a := 99999999933087760582%Z); try lia; [lra | vm_compute; reflexivity].
Qed.

Lemma zcrit_t_2_5_bounds : 1.1987198 <= zcrit_t 2.5 <= 1.1987205.
Proof.
  unfold zcrit_t.
  replace ((1 - 2.5 / 100) / 2) with (IZR 39 / IZR 80) by lra.
  pose proof ln_2_5_bounds as [Hl Hu].
  split; [apply sqrt_lower | apply sqrt_upper]; lra.
Qed.

Lemma zcrit_2_5_bounds : 0.031250 <= zcrit 2.5 <= 0.031252.
Proof.
  pose proof zcrit_t_2_5_bounds as [Hl Hu].
  pose proof (@zcrit_of_t_bounds (zcrit_t 2.5) 1.1987198 1.1987205) as B.
  unfold zcrit. unfold zcrit_num, zcrit_den in B. lra.
Qed.

Lemma ln_50_bounds :
  -1.3862946 <= ln (IZR 1 / IZR 4) <= -1.3862941.
Proof.
  split.
  - apply ln_lower_cert with (s := (10 ^ 20)%Z) (n := 30%nat)
      (a := 100000000129108745604%Z); try lia; [lra | vm_compute; reflexivity].
  - apply ln_upper_cert with (s := (10 ^ 20)%Z) (n := 30%nat)
      (a := 99999999870891300961%Z); try lia; [lra | vm_compute; reflexivity].
Qed.

Lemma zcrit_t_50_bounds : 1.6651089 <= zcrit_t 50 <= 1.6651095.
Proof.
  unfold zcrit_t.
  replace ((1 - 50 / 100) / 2) with (IZR 1 / IZR 4) by lra.
  pose proof ln_50_bounds as [Hl Hu].
  split; [apply sqrt_lower | apply sqrt_upper]; lra.
Qed.

Lemma zcrit_50_bounds : 0.674188 <= zcrit 50 <= 0.674190.
Proof.
  pose proof zcrit_t_50_bounds as [Hl Hu].
  pose proof (@zcrit_of_t_bounds (zcrit_t 50) 1.6651089 1.6651095) as B.
  unfold zcrit. unfold zcrit_num, zcrit_den in B. lra.
Qed.

Lemma ln_0_bounds :
  -0.6931474 <= ln (IZR 1 / IZR 2) <= -0.6931469.
Proof.
  split.
  - apply ln_lower_cert with (s := (10 ^ 20)%Z) (n := 30%nat)
      (a := 100000000064554382115%Z); try lia; [lra | vm_compute; reflexivity].
  - apply ln_upper_cert with (s := (10 ^ 20)%Z) (n := 30%nat)
      (a := 99999999935445664450%Z); try lia; [lra | vm_compute; reflexivity].
Qed.

Lemma zcrit_t_0_bounds : 1.1774096 <= zcrit_t 0 <= 1.1774104.
Proof.
  unfold zcrit_t.
  replace ((1 - 0 / 100) / 2) with (IZR 1 / IZR 2) by lra.
  pose proof ln_0_bounds as [Hl Hu].
  split; [apply sqrt_lower | apply sqrt_upper]; lra.
Qed.

Lemma zcrit_0_bounds : -0.000001 <= zcrit 0 <= 0.000001.
Proof.
  pose proof zcrit_t_0_bounds as [Hl Hu].
  pose proof (@zcrit_of_t_bounds (zcrit_t 0) 1.1774096 1.1774104) as B.
  unfold zcrit. unfold zcrit_num, zcrit_den in B. lra.
Qed.

(* ================================================================== *)
(** * Chi-square quantile and the Poisson rate interval *)
(* ================================================================== *)

Lemma getChiSqCritical_fin (p df : R) :
  0 < df -> 0 < p <= 2 ->
  Utils.getChiSqCritical (Fin p) (Fin df) = Fin (chisq_crit p df).
Proof.
  intros Hdf Hp. unfold Utils.getChiSqCritical. cbv zeta.
  rewrite nle_fin_false by exact Hdf. js_arith.
  rewrite getZCritical_fin by lra. js_arith.
  rewrite !ndiv_fin by lra.
  assert (0 <= 2 / (9 * df)).
  { apply Rmult_le_pos; [lra|]. left. apply Rinv_0_lt_compat. lra. }
  rewrite sqrt_fin by assumption. js_arith.
  rewrite pow_fin_3. js_arith. reflexivity.
Qed.

Lemma cube_le (x y : R) : 0 <= x <= y -> x * x * x <= y * y * y.
Proof. intros [H0 H1]. assert (x * x <= y * y) by nra. apply Rmult_le_compat; nra. Qed.

Lemma cube_neg (x : R) : x < 0 -> x * x * x < 0.
Proof. intro H. assert (0 < x * x) by nra. nra. Qed.

Lemma byar_bounds_fin (k T conf : R) :
  0 <= k -> T <> 0 -> - 100 <= conf < 100 ->
  CiRatePoisson.byarLower (CiRatePoisson.compute (Fin k) (Fin T) (Fin conf))
  = Fin (byar_bound (-1) (zcrit conf) k T)
  /\ CiRatePoisson.byarUpper
       (CiRatePoisson.compute (Fin k) (Fin T) (Fin conf))
     = Fin (byar_bound 1 (zcrit conf) k T).
Proof.
  intros Hk HT Hc. unfold CiRatePoisson.compute. cbv zeta.
  cbn [CiRatePoisson.byarLower CiRatePoisson.byarUpper].
  rewrite getZCritical_fin by exact Hc. js_arith.
  rewrite !(@ndiv_fin _ 3) by lra.
  rewrite !(@ndiv_fin 1 (k + 0.5)) by lra.
  assert (0 <= 1 / (k + 0.5)).
  { apply Rmult_le_pos; [lra|]. left. apply Rinv_0_lt_compat. lra. }
  rewrite sqrt_fin by assumption. js_arith.
  rewrite !(@ndiv_fin 1 (9 * (k + 0.5))) by lra. js_arith.
  rewrite !pow_fin_3. js_arith. rewrite !ndiv_fin by exact HT.
  unfold byar_bound, byar_inner. split; f_equal; f_equal; f_equal; ring.
Qed.

Lemma poisson_rate_fin (k T conf : R) :
  T <> 0 ->
  CiRatePoisson.rate (CiRatePoisson.compute (Fin k) (Fin T) (Fin conf))
  = Fin (k / T).
Proof.
  intro HT. unfold CiRatePoisson.compute. cbv zeta. cbn [CiRatePoisson.rate].
  apply ndiv_fin. exact HT.
Qed.

Lemma poisson_exact_zero (T conf : num) :
  CiRatePoisson.exactLower (CiRatePoisson.compute (Fin 0) T conf) = Fin 0.
Proof.
  unfold CiRatePoisson.compute. cbv zeta. cbn [CiRatePoisson.exactLower].
  rewrite neq_fin_true by reflexivity. reflexivity.
Qed.

Lemma poisson_exact_fin (k T conf : R) :
  0 < k -> 0 < T -> 0 <= conf < 100 ->
  CiRatePoisson.exactLower (CiRatePoisson.compute (Fin k) (Fin T) (Fin conf))
  = Fin (chisq_crit ((1 - conf / 100) / 2) (2 * k) / (2 * T))
  /\ CiRatePoisson.exactUpper
       (CiRatePoisson.compute (Fin k) (Fin T) (Fin conf))
     = Fin (chisq_crit (1 - (1 - conf / 100) / 2) (2 * (k + 1)) / (2 * T)).
Proof.
  intros Hk HT Hc. unfold CiRatePoisson.compute. cbv zeta.
  cbn [CiRatePoisson.exactLower CiRatePoisson.exactUpper].
  rewrite neq_fin_false by lra.
  rewrite (@ndiv_fin conf 100) by lra. js_arith.
  rewrite (@ndiv_fin _ 2) by lra. js_arith.
  rewrite !getChiSqCritical_fin by lra.
  rewrite !ndiv_fin by lra. split; reflexivity.
Qed.

Lemma sqrt2_bounds : 1.41421 <= sqrt 2 <= 1.41422.
Proof. split; [apply sqrt_lower | apply sqrt_upper]; lra. Qed.

(** C10. For k = 0 events and every person-time T > 0 at 95% confidence,
    the lower bound of Byar's interval is finite and strictly negative
    (it is not truncated at zero), while the exact lower bound is 0. *)
Theorem byar_lower_negative_at_zero_events (T : R) :
  0 < T ->
  exists r : R,
    CiRatePoisson.byarLower (CiRatePoisson.compute (Fin 0) (Fin T) (Fin 95))
    = Fin r
    /\ r < 0
    /\ CiRatePoisson.exactLower
         (CiRatePoisson.compute (Fin 0) (Fin T) (Fin 95)) = Fin 0.
Proof.
  intro HT.
  destruct (@byar_bounds_fin 0 T 95) as [HL _]; [lra|lra|lra|].
  exists (byar_bound (-1) (zcrit 95) 0 T).
  split; [exact HL|]. split; [|apply poisson_exact_zero].
  unfold byar_bound, byar_inner.
  pose proof zcrit_95_bounds as [Zl Zu].
  pose proof sqrt2_bounds as [Sl Su].
  replace (1 / (0 + 0.5)) with 2 by lra.
  set (s := sqrt 2) in *. set (z := zcrit 95) in *.
  assert (I : 1 - 1 / (9 * (0 + 0.5)) + -1 * (z / 3 * s) < 0) by nra.
  apply cube_neg in I.
  set (i := 1 - 1 / (9 * (0 + 0.5)) + -1 * (z / 3 * s)) in *.
  assert (Q : (0 + 0.5) * (i * i * i) < 0) by nra.
  assert (IT : 0 < / T) by (apply Rinv_0_lt_compat; exact HT).
  unfold Rdiv. nra.
Qed.

Lemma byar_lower_negative_at_zero_events_witness :
  0 < 1 /\
  exists r : R,
    CiRatePoisson.byarLower (CiRatePoisson.compute (Fin 0) (Fin 1) (Fin 95))
    = Fin r
    /\ r < 0
    /\ CiRatePoisson.exactLower
         (CiRatePoisson.compute (Fin 0) (Fin 1) (Fin 95)) = Fin 0.
Proof.
  split; [lra | apply (@byar_lower_negative_at_zero_events 1); lra].
Defined.

(** Enclosure of the exact bounds at k = 5, T = 1000, 95% confidence. *)
Lemma poisson_exact_5_1000 :
  exists l u : R,
    CiRatePoisson.exactLower
      (CiRatePoisson.compute (Fin 5) (Fin 1000) (Fin 95)) = Fin l
    /\ CiRatePoisson.exactUpper
         (CiRatePoisson.compute (Fin 5) (Fin 1000) (Fin 95)) = Fin u
    /\ 0.01129 < l < 0.0113 /\ 0.00574 < u < 0.00575.
Proof.
  destruct (@poisson_exact_fin 5 1000 95) as [HL HU]; [lra|lra|lra|].
  eexists; eexists. split; [exact HL|]. split; [exact HU|].
  unfold chisq_crit, chisq_inner. cbv zeta.
  replace ((1 - (1 - 95 / 100) / 2) * 100) with 97.5 by lra.
  replace ((1 - (1 - (1 - 95 / 100) / 2)) * 100) with 2.5 by lra.
  pose proof zcrit_97_5_bounds as [Al Au].
  pose proof zcrit_2_5_bounds as [Bl Bu].
  set (za := zcrit 97.5) in *. set (zb := zcrit 2.5) in *.
  assert (Sa : 0.14907 <= sqrt (2 / (9 * (2 * 5))) <= 0.14908).
  { split; [apply sqrt_lower | apply sqrt_upper]; lra. }
  assert (Sb : 0.13608 <= sqrt (2 / (9 * (2 * (5 + 1)))) <= 0.13609).
  { split; [apply sqrt_lower | apply sqrt_upper]; lra. }
  set (sa := sqrt (2 / (9 * (2 * 5)))) in *.
  set (sb := sqrt (2 / (9 * (2 * (5 + 1))))) in *.
  assert (Ia : 1.31196 <= 1 - 2 / (9 * (2 * 5)) + za * sa <= 1.312) by nra.
  assert (Ib : 0.98573 <= 1 - 2 / (9 * (2 * (5 + 1))) + zb * sb <= 0.98574)
    by nra.
  set (ia := 1 - 2 / (9 * (2 * 5)) + za * sa) in *.
  set (ib := 1 - 2 / (9 * (2 * (5 + 1))) + zb * sb) in *.
  assert (Ca1 : 1.31196 * 1.31196 * 1.31196 <= ia * ia * ia)
    by (apply cube_le; lra).
  assert (Ca2 : ia * ia * ia <= 1.312 * 1.312 * 1.312)
    by (apply cube_le; lra).
  assert (Cb1 : 0.98573 * 0.98573 * 0.98573 <= ib * ib * ib)
    by (apply cube_le; lra).
  assert (Cb2 : ib * ib * ib <= 0.98574 * 0.98574 * 0.98574)
    by (apply cube_le; lra).
  lra.
Qed.

(** C2 (evaluation at the scenario).  For k = 5 events over T = 1000 at
    95% confidence the observed rate is 0.005, but the "exact" bounds the
    code computes are about 0.01129 (lower) and 0.00575 (upper): neither
    is within 1e-3 of the exact Poisson bounds 0.00162 and 0.01167. *)
Theorem poisson_scenario_B_values :
  CiRatePoisson.rate (CiRatePoisson.compute (Fin 5) (Fin 1000) (Fin 95))
  = Fin 0.005
  /\ exists l u : R,
       CiRatePoisson.exactLower
         (CiRatePoisson.compute (Fin 5) (Fin 1000) (Fin 95)) = Fin l
       /\ CiRatePoisson.exactUpper
            (CiRatePoisson.compute (Fin 5) (Fin 1000) (Fin 95)) = Fin u
       /\ 0.01129 < l < 0.0113 /\ 0.00574 < u < 0.00575
       /\ Rabs (l - 0.00162) > 0.001 /\ Rabs (u - 0.01167) > 0.001.
Proof.
  split.
  - replace 0.005 with (5 / 1000) by lra. apply poisson_rate_fin. lra.
  - destruct poisson_exact_5_1000 as (l & u & HL & HU & Bl & Bu).
    exists l, u.
    assert (Rl : Rabs (l - 0.00162) > 0.001) by (rewrite Rabs_right; lra).
    assert (Ru : Rabs (u - 0.01167) > 0.001) by (rewrite Rabs_left; lra).
    tauto.
Qed.

(** C3 (evaluation at a failing input).  The exact Poisson interval for
    k = 5, T = 1000 at 95% has three finite components, yet its lower
    bound exceeds both the point estimate and the upper bound. *)
Theorem poisson_exact_interval_not_ordered :
  exists v l u : R,
    CiRatePoisson.rate
      (CiRatePoisson.compute (Fin 5) (Fin 1000) (Fin 95)) = Fin v
    /\ CiRatePoisson.exactLower
         (CiRatePoisson.compute (Fin 5) (Fin 1000) (Fin 95)) = Fin l
    /\ CiRatePoisson.exactUpper
         (CiRatePoisson.compute (Fin 5) (Fin 1000) (Fin 95)) = Fin u
    /\ v < l /\ u < l /\ ~ (l <= v <= u).
Proof.
  destruct poisson_exact_5_1000 as (l & u & HL & HU & Bl & Bu).
  exists (5 / 1000), l, u. split; [apply poisson_rate_fin; lra|].
  repeat split; try assumption; lra.
Qed.

(* ================================================================== *)
(** * Sample size for two proportions *)
(* ================================================================== *)

(** The real number whose ceiling is [n1] in scenario C. *)
Lemma two_props_scenario_C_n1 :
  exists v : R,
    SampleSizeTwoProps.n1
      (SampleSizeTwoProps.compute (Fin 0.3) (Fin 0.5) (Fin 0.8) (Fin 0.05)
         (Fin 1))
    = Fin (IZR (ceilZ v))
    /\ 93.01 < v < 93.02.
Proof.
  unfold SampleSizeTwoProps.compute. cbv zeta. cbn [SampleSizeTwoProps.n1].
  js_arith.
  replace ((1 - 0.05) * 100) with 95 by lra.
  replace ((0.8 * 2 - 1) * 100) with 60 by lra.
  rewrite !getZCritical_fin by lra.
  rewrite !ndiv_fin by lra. js_arith.
  replace ((1 + 1 / 1) * ((0.3 + 1 * 0.5) / (1 + 1))
           * (1 - (0.3 + 1 * 0.5) / (1 + 1))) with 0.48 by lra.
  replace (0.3 * (1 - 0.3) + 0.5 * (1 - 0.5) / 1) with 0.46 by lra.
  rewrite !sqrt_fin by lra. js_arith. rewrite !pow_fin_2.
  rewrite ndiv_fin by lra. cbn [Math_ceil].
  eexists. split; [reflexivity|].
  pose proof zcrit_95_bounds as [Al Au].
  pose proof zcrit_60_bounds as [Bl Bu].
  assert (Sa : 0.692820 <= sqrt 0.48 <= 0.692821).
  { split; [apply sqrt_lower | apply sqrt_upper]; lra. }
  assert (Sb : 0.678232 <= sqrt 0.46 <= 0.678234).
  { split; [apply sqrt_lower | apply sqrt_upper]; lra. }
  set (za := zcrit 95) in *. set (zb := zcrit 60) in *.
  set (sa := sqrt 0.48) in *. set (sb := sqrt 0.46) in *.
  assert (W : 1.928902 <= za * sa + zb * sb <= 1.92891) by nra.
  set (w := za * sa + zb * sb) in *.
  assert (W2 : 1.928902 * 1.928902 <= w * w <= 1.92891 * 1.92891) by nra.
  lra.
Qed.

Lemma two_props_scenario_C_sizes :
  SampleSizeTwoProps.n1
    (SampleSizeTwoProps.compute (Fin 0.3) (Fin 0.5) (Fin 0.8) (Fin 0.05)
       (Fin 1)) = Fin 94
  /\ SampleSizeTwoProps.n2
       (SampleSizeTwoProps.compute (Fin 0.3) (Fin 0.5) (Fin 0.8) (Fin 0.05)
          (Fin 1)) = Fin 94.
Proof.
  destruct two_props_scenario_C_n1 as (v & Hn & Hv).
  assert (Hc : ceilZ v = 94%Z) by (apply ceilZ_unique; lra).
  rewrite Hc in Hn. split; [exact Hn|].
  change (SampleSizeTwoProps.n2
            (SampleSizeTwoProps.compute (Fin 0.3) (Fin 0.5) (Fin 0.8)
               (Fin 0.05) (Fin 1)))
    with (Math_ceil
            (nmul (SampleSizeTwoProps.n1
                     (SampleSizeTwoProps.compute (Fin 0.3) (Fin 0.5)
                        (Fin 0.8) (Fin 0.05) (Fin 1))) (Fin 1))).
  rewrite Hn. js_arith. cbn [Math_ceil]. do 2 f_equal.
  apply ceilZ_unique. lra.
Qed.

(** C6 (as stated) fails: the solver does not return 93 for p1 = 0.3,
    p2 = 0.5, power = 0.8, alpha = 0.05, ratio = 1. *)
Lemma two_props_scenario_C_not_93 :
  ~ (SampleSizeTwoProps.n1
       (SampleSizeTwoProps.compute (Fin 0.3) (Fin 0.5) (Fin 0.8) (Fin 0.05)
          (Fin 1)) = Fin 93
     /\ SampleSizeTwoProps.n2
          (SampleSizeTwoProps.compute (Fin 0.3) (Fin 0.5) (Fin 0.8)
             (Fin 0.05) (Fin 1)) = Fin 93).
Proof.
  destruct two_props_scenario_C_sizes as [H1 _]. intros [H _].
  rewrite H1 in H. injection H as H. lra.
Qed.

(** C6 (amended).  For p1 = 0.3, p2 = 0.5, power = 0.8, alpha = 0.05 and
    ratio = 1 the closed form evaluates, with the code's approximate
    Normal quantiles, to a value between 93.01 and 93.02, so its ceiling
    gives n1 = n2 = 94. *)
Theorem two_props_returns_94 :
  SampleSizeTwoProps.n1
    (SampleSizeTwoProps.compute (Fin 0.3) (Fin 0.5) (Fin 0.8) (Fin 0.05)
       (Fin 1)) = Fin 94
  /\ SampleSizeTwoProps.n2
       (SampleSizeTwoProps.compute (Fin 0.3) (Fin 0.5) (Fin 0.8) (Fin 0.05)
          (Fin 1)) = Fin 94
  /\ exists v : R,
       SampleSizeTwoProps.n1
         (SampleSizeTwoProps.compute (Fin 0.3) (Fin 0.5) (Fin 0.8)
            (Fin 0.05) (Fin 1)) = Fin (IZR (ceilZ v))
       /\ 93.01 < v < 93.02.
Proof.
  destruct two_props_scenario_C_sizes as [H1 H2].
  split; [exact H1|]. split; [exact H2|]. exact two_props_scenario_C_n1.
Qed.

(* ================================================================== *)
(** * Chi-square statistic of a 2x2 table *)
(* ================================================================== *)

Lemma max_fin (x y : R) : Math_max (Fin x) (Fin y) = Fin (Rmax x y).
Proof.
  unfold Math_max, nlt, Rmax.
  destruct (Rlt_dec x y) as [H|H]; destruct (Rle_dec x y) as [L|L];
    try reflexivity; try lra.
  f_equal. lra.
Qed.

Lemma min_fin (x y : R) : Math_min (Fin x) (Fin y) = Fin (Rmin x y).
Proof.
  unfold Math_min, nlt, Rmin.
  destruct (Rlt_dec y x) as [H|H]; destruct (Rle_dec x y) as [L|L];
    try reflexivity; lra.
Qed.

Lemma chi_square_fin (a b c d : R) (yates : bool) :
  a + b <> 0 -> c + d <> 0 -> a + c <> 0 -> b + d <> 0 ->
  exists res,
    ChiSquare.compute (Fin a) (Fin b) (Fin c) (Fin d) yates = Some res
    /\ ChiSquare.chi2 res = Fin (chi2_real a b c d yates).
Proof.
  intros H1 H2 H3 H4. unfold ChiSquare.compute. cbv zeta. js_arith.
  rewrite !neq_fin_false by assumption. cbn [orb].
  eexists. split; [reflexivity|]. cbn [ChiSquare.chi2].
  assert (D : (a + b) * (c + d) * (a + c) * (b + d) <> 0).
  { repeat apply Rmult_integral_contrapositive_currified; assumption. }
  unfold chi2_real. cbv zeta. destruct yates.
  - rewrite ndiv_fin by lra. js_arith. rewrite max_fin, pow_fin_2. js_arith.
    rewrite ndiv_fin by exact D. reflexivity.
  - rewrite pow_fin_2. js_arith. rewrite ndiv_fin by exact D. reflexivity.
Qed.

(** C9 (as stated) fails: on the table 1,1,1,1 with Yates' correction the
    code returns 0, the formula of the specification 1. *)
Lemma chi_square_yates_clipped_counterexample :
  exists res,
    ChiSquare.compute (Fin 1) (Fin 1) (Fin 1) (Fin 1) true = Some res
    /\ ChiSquare.chi2 res = Fin 0
    /\ chi2_spec 1 1 1 1 true = 1
    /\ ChiSquare.chi2 res <> Fin (chi2_spec 1 1 1 1 true).
Proof.
  destruct (@chi_square_fin 1 1 1 1 true) as (res & Hres & Hchi);
    try lra.
  exists res. split; [exact Hres|].
  assert (V : chi2_real 1 1 1 1 true = 0).
  { unfold chi2_real. cbv zeta.
    replace (1 * 1 - 1 * 1) with 0 by ring. rewrite Rabs_R0.
    rewrite Rmax_left by lra. lra. }
  assert (S : chi2_spec 1 1 1 1 true = 1).
  { unfold chi2_spec. cbv zeta.
    replace (1 * 1 - 1 * 1) with 0 by ring. rewrite Rabs_R0. lra. }
  rewrite Hchi, V, S. repeat split; try reflexivity.
  intro E. injection E as E. lra.
Qed.

(** C9 (amended).  For every 2x2 table whose four marginal totals are
    positive the statistic is n x^2 / (R1 R2 C1 C2), where x = |ad - bc|
    without Yates' correction and x = max(0, |ad - bc| - n/2) with it.
    It agrees with the formula n (|ad - bc| - c)^2 / (R1 R2 C1 C2) of the
    specification without the correction and whenever |ad - bc| >= n/2,
    and it is 0 when the correction is requested and |ad - bc| < n/2. *)
Theorem chi_square_statistic (a b c d : R) (yates : bool) :
  0 < a + b -> 0 < c + d -> 0 < a + c -> 0 < b + d ->
  exists res,
    ChiSquare.compute (Fin a) (Fin b) (Fin c) (Fin d) yates = Some res
    /\ ChiSquare.chi2 res = Fin (chi2_real a b c d yates)
    /\ (yates = false \/ (a + b + c + d) / 2 <= Rabs (a * d - b * c) ->
        chi2_real a b c d yates = chi2_spec a b c d yates)
    /\ (yates = true -> Rabs (a * d - b * c) < (a + b + c + d) / 2 ->
        chi2_real a b c d yates = 0).
Proof.
  intros H1 H2 H3 H4.
  destruct (@chi_square_fin a b c d yates) as (res & Hres & Hchi);
    try lra.
  exists res. split; [exact Hres|]. split; [exact Hchi|].
  unfold chi2_real, chi2_spec. cbv zeta. split.
  - intros [Hy|Hy].
    + subst yates. rewrite Rminus_0_r. reflexivity.
    + destruct yates; [|rewrite Rminus_0_r; reflexivity].
      rewrite Rmax_right by lra. reflexivity.
  - intros Hy Hlt. subst yates. rewrite Rmax_left by lra.
    unfold Rdiv. ring.
Qed.

Lemma chi_square_statistic_witness :
  0 < 10 + 20 /\ 0 < 30 + 40 /\ 0 < 10 + 30 /\ 0 < 20 + 40 /\
  exists res,
    ChiSquare.compute (Fin 10) (Fin 20) (Fin 30) (Fin 40) true = Some res
    /\ ChiSquare.chi2 res = Fin (chi2_real 10 20 30 40 true)
    /\ (true = false \/ (10 + 20 + 30 + 40) / 2 <= Rabs (10 * 40 - 20 * 30) ->
        chi2_real 10 20 30 40 true = chi2_spec 10 20 30 40 true)
    /\ (true = true -> Rabs (10 * 40 - 20 * 30) < (10 + 20 + 30 + 40) / 2 ->
        chi2_real 10 20 30 40 true = 0).
Proof.
  repeat (split; [lra|]).
  apply (@chi_square_statistic 10 20 30 40 true); lra.
Defined.

(* ================================================================== *)
(** * Continuity correction and the effect measures *)
(* ================================================================== *)

Lemma correction_with_zero (a b c d : R) :
  a = 0 \/ b = 0 \/ c = 0 \/ d = 0 ->
  EpiUtils.applyContinuityCorrection
    (EpiUtils.mkTable (Fin a) (Fin b) (Fin c) (Fin d))
  = EpiUtils.mkTable (Fin (a + 0.5)) (Fin (b + 0.5)) (Fin (c + 0.5))
      (Fin (d + 0.5)).
Proof.
  intro H. unfold EpiUtils.applyContinuityCorrection. cbv zeta.
  cbn [EpiUtils.a EpiUtils.b EpiUtils.c EpiUtils.d].
  assert (E : (neq (Fin a) (Fin 0) || neq (Fin b) (Fin 0)
               || neq (Fin c) (Fin 0) || neq (Fin d) (Fin 0))%bool = true).
  { destruct H as [H|[H|[H|H]]]; rewrite (neq_fin_true H);
      rewrite ?orb_true_r; reflexivity. }
  rewrite E. reflexivity.
Qed.

Lemma correction_without_zero (a b c d : R) :
  a <> 0 -> b <> 0 -> c <> 0 -> d <> 0 ->
  EpiUtils.applyContinuityCorrection
    (EpiUtils.mkTable (Fin a) (Fin b) (Fin c) (Fin d))
  = EpiUtils.mkTable (Fin a) (Fin b) (Fin c) (Fin d).
Proof.
  intros Ha Hb Hc Hd. unfold EpiUtils.applyContinuityCorrection. cbv zeta.
  cbn [EpiUtils.a EpiUtils.b EpiUtils.c EpiUtils.d].
  rewrite !neq_fin_false by assumption. reflexivity.
Qed.

Lemma Rinv_le_swap (x y : R) : 0 < x <= y -> 1 / y <= 1 / x.
Proof.
  intros [H0 H1]. unfold Rdiv. rewrite !Rmult_1_l.
  apply Rinv_le_contravar; assumption.
Qed.

(** [computeRR] and [computeOR] on an already corrected (all cells
    positive) table. *)
Lemma rr_on_positive (t : EpiUtils.Table2x2) (a b c d conf : R) :
  EpiUtils.applyContinuityCorrection t
  = EpiUtils.mkTable (Fin a) (Fin b) (Fin c) (Fin d) ->
  0 < a -> 0 < b -> 0 < c -> 0 < d -> - 100 <= conf < 100 ->
  EpiUtils.computeRR t (Fin conf)
  = EpiUtils.mkEstimate (Fin (rr_real a b c d))
      (Fin (exp (ln (rr_real a b c d) - zcrit conf * rr_se a b c d)))
      (Fin (exp (ln (rr_real a b c d) + zcrit conf * rr_se a b c d))).
Proof.
  intros Ht Ha Hb Hc Hd Hconf. unfold EpiUtils.computeRR. cbv zeta.
  rewrite Ht. cbn [EpiUtils.a EpiUtils.b EpiUtils.c EpiUtils.d]. js_arith.
  rewrite getZCritical_fin by exact Hconf.
  rewrite !(@ndiv_fin _ (a + b)) by lra.
  rewrite !(@ndiv_fin _ (c + d)) by lra.
  rewrite !(@ndiv_fin 1 a) by lra. rewrite !(@ndiv_fin 1 c) by lra.
  assert (Rc : 0 < c / (c + d)) by (apply Rdiv_lt_0_compat; lra).
  assert (Ra : 0 < a / (a + b)) by (apply Rdiv_lt_0_compat; lra).
  rewrite !ndiv_fin by lra. fold (rr_real a b c d).
  assert (Rr : 0 < rr_real a b c d) by (apply Rdiv_lt_0_compat; assumption).
  js_arith.
  assert (S1 : 1 / (a + b) <= 1 / a) by (apply Rinv_le_swap; lra).
  assert (S2 : 1 / (c + d) <= 1 / c) by (apply Rinv_le_swap; lra).
  rewrite sqrt_fin by lra. fold (rr_se a b c d).
  rewrite log_fin by exact Rr. js_arith. reflexivity.
Qed.

Lemma or_on_positive (t : EpiUtils.Table2x2) (a b c d conf : R) :
  EpiUtils.applyContinuityCorrection t
  = EpiUtils.mkTable (Fin a) (Fin b) (Fin c) (Fin d) ->
  0 < a -> 0 < b -> 0 < c -> 0 < d -> - 100 <= conf < 100 ->
  EpiUtils.computeOR t (Fin conf)
  = EpiUtils.mkEstimate (Fin (or_real a b c d))
      (Fin (exp (ln (or_real a b c d) - zcrit conf * or_se a b c d)))
      (Fin (exp (ln (or_real a b c d) + zcrit conf * or_se a b c d))).
Proof.
  intros Ht Ha Hb Hc Hd Hconf. unfold EpiUtils.computeOR. cbv zeta.
  rewrite Ht. cbn [EpiUtils.a EpiUtils.b EpiUtils.c EpiUtils.d]. js_arith.
  rewrite getZCritical_fin by exact Hconf.
  assert (Pbc : 0 < b * c) by (apply Rmult_lt_0_compat; assumption).
  assert (Pad : 0 < a * d) by (apply Rmult_lt_0_compat; assumption).
  rewrite !(@ndiv_fin (a * d)) by lra. fold (or_real a b c d).
  assert (Ro : 0 < or_real a b c d) by (apply Rdiv_lt_0_compat; assumption).
  rewrite !(@ndiv_fin 1) by lra. js_arith.
  assert (0 < 1 / a) by (apply Rdiv_lt_0_compat; lra).
  assert (0 < 1 / b) by (apply Rdiv_lt_0_compat; lra).
  assert (0 < 1 / c) by (apply Rdiv_lt_0_compat; lra).
  assert (0 < 1 / d) by (apply Rdiv_lt_0_compat; lra).
  rewrite sqrt_fin by lra. fold (or_se a b c d).
  rewrite log_fin by exact Ro. js_arith. reflexivity.
Qed.

Lemma risk_in_unit (x y : R) : 0 <= x -> 0 <= y -> 0 < x + y ->
  0 <= x / (x + y) * (1 - x / (x + y)) / (x + y).
Proof.
  intros Hx Hy Hs.
  assert (I : 0 < / (x + y)) by (apply Rinv_0_lt_compat; exact Hs).
  assert (R0 : 0 <= x / (x + y)).
  { unfold Rdiv. apply Rmult_le_pos; lra. }
  assert (R1 : x / (x + y) <= 1).
  { apply Rmult_le_reg_r with (x + y); [exact Hs|].
    unfold Rdiv. rewrite Rmult_assoc, Rinv_l by lra. lra. }
  unfold Rdiv at 1. apply Rmult_le_pos; [|lra].
  apply Rmult_le_pos; lra.
Qed.

Lemma rd_on_raw (a b c d conf : R) :
  0 <= a -> 0 <= b -> 0 <= c -> 0 <= d -> 0 < a + b -> 0 < c + d ->
  - 100 <= conf < 100 ->
  let r := EpiUtils.computeRD
             (EpiUtils.mkTable (Fin a) (Fin b) (Fin c) (Fin d)) (Fin conf) in
  EpiUtils.rd_value r = Fin (rd_real a b c d)
  /\ EpiUtils.rd_lower r
     = Fin (rd_real a b c d - zcrit conf * rd_se a b c d)
  /\ EpiUtils.rd_upper r
     = Fin (rd_real a b c d + zcrit conf * rd_se a b c d).
Proof.
  intros Ha Hb Hc Hd Hab Hcd Hconf. cbv zeta.
  unfold EpiUtils.computeRD. cbv zeta.
  cbn [EpiUtils.a EpiUtils.b EpiUtils.c EpiUtils.d EpiUtils.rd_value
       EpiUtils.rd_lower EpiUtils.rd_upper]. js_arith.
  rewrite getZCritical_fin by exact Hconf.
  rewrite !(@ndiv_fin a (a + b)) by lra.
  rewrite !(@ndiv_fin c (c + d)) by lra. js_arith.
  rewrite !ndiv_fin by lra. js_arith.
  pose proof (@risk_in_unit a b Ha Hb Hab).
  pose proof (@risk_in_unit c d Hc Hd Hcd).
  rewrite sqrt_fin by lra. fold (rd_se a b c d). fold (rd_real a b c d).
  js_arith. repeat split; reflexivity.
Qed.

(** C4 (as stated) fails: on the table 0, 10, 5, 5 the point estimate of
    [computeRR] is 1/11, computed from the corrected table, whereas the
    uncorrected table gives 0. *)
Lemma rr_point_estimate_is_corrected :
  let t := EpiUtils.mkTable (Fin 0) (Fin 10) (Fin 5) (Fin 5) in
  EpiUtils.value (EpiUtils.computeRR t (Fin 95)) = Fin (1 / 11)
  /\ rr_uncorrected t = Fin 0
  /\ EpiUtils.value (EpiUtils.computeRR t (Fin 95)) <> rr_uncorrected t.
Proof.
  cbv zeta.
  rewrite (@rr_on_positive _ (0 + 0.5) (10 + 0.5) (5 + 0.5) (5 + 0.5) 95);
    try lra; [|apply correction_with_zero; left; reflexivity].
  cbn [EpiUtils.value].
  assert (V : rr_real (0 + 0.5) (10 + 0.5) (5 + 0.5) (5 + 0.5) = 1 / 11).
  { unfold rr_real. lra. }
  assert (U : rr_uncorrected
                (EpiUtils.mkTable (Fin 0) (Fin 10) (Fin 5) (Fin 5)) = Fin 0).
  { unfold rr_uncorrected.
    cbn [EpiUtils.a EpiUtils.b EpiUtils.c EpiUtils.d]. js_arith.
    rewrite !ndiv_fin by lra. f_equal. lra. }
  rewrite V, U. repeat split; try reflexivity.
  intro E. injection E as E. lra.
Qed.

Lemma nadd_nan_l (y : num) : nadd NaN y = NaN.
Proof. destruct y; reflexivity. Qed.

Lemma nadd_nan_r (x : num) : nadd x NaN = NaN.
Proof. destruct x; reflexivity. Qed.

Lemma nsub_nan_l (y : num) : nsub NaN y = NaN.
Proof. unfold nsub. apply nadd_nan_l. Qed.

Lemma nsub_nan_r (x : num) : nsub x NaN = NaN.
Proof. unfold nsub. cbn [nopp]. apply nadd_nan_r. Qed.

Lemma ndiv_zero_zero (x y : R) : x = 0 -> y = 0 -> ndiv (Fin x) (Fin y) = NaN.
Proof.
  intros -> ->. unfold ndiv, inf_of_sign.
  destruct (Req_dec_T 0 0) as [_|N]; [|contradiction].
  destruct (Rlt_dec 0 0); [lra|reflexivity].
Qed.

(** With an empty row the risk difference is NaN: no correction is
    applied to rescue the quotient 0/0. *)
Lemma rd_empty_row (a b c d conf : R) :
  0 <= a -> 0 <= b -> 0 <= c -> 0 <= d ->
  a + b = 0 \/ c + d = 0 ->
  let r := EpiUtils.computeRD
             (EpiUtils.mkTable (Fin a) (Fin b) (Fin c) (Fin d)) (Fin conf) in
  EpiUtils.rd_value r = NaN /\ EpiUtils.rd_lower r = NaN
  /\ EpiUtils.rd_upper r = NaN.
Proof.
  intros Ha Hb Hc Hd E. cbv zeta. unfold EpiUtils.computeRD. cbv zeta.
  cbn [EpiUtils.a EpiUtils.b EpiUtils.c EpiUtils.d EpiUtils.rd_value
       EpiUtils.rd_lower EpiUtils.rd_upper].
  assert (V : nsub (ndiv (Fin a) (nadd (Fin a) (Fin b)))
                (ndiv (Fin c) (nadd (Fin c) (Fin d))) = NaN).
  { js_arith. destruct E as [E|E].
    - rewrite (@ndiv_zero_zero a (a + b)) by lra. apply nsub_nan_l.
    - rewrite (@ndiv_zero_zero c (c + d)) by lra. apply nsub_nan_r. }
  rewrite V. rewrite nsub_nan_l, nadd_nan_l. repeat split; reflexivity.
Qed.

(** C4 (amended).  For every 2x2 table with non-negative cells of which
    at least one is zero, and every confidence level from 0 to 99.9 (the
    calculators use 95): [computeRR] and [computeOR] add 0.5 to all four
    cells and take both the point estimate and the standard error of the
    log interval from that corrected table.  The uncorrected table is
    used by [computeRD] for its estimate and its standard error (real
    results when both rows are non-empty, NaN for the value and both
    bounds when a row is empty), for the two risks that [riskRatioCalc]
    reports (a/(a+b) and c/(c+d), NaN for an empty row), and for the two
    odds that [oddsRatioCalc] reports (a/b and c/d; +Infinity when the
    denominator cell is zero and the numerator positive, NaN for 0/0). *)
Theorem continuity_correction_policy (a b c d conf : R) :
  0 <= a -> 0 <= b -> 0 <= c -> 0 <= d ->
  a = 0 \/ b = 0 \/ c = 0 \/ d = 0 ->
  0 <= conf <= 99.9 ->
  let t := EpiUtils.mkTable (Fin a) (Fin b) (Fin c) (Fin d) in
  let a' := a + 0.5 in
  let b' := b + 0.5 in
  let c' := c + 0.5 in
  let d' := d + 0.5 in
  let z := zcrit conf in
  let rd := EpiUtils.computeRD t (Fin conf) in
  let rc := RatioCalculators.riskRatioCalc (Fin a) (Fin c) (Fin b) (Fin d) in
  let oc := RatioCalculators.oddsRatioCalc (Fin a) (Fin c) (Fin b) (Fin d) in
  EpiUtils.computeRR t (Fin conf)
  = EpiUtils.mkEstimate (Fin (rr_real a' b' c' d'))
      (Fin (exp (ln (rr_real a' b' c' d') - z * rr_se a' b' c' d')))
      (Fin (exp (ln (rr_real a' b' c' d') + z * rr_se a' b' c' d')))
  /\ EpiUtils.computeOR t (Fin conf)
     = EpiUtils.mkEstimate (Fin (or_real a' b' c' d'))
         (Fin (exp (ln (or_real a' b' c' d') - z * or_se a' b' c' d')))
         (Fin (exp (ln (or_real a' b' c' d') + z * or_se a' b' c' d')))
  /\ (0 < a + b -> 0 < c + d ->
      EpiUtils.rd_value rd = Fin (rd_real a b c d)
      /\ EpiUtils.rd_lower rd = Fin (rd_real a b c d - z * rd_se a b c d)
      /\ EpiUtils.rd_upper rd = Fin (rd_real a b c d + z * rd_se a b c d))
  /\ (a + b = 0 \/ c + d = 0 ->
      EpiUtils.rd_value rd = NaN /\ EpiUtils.rd_lower rd = NaN
      /\ EpiUtils.rd_upper rd = NaN)
  /\ (0 < a + b -> RatioCalculators.riskExposed rc = Fin (a / (a + b)))
  /\ (a + b = 0 -> RatioCalculators.riskExposed rc = NaN)
  /\ (0 < c + d -> RatioCalculators.riskUnexposed rc = Fin (c / (c + d)))
  /\ (c + d = 0 -> RatioCalculators.riskUnexposed rc = NaN)
  /\ (0 < b -> RatioCalculators.oddsExposed oc = Fin (a / b))
  /\ (b = 0 -> 0 < a -> RatioCalculators.oddsExposed oc = PInf)
  /\ (b = 0 -> a = 0 -> RatioCalculators.oddsExposed oc = NaN)
  /\ (0 < d -> RatioCalculators.oddsUnexposed oc = Fin (c / d))
  /\ (d = 0 -> 0 < c -> RatioCalculators.oddsUnexposed oc = PInf)
  /\ (d = 0 -> c = 0 -> RatioCalculators.oddsUnexposed oc = NaN).
Proof.
  intros Ha Hb Hc Hd Hz Hc99. cbv zeta.
  assert (Hconf : - 100 <= conf < 100) by lra.
  pose proof (correction_with_zero (a := a) (b := b) (c := c) (d := d) Hz)
    as Ht.
  split; [apply rr_on_positive; try assumption; lra|].
  split; [apply or_on_positive; try assumption; lra|].
  split; [intros Hab Hcd; apply rd_on_raw; assumption|].
  split; [intro E; apply rd_empty_row; assumption|].
  unfold RatioCalculators.riskRatioCalc, RatioCalculators.oddsRatioCalc.
  cbv zeta.
  cbn [RatioCalculators.riskExposed RatioCalculators.riskUnexposed
       RatioCalculators.oddsExposed RatioCalculators.oddsUnexposed
       EpiUtils.a EpiUtils.b EpiUtils.c EpiUtils.d].
  js_arith.
  split; [intro P; apply ndiv_fin; lra|].
  split; [intro E; apply ndiv_zero_zero; lra|].
  split; [intro P; apply ndiv_fin; lra|].
  split; [intro E; apply ndiv_zero_zero; lra|].
  split; [intro P; apply ndiv_fin; lra|].
  split; [intros E P; rewrite E; apply ndiv_zero_pos; exact P|].
  split; [intros E P; apply ndiv_zero_zero; assumption|].
  split; [intro P; apply ndiv_fin; lra|].
  split; [intros E P; rewrite E; apply ndiv_zero_pos; exact P|].
  intros E P. apply ndiv_zero_zero; assumption.
Qed.

Lemma continuity_correction_policy_witness :
  0 <= 0 /\ 0 <= 0 /\ 0 <= 5 /\ 0 <= 0 /\
  (0 = 0 \/ 0 = 0 \/ 5 = 0 \/ 0 = 0) /\ 0 <= 95 <= 99.9 /\
  EpiUtils.value
    (EpiUtils.computeRR
       (EpiUtils.mkTable (Fin 0) (Fin 0) (Fin 5) (Fin 0)) (Fin 95))
  = Fin (rr_real (0 + 0.5) (0 + 0.5) (5 + 0.5) (0 + 0.5))
  /\ EpiUtils.rd_value
       (EpiUtils.computeRD
          (EpiUtils.mkTable (Fin 0) (Fin 0) (Fin 5) (Fin 0)) (Fin 95))
     = NaN
  /\ RatioCalculators.oddsUnexposed
       (RatioCalculators.oddsRatioCalc (Fin 0) (Fin 5) (Fin 0) (Fin 0))
     = PInf.
Proof.
  assert (Z : 0 = 0 \/ 0 = 0 \/ 5 = 0 \/ 0 = 0) by (left; reflexivity).
  assert (C : 0 <= 95 <= 99.9) by lra.
  repeat (split; [first [lra | exact Z] |]).
  destruct (@continuity_correction_policy 0 0 5 0 95
              ltac:(lra) ltac:(lra) ltac:(lra) ltac:(lra) Z C)
    as (H1 & _ & _ & H4 & _ & _ & _ & _ & _ & _ & _ & _ & H13 & _).
  split; [rewrite H1; reflexivity|].
  split; [apply H4; left; lra|apply H13; [reflexivity|lra]].
Defined.

(* ================================================================== *)
(** * Non-inferiority sample size *)
(* ================================================================== *)

Lemma ln_le_mono (x y : R) : 0 < x <= y -> ln x <= ln y.
Proof.
  intros [H0 [H1|H1]]; [left; apply ln_increasing; assumption|].
  rewrite H1. apply Rle_refl.
Qed.

(** Lower bounds of the rational correction on a half line. *)
Lemma zcrit_of_t_ge_083 (t : R) : 1.79 <= t -> 0.83 <= zcrit_of_t t.
Proof.
  intro H. unfold zcrit_of_t.
  assert (Ht : 0 <= t) by lra. pose proof (@zcrit_den_pos t Ht) as HD.
  assert (Q : zcrit_num t <= (t - 0.83) * zcrit_den t).
  { unfold zcrit_num, zcrit_den. set (u := t - 1.79).
    replace t with (1.79 + u) by (unfold u; ring).
    assert (0 <= u) by (unfold u; lra).
    assert (0 <= u * u) by nra. assert (0 <= u * u * u) by nra.
    assert (0 <= u * u * u * u) by nra. nra. }
  assert (zcrit_num t / zcrit_den t <= t - 0.83).
  { apply Rmult_le_reg_r with (zcrit_den t); [lra|].
    unfold Rdiv. rewrite Rmult_assoc, Rinv_l by lra. lra. }
  lra.
Qed.

Lemma zcrit_of_t_ge_m001 (t : R) : 1.177 <= t -> - 0.01 <= zcrit_of_t t.
Proof.
  intro H. unfold zcrit_of_t.
  assert (Ht : 0 <= t) by lra. pose proof (@zcrit_den_pos t Ht) as HD.
  assert (Q : zcrit_num t <= (t + 0.01) * zcrit_den t).
  { unfold zcrit_num, zcrit_den. set (u := t - 1.177).
    replace t with (1.177 + u) by (unfold u; ring).
    assert (0 <= u) by (unfold u; lra).
    assert (0 <= u * u) by nra. assert (0 <= u * u * u) by nra.
    assert (0 <= u * u * u * u) by nra. nra. }
  assert (zcrit_num t / zcrit_den t <= t + 0.01).
  { apply Rmult_le_reg_r with (zcrit_den t); [lra|].
    unfold Rdiv. rewrite Rmult_assoc, Rinv_l by lra. lra. }
  lra.
Qed.

(** The z of a one-sided alpha in [0.001, 0.2] and of a power in
    [0.5, 0.99], as the solvers request them. *)
Lemma zcrit_one_sided_alpha (alpha : R) :
  0 < alpha <= 0.2 -> 0.83 <= zcrit ((1 - alpha * 2) * 100).
Proof.
  intro H. unfold zcrit. apply zcrit_of_t_ge_083. unfold zcrit_t.
  replace ((1 - (1 - alpha * 2) * 100 / 100) / 2) with alpha by lra.
  apply sqrt_lower; [lra|].
  assert (L : ln alpha <= ln (IZR 1 / IZR 5)) by (apply ln_le_mono; lra).
  pose proof ln_60_bounds. lra.
Qed.

Lemma zcrit_power (power : R) :
  0.5 <= power < 1 -> - 0.01 <= zcrit ((power * 2 - 1) * 100).
Proof.
  intro H. unfold zcrit. apply zcrit_of_t_ge_m001. unfold zcrit_t.
  replace ((1 - (power * 2 - 1) * 100 / 100) / 2) with (1 - power) by lra.
  apply sqrt_lower; [lra|].
  assert (L : ln (1 - power) <= ln (IZR 1 / IZR 2)) by (apply ln_le_mono; lra).
  pose proof ln_0_bounds. lra.
Qed.

Lemma ceilZ_pos (r : R) : 0 < r -> (0 < ceilZ r)%Z.
Proof.
  intro H. unfold ceilZ. destruct (archimed (- r)) as [A B].
  assert (IZR (up (- r)) < 1) by lra.
  apply lt_IZR in H0. lia.
Qed.

Lemma calculateN_fin (pS pT margin zA power : R) :
  0 <= power < 1 ->
  let zP := zcrit ((power * 2 - 1) * 100) in
  let num_ := noninf_numerator pS pT zA zP in
  let den := noninf_denominator pS pT margin in
  (den <> 0 ->
   SampleSizeNonInferiority.calculateN (Fin pS) (Fin pT) (Fin margin)
     (Fin zA) (Fin power)
   = SampleSizeNonInferiority.mkSampleSize
       (Fin (IZR (ceilZ (num_ / den)))) (Fin (IZR (ceilZ (num_ / den)) * 2)))
  /\ (den = 0 -> 0 < num_ ->
      SampleSizeNonInferiority.calculateN (Fin pS) (Fin pT) (Fin margin)
        (Fin zA) (Fin power)
      = SampleSizeNonInferiority.mkSampleSize PInf PInf).
Proof.
  intros Hp. cbv zeta. unfold SampleSizeNonInferiority.calculateN. cbv zeta.
  js_arith. rewrite getZCritical_fin by lra. js_arith.
  rewrite !pow_fin_2. js_arith.
  fold (noninf_numerator pS pT zA (zcrit ((power * 2 - 1) * 100))).
  fold (noninf_denominator pS pT margin).
  split.
  - intro Hd. rewrite ndiv_fin by exact Hd. cbn [Math_ceil]. js_arith.
    reflexivity.
  - intros Hd Hn. rewrite Hd. rewrite ndiv_zero_pos by exact Hn.
    cbn [Math_ceil nmul]. unfold inf_of_sign.
    destruct (Rlt_dec 0 2) as [_|N]; [reflexivity|lra].
Qed.

(** Both arms of [compute] on inputs inside the schema ranges. *)
Lemma noninferiority_compute (pS pT margin power alpha : R) :
  0.01 <= pS <= 0.99 -> 0.01 <= pT <= 0.99 -> 0.001 <= margin <= 0.2 ->
  0.5 <= power <= 0.99 -> 0.001 <= alpha <= 0.2 ->
  let r := SampleSizeNonInferiority.compute (Fin pS) (Fin pT) (Fin margin)
             (Fin power) (Fin alpha) in
  (pT - pS - margin = 0 ->
   SampleSizeNonInferiority.perGroup r = PInf
   /\ SampleSizeNonInferiority.total r = PInf)
  /\ (pT - pS - margin <> 0 ->
      exists k : Z,
        (0 < k)%Z
        /\ SampleSizeNonInferiority.perGroup r = Fin (IZR k)
        /\ SampleSizeNonInferiority.total r = Fin (IZR k * 2)).
Proof.
  intros HS HT HM HP HA. cbv zeta.
  unfold SampleSizeNonInferiority.compute. cbv zeta.
  cbn [SampleSizeNonInferiority.perGroup SampleSizeNonInferiority.total].
  js_arith. rewrite getZCritical_fin by lra.
  set (zA := zcrit ((1 - alpha * 2) * 100)).
  destruct (@calculateN_fin pS pT margin zA power ltac:(lra)) as [Hfin Hinf].
  assert (ZA : 0.83 <= zA) by (apply zcrit_one_sided_alpha; lra).
  assert (ZP : - 0.01 <= zcrit ((power * 2 - 1) * 100))
    by (apply zcrit_power; lra).
  assert (Hnum : 0 < noninf_numerator pS pT zA
                       (zcrit ((power * 2 - 1) * 100))).
  { unfold noninf_numerator.
    apply Rmult_lt_0_compat; [apply Rmult_lt_0_compat; lra|nra]. }
  split.
  - intro H0.
    assert (Hd : noninf_denominator pS pT margin = 0).
    { unfold noninf_denominator. rewrite H0. ring. }
    rewrite (Hinf Hd Hnum). cbn [SampleSizeNonInferiority.n nmul].
    unfold inf_of_sign. destruct (Rlt_dec 0 2) as [_|N]; [split; reflexivity|lra].
  - intro H0.
    assert (Hd : 0 < noninf_denominator pS pT margin).
    { unfold noninf_denominator. apply Rsqr_pos_lt. exact H0. }
    rewrite (Hfin ltac:(lra)). cbn [SampleSizeNonInferiority.n]. js_arith.
    eexists. split; [|split; reflexivity].
    apply ceilZ_pos. apply Rdiv_lt_0_compat; assumption.
Qed.

(** C5 (as stated) fails: with pStandard = 0.5, pTest = 0.625 and
    margin = 0.125 the denominator is zero, and the solver returns
    +Infinity per group and in total: a result that is neither undefined
    nor negative, delivered on the ordinary return path. *)
Lemma noninferiority_zero_denominator_not_rejected :
  let r := SampleSizeNonInferiority.compute (Fin 0.5) (Fin 0.625)
             (Fin 0.125) (Fin 0.8) (Fin 0.025) in
  noninf_denominator 0.5 0.625 0.125 <= 0
  /\ SampleSizeNonInferiority.perGroup r = PInf
  /\ SampleSizeNonInferiority.total r = PInf
  /\ ~ rejected (SampleSizeNonInferiority.perGroup r).
Proof.
  cbv zeta.
  destruct (@noninferiority_compute 0.5 0.625 0.125 0.8 0.025)
    as [H _]; try lra.
  destruct H as [H1 H2]; [lra|].
  split; [unfold noninf_denominator; lra|].
  split; [exact H1|]. split; [exact H2|].
  rewrite H1. intros [E|E]; discriminate E.
Qed.

(** C5 (amended).  On inputs inside the schema ranges the solver has no
    rejection path.  The denominator (pTest - pStandard - margin)^2 is
    never negative, and neither the per-group nor the total size is NaN or
    negative: the per-group size is either +Infinity, returned as an
    ordinary result, or a positive whole number, and the total is its
    double.  It is a positive whole number whenever pTest - pStandard
    differs from the margin by at least 1e-6. *)
Theorem noninferiority_never_rejects (pS pT margin power alpha : R) :
  0.01 <= pS <= 0.99 -> 0.01 <= pT <= 0.99 -> 0.001 <= margin <= 0.2 ->
  0.5 <= power <= 0.99 -> 0.001 <= alpha <= 0.2 ->
  let r := SampleSizeNonInferiority.compute (Fin pS) (Fin pT) (Fin margin)
             (Fin power) (Fin alpha) in
  0 <= noninf_denominator pS pT margin
  /\ ~ rejected (SampleSizeNonInferiority.perGroup r)
  /\ ~ rejected (SampleSizeNonInferiority.total r)
  /\ ((SampleSizeNonInferiority.perGroup r = PInf
       /\ SampleSizeNonInferiority.total r = PInf)
      \/ exists k : Z,
           (0 < k)%Z
           /\ SampleSizeNonInferiority.perGroup r = Fin (IZR k)
           /\ SampleSizeNonInferiority.total r = Fin (IZR k * 2))
  /\ (0.000001 <= Rabs (pT - pS - margin) ->
      exists k : Z,
        (0 < k)%Z
        /\ SampleSizeNonInferiority.perGroup r = Fin (IZR k)
        /\ SampleSizeNonInferiority.total r = Fin (IZR k * 2)).
Proof.
  intros HS HT HM HP HA. cbv zeta.
  destruct (@noninferiority_compute pS pT margin power alpha HS HT HM HP HA)
    as [Hinf Hfin].
  assert (D0 : 0 <= noninf_denominator pS pT margin).
  { unfold noninf_denominator. apply Rle_0_sqr. }
  split; [exact D0|].
  assert (A : forall x, 0.000001 <= Rabs x -> x <> 0).
  { intros x Hx E. rewrite E, Rabs_R0 in Hx. lra. }
  destruct (Req_dec_T (pT - pS - margin) 0) as [E|E].
  - destruct (Hinf E) as [H1 H2]. rewrite H1, H2.
    split; [intros [F|F]; discriminate F|].
    split; [intros [F|F]; discriminate F|].
    split; [left; split; reflexivity|].
    intro Hx. exfalso. exact (A _ Hx E).
  - destruct (Hfin E) as (k & Hk & H1 & H2). rewrite H1, H2.
    assert (K : 0 <= IZR k) by (apply IZR_le; lia).
    split.
    { intros [F|F]; [discriminate F|].
      rewrite nlt_fin_false in F; [discriminate F|exact K]. }
    split.
    { intros [F|F]; [discriminate F|].
      rewrite nlt_fin_false in F; [discriminate F|lra]. }
    split; [right|intros _]; exists k; repeat split; assumption.
Qed.

Lemma noninferiority_never_rejects_witness :
  0.01 <= 0.85 <= 0.99 /\ 0.01 <= 0.85 <= 0.99 /\ 0.001 <= 0.10 <= 0.2 /\
  0.5 <= 0.8 <= 0.99 /\ 0.001 <= 0.025 <= 0.2 /\
  ~ rejected
      (SampleSizeNonInferiority.perGroup
         (SampleSizeNonInferiority.compute (Fin 0.85) (Fin 0.85) (Fin 0.10)
            (Fin 0.8) (Fin 0.025))).
Proof.
  repeat (split; [lra|]).
  apply (@noninferiority_never_rejects 0.85 0.85 0.10 0.8 0.025); lra.
Defined.

(* ================================================================== *)
(** * Normal CDF, chi-square p-value and the round trip *)
(* ================================================================== *)

Lemma erf_fin (x : R) : Utils.erf (Fin x) = Fin (erf_real x).
Proof.
  unfold Utils.erf. cbv zeta. js_arith.
  assert (0 <= Rabs x) by apply Rabs_pos.
  rewrite ndiv_fin by lra. js_arith. unfold erf_real, erf_poly, nlt.
  destruct (Rlt_dec x 0); js_arith; reflexivity.
Qed.

Lemma sqrt2_pos : 0 < sqrt 2.
Proof. apply sqrt_lt_R0. lra. Qed.

Lemma getNormalCDF_fin (z : R) :
  Utils.getNormalCDF (Fin z) = Fin (normal_cdf z).
Proof.
  unfold Utils.getNormalCDF. rewrite sqrt_fin by lra.
  pose proof sqrt2_pos. rewrite ndiv_fin by lra.
  rewrite erf_fin. js_arith. reflexivity.
Qed.

(** The polynomial of the approximation stays in [0, 1] on [0, 1]. *)
Lemma erf_poly_le_1 (t : R) : 0 <= t <= 1 -> erf_poly t <= 1.
Proof.
  intros [H0 H1]. unfold erf_poly.
  assert (T2 : 0 <= t * t) by nra.
  assert (T3 : t * t * t <= t * t) by nra.
  assert (T4 : 0 <= t * t * t * t) by nra.
  assert (Q : 0 <= 0.999999999 + 0.745170407 * t + 1.029667143 * (t * t)
                   - 0.391746598 * (t * t * t)
                   + 1.061405429 * (t * t * t * t)) by nra.
  nra.
Qed.

Lemma erf_poly_nonneg (t : R) : 0 <= t -> 0 <= erf_poly t.
Proof.
  intro H0. unfold erf_poly.
  apply Rmult_le_pos; [|exact H0].
  assert (A : 0 <= 0.36 * (t * t) - 0.284496736 * t + 0.254829592).
  { pose proof (Rle_0_sqr (0.6 * t - 0.24)). unfold Rsqr in *. nra. }
  assert (B : 0 <= 1.061405429 * (t * t) - 1.453152027 * t + 1.061413741).
  { pose proof (Rle_0_sqr (t - 0.7)). unfold Rsqr in *. nra. }
  assert (T2 : 0 <= t * t) by nra.
  nra.
Qed.

Lemma erf_real_nonneg_arg (x : R) :
  0 <= x ->
  erf_real x = 1 - erf_poly (1 / (1 + 0.3275911 * x)) * exp (- x * x)
  /\ 0 <= erf_real x <= 1.
Proof.
  intro H. unfold erf_real.
  destruct (Rlt_dec x 0) as [N|_]; [lra|].
  rewrite Rabs_right by lra. split; [ring|].
  set (t := 1 / (1 + 0.3275911 * x)).
  assert (Ht : 0 <= t <= 1).
  { unfold t. split.
    - apply Rmult_le_pos; [lra|]. left. apply Rinv_0_lt_compat. nra.
    - apply Rmult_le_reg_r with (1 + 0.3275911 * x); [nra|].
      unfold Rdiv. rewrite Rmult_assoc, Rinv_l by nra. nra. }
  pose proof (erf_poly_le_1 Ht) as P1.
  pose proof (@erf_poly_nonneg t (proj1 Ht)) as P0.
  assert (E0 : 0 < exp (- x * x)) by apply exp_pos.
  assert (E1 : exp (- x * x) <= 1).
  { rewrite <- exp_0. destruct (Req_dec_T x 0) as [Z|Z].
    - subst x. right. f_equal. ring.
    - left. apply exp_increasing. nra. }
  nra.
Qed.

Lemma exp_neg_le_inv (y : R) : 0 <= y -> exp (- y) <= 1 / (1 + y).
Proof.
  intro H. pose proof (exp_ineq1_le y) as E. rewrite exp_Ropp.
  unfold Rdiv. rewrite Rmult_1_l. apply Rinv_le_contravar; lra.
Qed.

Lemma getChiSqPValue_of_cube (i df : R) :
  0 < i -> 0 < df ->
  Utils.getChiSqPValue (Fin (df * (i * i * i))) (Fin df)
  = Fin (1 - normal_cdf ((i - (1 - 2 / (9 * df))) / sqrt (2 / (9 * df)))).
Proof.
  intros Hi Hdf. unfold Utils.getChiSqPValue. cbv zeta.
  assert (C : 0 < i * i * i) by (repeat apply Rmult_lt_0_compat; exact Hi).
  rewrite nle_fin_false by (apply Rmult_lt_0_compat; assumption).
  rewrite (@ndiv_fin _ df) by lra.
  replace (df * (i * i * i) / df) with (i * i * i) by (field; lra).
  rewrite pow_third_cube by exact Hi. js_arith.
  rewrite !(@ndiv_fin 2) by lra. js_arith.
  assert (P : 0 < 2 / (9 * df)) by (apply Rdiv_lt_0_compat; lra).
  rewrite sqrt_fin by lra.
  pose proof (sqrt_lt_R0 _ P).
  rewrite ndiv_fin by lra. rewrite getNormalCDF_fin. js_arith. reflexivity.
Qed.

(** Composition of the quantile with the p-value: the result depends only
    on the Normal quantile that [getChiSqCritical] requested. *)
Lemma chisq_round_trip (p df : R) :
  0 < df -> 0 < p <= 2 ->
  0 < chisq_inner (zcrit ((1 - p) * 100)) df ->
  Utils.getChiSqPValue (Utils.getChiSqCritical (Fin p) (Fin df)) (Fin df)
  = Fin (1 - normal_cdf (zcrit ((1 - p) * 100))).
Proof.
  intros Hdf Hp Hi. rewrite getChiSqCritical_fin by assumption.
  unfold chisq_crit. cbv zeta.
  rewrite getChiSqPValue_of_cube by assumption.
  do 3 f_equal. unfold chisq_inner.
  assert (P : 0 < 2 / (9 * df)) by (apply Rdiv_lt_0_compat; lra).
  pose proof (sqrt_lt_R0 _ P). field. lra.
Qed.

(** For every probability and every positive df the round trip returns
    the upper tail of the quantile at 1 - p/2, whatever df is. *)
Lemma chisq_round_trip_any_df (p df : R) :
  0 < p < 1 -> 1 <= df ->
  Utils.getChiSqPValue (Utils.getChiSqCritical (Fin p) (Fin df)) (Fin df)
  = Fin (1 - normal_cdf (zcrit ((1 - p) * 100))).
Proof.
  intros Hp Hdf. apply chisq_round_trip; try lra.
  assert (Z : - 0.01 <= zcrit ((1 - p) * 100)).
  { unfold zcrit. apply zcrit_of_t_ge_m001. unfold zcrit_t.
    replace ((1 - (1 - p) * 100 / 100) / 2) with (p / 2) by lra.
    apply sqrt_lower; [lra|].
    assert (L : ln (p / 2) <= ln (IZR 1 / IZR 2)) by (apply ln_le_mono; lra).
    pose proof ln_0_bounds. lra. }
  unfold chisq_inner.
  assert (P : 0 <= 2 / (9 * df) <= 2 / 9).
  { split.
    - apply Rmult_le_pos; [lra|]. left. apply Rinv_0_lt_compat. lra.
    - apply Rmult_le_reg_r with (9 * df); [lra|].
      unfold Rdiv. rewrite Rmult_assoc, Rinv_l by lra. lra. }
  assert (S : 0 <= sqrt (2 / (9 * df)) <= 1).
  { split; [apply sqrt_pos|]. apply sqrt_upper; lra. }
  nra.
Qed.

(** C1 (evaluation at a failing input).  At p = 0.5 and df = 1 the round
    trip yields a value below 0.42: it misses p by more than 1e-2. *)
Theorem chisq_round_trip_at_half :
  exists r : R,
    Utils.getChiSqPValue (Utils.getChiSqCritical (Fin 0.5) (Fin 1)) (Fin 1)
    = Fin r
    /\ 0 <= r < 0.42 /\ Rabs (r - 0.5) > 0.01.
Proof.
  pose proof zcrit_50_bounds as [Zl Zu].
  assert (E : (1 - 0.5) * 100 = 50) by lra.
  assert (S29 : 0 < sqrt (2 / (9 * 1))) by (apply sqrt_lt_R0; lra).
  eexists. split.
  - apply chisq_round_trip; try lra. rewrite E. unfold chisq_inner. nra.
  - rewrite E. set (z := zcrit 50) in *. unfold normal_cdf.
    pose proof sqrt2_bounds as [Sl Su]. pose proof sqrt2_pos as Sp.
    assert (X : 0.47 <= z / sqrt 2 <= 0.48).
    { split.
      - apply Rmult_le_reg_r with (sqrt 2); [lra|].
        unfold Rdiv. rewrite Rmult_assoc, Rinv_l by lra. nra.
      - apply Rmult_le_reg_r with (sqrt 2); [lra|].
        unfold Rdiv. rewrite Rmult_assoc, Rinv_l by lra. nra. }
    set (x := z / sqrt 2) in *.
    destruct (@erf_real_nonneg_arg x ltac:(lra)) as [Ef [E0 E1]].
    assert (Ex : exp (- x * x) <= 1 / (1 + x * x)).
    { replace (- x * x) with (- (x * x)) by ring.
      apply exp_neg_le_inv. nra. }
    assert (Ex2 : 1 / (1 + x * x) <= 0.82).
    { apply Rmult_le_reg_r with (1 + x * x); [nra|].
      unfold Rdiv. rewrite Rmult_assoc, Rinv_l by nra. nra. }
    assert (Pt : erf_poly (1 / (1 + 0.3275911 * x)) <= 1).
    { apply erf_poly_le_1. split.
      - apply Rmult_le_pos; [lra|]. left. apply Rinv_0_lt_compat. nra.
      - apply Rmult_le_reg_r with (1 + 0.3275911 * x); [nra|].
        unfold Rdiv. rewrite Rmult_assoc, Rinv_l by nra. nra. }
    assert (P0 : 0 <= erf_poly (1 / (1 + 0.3275911 * x))).
    { apply erf_poly_nonneg.
      apply Rmult_le_pos; [lra|]. left. apply Rinv_0_lt_compat. nra. }
    assert (E0' : 0 < exp (- x * x)) by apply exp_pos.
    assert (Hr : 0.18 <= erf_real x) by (rewrite Ef; nra).
    split; [lra|]. rewrite Rabs_left; lra.
Qed.

(* ================================================================== *)
(** * Proportion intervals *)
(* ================================================================== *)

Lemma getFCritical_fin (p d1 d2 : R) :
  0 < d1 -> 0 < d2 -> - 1 <= p < 1 ->
  0 <= 2 / (1 / d1 + 1 / d2) + (zcrit (p * 100) * zcrit (p * 100) - 3) / 6 ->
  Utils.getFCritical (Fin p) (Fin d1) (Fin d2) = Fin (fcrit p d1 d2).
Proof.
  intros H1 H2 Hp Hs. unfold Utils.getFCritical, Utils.lambda. cbv zeta.
  js_arith. rewrite getZCritical_fin by lra. js_arith.
  assert (I1 : 0 < 1 / d1) by (apply Rdiv_lt_0_compat; lra).
  assert (I2 : 0 < 1 / d2) by (apply Rdiv_lt_0_compat; lra).
  rewrite (@ndiv_fin 1 d1), (@ndiv_fin 1 d2) by lra. js_arith.
  rewrite !(@ndiv_fin 2) by lra.
  rewrite (@ndiv_fin _ 6) by lra. js_arith.
  rewrite sqrt_fin by exact Hs. js_arith.
  assert (Hh : 0 < 2 / (1 / d1 + 1 / d2)) by (apply Rdiv_lt_0_compat; lra).
  assert (0 < d1 * d2) by (apply Rmult_lt_0_compat; assumption).
  rewrite !ndiv_fin by lra. js_arith. reflexivity.
Qed.

(** The upper Clopper-Pearson bound the code computes for one success in
    a hundred trials at 95% confidence. *)
Lemma clopper_pearson_upper_1_100 :
  exists u : R,
    CiProportion.cpHigh (CiProportion.compute (Fin 1) (Fin 100) (Fin 95))
    = Fin u
    /\ 0 < u < 0.008.
Proof.
  unfold CiProportion.compute. cbv zeta. cbn [CiProportion.cpHigh].
  rewrite nlt_fin_true by lra. js_arith.
  rewrite (@ndiv_fin 95 100) by lra. js_arith.
  rewrite (@ndiv_fin _ 2) by lra. js_arith.
  replace (1 - (1 - 95 / 100) / 2) with 0.975 by lra.
  pose proof zcrit_97_5_bounds as [Zl Zu].
  assert (E : 0.975 * 100 = 97.5) by lra.
  rewrite getFCritical_fin; try lra; [|rewrite E; nra].
  js_arith. unfold fcrit. rewrite E.
  set (z := zcrit 97.5) in *.
  set (w := fcrit_w z (2 * (1 + 1)) (2 * (100 - 1))).
  assert (F0 : 0 < exp (2 * w)) by apply exp_pos.
  rewrite ndiv_fin by lra.
  eexists. split; [reflexivity|].
  assert (W : w <= - 0.9).
  { unfold w, fcrit_w. cbv zeta.
    replace (2 / (1 / (2 * (1 + 1)) + 1 / (2 * (100 - 1))))
      with (792 / 101) by lra.
    replace ((2 * (100 - 1) - 2 * (1 + 1)) / (2 * (1 + 1) * (2 * (100 - 1))))
      with (97 / 396) by lra.
    assert (S : sqrt (792 / 101 + (z * z - 3) / 6) <= 2.86).
    { apply sqrt_upper; [lra|nra]. }
    assert (S0 : 0 <= sqrt (792 / 101 + (z * z - 3) / 6)) by apply sqrt_pos.
    set (s := sqrt (792 / 101 + (z * z - 3) / 6)) in *.
    assert (ZS : z * s <= 2.241846 * 2.86) by nra.
    assert (Z2 : 2.241844 * 2.241844 <= z * z) by nra.
    lra. }
  assert (F1 : exp (2 * w) <= 1 / (1 + 9 / 5)).
  { apply Rle_trans with (exp (- (9 / 5))).
    - destruct (Req_dec_T (2 * w) (- (9 / 5))) as [Q|Q]; [rewrite Q; lra|].
      left. apply exp_increasing. lra.
    - apply exp_neg_le_inv. lra. }
  set (f := exp (2 * w)) in *.
  assert (F2 : f <= 0.36) by lra.
  split.
  - apply Rdiv_lt_0_compat; lra.
  - apply Rmult_lt_reg_r with (100 - 1 + (1 + 1) * f); [lra|].
    unfold Rdiv. rewrite Rmult_assoc, Rinv_l by lra. lra.
Qed.

(** C8 (evaluation at a failing input).  For x = 1 success in n = 100
    trials at 95% confidence the point estimate is 0.01, but the upper
    Clopper-Pearson bound is below 0.008: the interval does not contain
    the point estimate. *)
Theorem clopper_pearson_excludes_estimate :
  exists u : R,
    CiProportion.p (CiProportion.compute (Fin 1) (Fin 100) (Fin 95))
    = Fin 0.01
    /\ CiProportion.cpHigh (CiProportion.compute (Fin 1) (Fin 100) (Fin 95))
       = Fin u
    /\ 0 < u < 0.008 /\ ~ (0.01 <= u).
Proof.
  destruct clopper_pearson_upper_1_100 as (u & Hu & Bu).
  exists u. split.
  - unfold CiProportion.compute. cbv zeta. cbn [CiProportion.p].
    replace 0.01 with (1 / 100) by lra. apply ndiv_fin. lra.
  - split; [exact Hu|]. split; [exact Bu|]. lra.
Qed.

(* ================================================================== *)
(** * The t p-value: trigonometric sums *)
(* ================================================================== *)

Lemma tp_loop_real_series (i0 x : R) : forall n k,
  tp_loop_real n (i0 + 2 * INR k) (cos x)
    (tp_coef i0 k * (sin x * (cos x * cos x) ^ k)) (tp_series i0 k x)
  = tp_series i0 (k + n) x.
Proof.
  induction n as [|n IH]; intro k.
  - rewrite Nat.add_0_r. reflexivity.
  - cbn [tp_loop_real]. cbv zeta.
    replace (k + S n)%nat with (S k + n)%nat by lia.
    rewrite <- IH. f_equal.
    + rewrite S_INR. ring.
    + cbn [tp_coef pow]. unfold Rdiv. ring.
    + cbn [tp_series tp_coef pow]. unfold Rdiv. ring.
Qed.

Lemma tp_loop_real_from_start (i0 x : R) (n : nat) :
  tp_loop_real n i0 (cos x) (sin x) (sin x) = tp_series i0 n x.
Proof.
  pose proof (tp_loop_real_series i0 x n 0) as H.
  cbn [INR tp_coef pow tp_series Nat.add] in H.
  replace (i0 + 2 * 0) with i0 in H by ring.
  replace (1 * (sin x * 1)) with (sin x) in H by ring.
  exact H.
Qed.

Lemma tp_coef_nonneg (i0 : R) (k : nat) : 1 <= i0 -> 0 <= tp_coef i0 k.
Proof.
  intro H. induction k as [|k IH]; cbn [tp_coef]; [lra|].
  apply Rmult_le_pos; [exact IH|].
  pose proof (pos_INR k).
  unfold Rdiv. apply Rmult_le_pos; [lra|].
  left. apply Rinv_0_lt_compat. lra.
Qed.

Lemma tp_series_at_0 (i0 : R) (n : nat) : tp_series i0 n 0 = 0.
Proof.
  induction n as [|n IH]; cbn [tp_series]; rewrite ?IH, sin_0; ring.
Qed.

Lemma tp_series_at_PI2 (i0 : R) (n : nat) : tp_series i0 n (PI / 2) = 1.
Proof.
  induction n as [|n IH]; cbn [tp_series]; [apply sin_PI2|].
  rewrite IH, cos_PI2. cbn [pow]. ring.
Qed.

Lemma tp_series_nonneg (i0 : R) (n : nat) (x : R) :
  1 <= i0 -> 0 <= x <= PI / 2 -> 0 <= tp_series i0 n x.
Proof.
  intros Hi [H0 H1].
  assert (S : 0 <= sin x) by (apply sin_ge_0; pose proof PI_RGT_0; lra).
  induction n as [|n IH]; cbn [tp_series]; [exact S|].
  apply Rplus_le_le_0_compat; [exact IH|].
  apply Rmult_le_pos; [apply tp_coef_nonneg; exact Hi|].
  apply Rmult_le_pos; [exact S|].
  apply pow_le. apply Rle_0_sqr.
Qed.

Lemma sin_sq (x : R) : sin x * sin x = 1 - cos x * cos x.
Proof. pose proof (sin2_cos2 x) as H. unfold Rsqr in H. lra. Qed.

(** Derivative of [sin * (cos^2)^(k+1)], written with cosines only. *)
Lemma deriv_sin_cospow (k : nat) (x : R) :
  derivable_pt_lim (fun y => sin y * (cos y * cos y) ^ S k) x
    (cos x * (cos x * cos x) ^ k
     * ((2 * INR k + 3) * (cos x * cos x) - (2 * INR k + 2))).
Proof.
  assert (D2 : derivable_pt_lim (fun y => cos y * cos y) x
                 (- sin x * cos x + cos x * - sin x)).
  { apply (derivable_pt_lim_mult cos cos); apply derivable_pt_lim_cos. }
  assert (DP : derivable_pt_lim (fun y => (cos y * cos y) ^ S k) x
                 (INR (S k) * (cos x * cos x) ^ k
                  * (- sin x * cos x + cos x * - sin x))).
  { apply (derivable_pt_lim_comp (fun y => cos y * cos y)
             (fun z => z ^ S k)); [exact D2|].
    apply (derivable_pt_lim_pow (cos x * cos x) (S k)). }
  pose proof (derivable_pt_lim_mult sin _ x _ _
                (derivable_pt_lim_sin x) DP) as D.
  eapply derivable_pt_lim_ext; [intro z; reflexivity|].
  replace (cos x * (cos x * cos x) ^ k
           * ((2 * INR k + 3) * (cos x * cos x) - (2 * INR k + 2)))
    with (cos x * (cos x * cos x) ^ S k
          + sin x * (INR (S k) * (cos x * cos x) ^ k
                     * (- sin x * cos x + cos x * - sin x))); [exact D|].
  rewrite S_INR. cbn [pow].
  replace (sin x * ((INR k + 1) * (cos x * cos x) ^ k
                    * (- sin x * cos x + cos x * - sin x)))
    with (- 2 * (INR k + 1) * (cos x * cos x) ^ k * cos x * (sin x * sin x))
    by ring.
  rewrite sin_sq. ring.
Qed.

(** Even degrees of freedom: the polynomial sum itself. *)
Lemma deriv_series_even (n : nat) (x : R) :
  derivable_pt_lim (tp_series 2 n) x
    (tp_coef 2 n * (2 * INR n + 1) * (cos x * (cos x * cos x) ^ n)).
Proof.
  induction n as [|n IH].
  - cbn [tp_series tp_coef INR pow].
    replace (1 * (2 * 0 + 1) * (cos x * 1)) with (cos x) by ring.
    apply derivable_pt_lim_sin.
  - cbn [tp_series].
    pose proof (derivable_pt_lim_scal _ (tp_coef 2 (S n)) x _
                  (deriv_sin_cospow n x)) as DS.
    pose proof (derivable_pt_lim_plus _ _ x _ _ IH DS) as D.
    eapply derivable_pt_lim_ext; [intro z; reflexivity|].
    replace (tp_coef 2 (S n) * (2 * INR (S n) + 1)
             * (cos x * (cos x * cos x) ^ S n))
      with (tp_coef 2 n * (2 * INR n + 1) * (cos x * (cos x * cos x) ^ n)
            + tp_coef 2 (S n)
              * (cos x * (cos x * cos x) ^ n
                 * ((2 * INR n + 3) * (cos x * cos x) - (2 * INR n + 2))));
      [exact D|].
    rewrite S_INR. cbn [tp_coef pow]. pose proof (pos_INR n). field. lra.
Qed.

Lemma deriv_cos_sin_cospow (k : nat) (x : R) :
  derivable_pt_lim (fun y => cos y * (sin y * (cos y * cos y) ^ S k)) x
    ((cos x * cos x) ^ S k
     * ((2 * INR k + 4) * (cos x * cos x) - (2 * INR k + 3))).
Proof.
  pose proof (derivable_pt_lim_mult cos _ x _ _
                (derivable_pt_lim_cos x) (deriv_sin_cospow k x)) as D.
  eapply derivable_pt_lim_ext; [intro z; reflexivity|].
  replace ((cos x * cos x) ^ S k
           * ((2 * INR k + 4) * (cos x * cos x) - (2 * INR k + 3)))
    with (- sin x * (sin x * (cos x * cos x) ^ S k)
          + cos x * (cos x * (cos x * cos x) ^ k
                     * ((2 * INR k + 3) * (cos x * cos x)
                        - (2 * INR k + 2)))); [exact D|].
  replace (- sin x * (sin x * (cos x * cos x) ^ S k))
    with (- (cos x * cos x) ^ S k * (sin x * sin x)) by ring.
  rewrite sin_sq. cbn [pow]. ring.
Qed.

Lemma deriv_odd (n : nat) (x : R) :
  derivable_pt_lim (tp_odd n) x
    (tp_coef 3 n * (2 * INR n + 2) * (cos x * cos x) ^ S n).
Proof.
  induction n as [|n IH].
  - unfold tp_odd. cbn [tp_series tp_coef INR pow].
    pose proof (derivable_pt_lim_mult cos sin x _ _
                  (derivable_pt_lim_cos x) (derivable_pt_lim_sin x)) as DM.
    pose proof (derivable_pt_lim_plus id _ x _ _
                  (derivable_pt_lim_id x) DM) as D.
    eapply derivable_pt_lim_ext; [intro z; reflexivity|].
    replace (1 * (2 * 0 + 2) * (cos x * cos x * 1))
      with (1 + (- sin x * sin x + cos x * cos x)); [exact D|].
    replace (- sin x * sin x) with (- (sin x * sin x)) by ring.
    rewrite sin_sq. ring.
  - pose proof (derivable_pt_lim_scal _ (tp_coef 3 (S n)) x _
                  (deriv_cos_sin_cospow n x)) as DS.
    pose proof (derivable_pt_lim_plus _ _ x _ _ IH DS) as D.
    apply derivable_pt_lim_ext
      with (f := plus_fct (tp_odd n)
                   (mult_real_fct (tp_coef 3 (S n))
                      (fun y => cos y * (sin y * (cos y * cos y) ^ S n)))).
    + intro z. unfold plus_fct, mult_real_fct, tp_odd. cbn [tp_series].
      ring.
    + replace (tp_coef 3 (S n) * (2 * INR (S n) + 2)
               * (cos x * cos x) ^ S (S n))
        with (tp_coef 3 n * (2 * INR n + 2) * (cos x * cos x) ^ S n
              + tp_coef 3 (S n)
                * ((cos x * cos x) ^ S n
                   * ((2 * INR n + 4) * (cos x * cos x) - (2 * INR n + 3))));
        [exact D|].
      rewrite S_INR. cbn [tp_coef pow]. pose proof (pos_INR n). field. lra.
Qed.

Lemma tp_series_even_le_1 (n : nat) (x : R) :
  0 <= x <= PI / 2 -> tp_series 2 n x <= 1.
Proof.
  intros [H0 H1]. destruct (Req_dec_T x (PI / 2)) as [E|E].
  - rewrite E, tp_series_at_PI2. lra.
  - assert (Hlt : x < PI / 2) by lra.
    destruct (MVT_cor2 (tp_series 2 n)
                (fun y => tp_coef 2 n * (2 * INR n + 1)
                          * (cos y * (cos y * cos y) ^ n))
                x (PI / 2) Hlt) as (c & Hc & Hin).
    { intros y _. apply deriv_series_even. }
    rewrite tp_series_at_PI2 in Hc.
    assert (D : 0 <= tp_coef 2 n * (2 * INR n + 1)
                     * (cos c * (cos c * cos c) ^ n)).
    { apply Rmult_le_pos.
      - apply Rmult_le_pos; [apply tp_coef_nonneg; lra|].
        pose proof (pos_INR n). lra.
      - apply Rmult_le_pos; [apply cos_ge_0; lra|].
        apply pow_le. apply Rle_0_sqr. }
    assert (0 <= tp_coef 2 n * (2 * INR n + 1)
                 * (cos c * (cos c * cos c) ^ n) * (PI / 2 - x)).
    { apply Rmult_le_pos; lra. }
    lra.
Qed.

Lemma tp_odd_le_PI2 (n : nat) (x : R) : x <= PI / 2 -> tp_odd n x <= PI / 2.
Proof.
  intro H1.
  assert (V : tp_odd n (PI / 2) = PI / 2).
  { unfold tp_odd. rewrite cos_PI2. ring. }
  destruct (Req_dec_T x (PI / 2)) as [E|E]; [rewrite E, V; lra|].
  assert (Hlt : x < PI / 2) by lra.
  destruct (MVT_cor2 (tp_odd n)
              (fun y => tp_coef 3 n * (2 * INR n + 2)
                        * (cos y * cos y) ^ S n)
              x (PI / 2) Hlt) as (c & Hc & Hin).
  { intros y _. apply deriv_odd. }
  rewrite V in Hc.
  assert (D : 0 <= tp_coef 3 n * (2 * INR n + 2) * (cos c * cos c) ^ S n).
  { apply Rmult_le_pos.
    - apply Rmult_le_pos; [apply tp_coef_nonneg; lra|].
      pose proof (pos_INR n). lra.
    - apply pow_le. apply Rle_0_sqr. }
  assert (0 <= tp_coef 3 n * (2 * INR n + 2) * (cos c * cos c) ^ S n
               * (PI / 2 - x)).
  { apply Rmult_le_pos; lra. }
  lra.
Qed.

Lemma tp_odd_nonneg (n : nat) (x : R) : 0 <= x <= PI / 2 -> 0 <= tp_odd n x.
Proof.
  intros H. unfold tp_odd.
  pose proof (@tp_series_nonneg 3 n x ltac:(lra) H).
  assert (0 <= cos x) by (apply cos_ge_0; lra).
  assert (0 <= cos x * tp_series 3 n x) by (apply Rmult_le_pos; assumption).
  lra.
Qed.

(* ================================================================== *)
(** * The t p-value: evaluation of [getTPValue] *)
(* ================================================================== *)

Lemma tp_loop_eq (fuel : nat) (i df c term poly : num) :
  Utils.tp_loop fuel i df c term poly
  = if nle i (nsub df (Fin 2)) then
      match fuel with
      | O => None
      | S fuel' =>
          Utils.tp_loop fuel' (nadd i (Fin 2)) df c
            (nmul term (nmul (nmul (ndiv (nsub i (Fin 1)) i) c) c))
            (nadd poly (nmul term (nmul (nmul (ndiv (nsub i (Fin 1)) i) c) c)))
      end
    else Some poly.
Proof. destruct fuel; reflexivity. Qed.

(** With enough fuel the loop exits, having run the [n] iterations its
    bounds allow. *)
Lemma tp_loop_fin (df c : R) : forall (n fuel : nat) (i term poly : R),
  (n <= fuel)%nat -> 0 < i ->
  i + 2 * INR n - 2 <= df - 2 < i + 2 * INR n ->
  Utils.tp_loop fuel (Fin i) (Fin df) (Fin c) (Fin term) (Fin poly)
  = Some (Fin (tp_loop_real n i c term poly)).
Proof.
  induction n as [|n IH]; intros fuel i term poly Hf Hi [Hlo Hhi].
  - rewrite tp_loop_eq. js_arith. cbn [INR] in Hhi.
    rewrite nle_fin_false by lra. reflexivity.
  - rewrite S_INR in Hlo, Hhi. pose proof (pos_INR n).
    rewrite tp_loop_eq. js_arith. rewrite nle_fin_true by lra.
    destruct fuel as [|fuel]; [lia|].
    rewrite ndiv_fin by lra. js_arith.
    rewrite IH; [reflexivity|lia|lra|lra].
Qed.

Lemma truncZ_half (k : Z) (r : R) :
  (0 <= k)%Z -> 0 <= r < 1 -> truncZ (IZR k + r) = k.
Proof.
  intros Hk Hr. unfold truncZ.
  assert (0 <= IZR k) by (apply IZR_le; exact Hk).
  destruct (Rle_dec 0 (IZR k + r)) as [_|N]; [|lra].
  unfold Int_part. replace (up (IZR k + r)) with (k + 1)%Z; [lia|].
  apply tech_up; rewrite plus_IZR; lra.
Qed.

Lemma nmod_two_odd (k : Z) :
  (0 <= k)%Z -> nmod (Fin (IZR (2 * k + 1))) (Fin 2) = Fin 1.
Proof.
  intro Hk. unfold nmod.
  destruct (Req_dec_T 2 0) as [A|_]; [lra|].
  rewrite plus_IZR, mult_IZR.
  replace ((2 * IZR k + 1) / 2) with (IZR k + 1 / 2) by lra.
  rewrite truncZ_half by (try assumption; lra). f_equal. ring.
Qed.

Lemma nmod_two_even (k : Z) :
  (0 <= k)%Z -> nmod (Fin (IZR (2 * k))) (Fin 2) = Fin 0.
Proof.
  intro Hk. unfold nmod.
  destruct (Req_dec_T 2 0) as [A|_]; [lra|].
  rewrite mult_IZR.
  replace (2 * IZR k / 2) with (IZR k + 0) by lra.
  rewrite truncZ_half by (try assumption; lra). f_equal. ring.
Qed.

(** The two-sided probability is produced, lies in [0, 1], and is 1 at
    angle 0. *)
Lemma tp_two_sided_fin (theta : R) (df : Z) :
  0 <= theta < PI / 2 -> (1 <= df <= 100)%Z ->
  exists p : R,
    Utils.tp_two_sided (Fin theta) (Fin (IZR df)) = Some (Fin p)
    /\ 0 <= p <= 1 /\ (theta = 0 -> p = 1).
Proof.
  intros [T0 T1] Hdf. pose proof PI_RGT_0 as Hpi.
  unfold Utils.tp_two_sided. cbv zeta. unfold Math_PI.
  cbn [Math_sin Math_cos].
  destruct (Z.eq_dec df 1) as [E1|E1].
  - subst df. rewrite neq_fin_true by reflexivity.
    rewrite ndiv_fin by lra. js_arith.
    eexists. split; [reflexivity|]. split.
    + assert (0 <= 2 / PI * theta <= 1).
      { split.
        - apply Rmult_le_pos; [|lra]. apply Rmult_le_pos; [lra|].
          left. apply Rinv_0_lt_compat. exact Hpi.
        - apply Rmult_le_reg_r with (PI / 2); [lra|].
          replace (2 / PI * theta * (PI / 2)) with theta by (field; lra).
          lra. }
      lra.
    + intro Z. rewrite Z. ring.
  - rewrite neq_fin_false by (intro A; apply eq_IZR in A; contradiction).
    assert (C0 : 0 <= cos theta) by (apply cos_ge_0; lra).
    assert (C1 : cos theta <= 1) by apply COS_bound.
    destruct (Z.eq_dec (df mod 2) 1) as [Eo|Ee].
    + (* odd: df = 2 n + 3 *)
      set (n := Z.to_nat ((df - 3) / 2)).
      assert (Hn : df = (2 * (Z.of_nat n + 1) + 1)%Z).
      { unfold n.
        rewrite Z2Nat.id by (Z.div_mod_to_equations; lia).
        Z.div_mod_to_equations. lia. }
      assert (HN : (n <= 48)%nat) by lia.
      clearbody n. subst df. rewrite nmod_two_odd by lia.
      rewrite neq_fin_true by reflexivity.
      assert (HR : IZR (2 * (Z.of_nat n + 1) + 1) = 2 * INR n + 3).
      { rewrite plus_IZR, mult_IZR, plus_IZR, <- INR_IZR_INZ. ring. }
      rewrite HR.
      rewrite (@tp_loop_fin (2 * INR n + 3) (cos theta) n) by
        (unfold Utils.tp_fuel; try lia; lra).
      rewrite tp_loop_real_from_start.
      rewrite ndiv_fin by lra. js_arith.
      eexists. split; [reflexivity|].
      replace (theta + tp_series 3 n theta * cos theta)
        with (tp_odd n theta) by (unfold tp_odd; ring).
      pose proof (@tp_odd_le_PI2 n theta ltac:(lra)) as U.
      pose proof (@tp_odd_nonneg n theta ltac:(lra)) as L.
      split.
      * assert (0 <= 2 / PI * tp_odd n theta <= 1).
        { split.
          - apply Rmult_le_pos; [|lra]. apply Rmult_le_pos; [lra|].
            left. apply Rinv_0_lt_compat. exact Hpi.
          - apply Rmult_le_reg_r with (PI / 2); [lra|].
            replace (2 / PI * tp_odd n theta * (PI / 2))
              with (tp_odd n theta) by (field; lra).
            lra. }
        lra.
      * intro Z. rewrite Z. unfold tp_odd. rewrite tp_series_at_0. ring.
    + (* even: df = 2 n + 2 *)
      set (n := Z.to_nat ((df - 2) / 2)).
      assert (Hn : df = (2 * (Z.of_nat n + 1))%Z).
      { unfold n.
        rewrite Z2Nat.id by (Z.div_mod_to_equations; lia).
        Z.div_mod_to_equations. lia. }
      assert (HN : (n <= 49)%nat) by lia.
      clearbody n. subst df. rewrite nmod_two_even by lia.
      rewrite neq_fin_false by lra.
      assert (HR : IZR (2 * (Z.of_nat n + 1)) = 2 * INR n + 2).
      { rewrite mult_IZR, plus_IZR, <- INR_IZR_INZ. ring. }
      rewrite HR.
      rewrite (@tp_loop_fin (2 * INR n + 2) (cos theta) n) by
        (unfold Utils.tp_fuel; try lia; lra).
      rewrite tp_loop_real_from_start. js_arith.
      eexists. split; [reflexivity|].
      pose proof (@tp_series_even_le_1 n theta ltac:(lra)) as U.
      pose proof (@tp_series_nonneg 2 n theta ltac:(lra) ltac:(lra)) as L.
      split; [nra|].
      intro Z. rewrite Z, tp_series_at_0. ring.
Qed.

Lemma normal_cdf_upper_half (z : R) : 0 <= z -> 1 / 2 <= normal_cdf z <= 1.
Proof.
  intro Hz. unfold normal_cdf. pose proof sqrt2_pos as S.
  assert (X : 0 <= z / sqrt 2).
  { apply Rmult_le_pos; [exact Hz|]. left. apply Rinv_0_lt_compat. exact S. }
  destruct (erf_real_nonneg_arg X) as [_ [E0 E1]]. lra.
Qed.

Lemma atan_nonneg (u : R) : 0 <= u -> 0 <= atan u < PI / 2.
Proof.
  intro H. split; [|apply atan_bound].
  destruct H as [H|H]; [|rewrite <- H, atan_0; lra].
  rewrite <- atan_0. left. apply atan_increasing. exact H.
Qed.

(** C7.  For every real t and every integer df >= 1, [getTPValue]
    returns a triple of finite numbers with lower + upper = 1 and
    twoSided = 2 * min(lower, upper), the two-sided value lying in
    [0, 1]. *)
Theorem getTPValue_consistent (t : R) (df : Z) :
  (1 <= df)%Z ->
  exists ts lo up : R,
    Utils.getTPValue (Fin t) (Fin (IZR df))
    = Some (Utils.mkTPValue (Fin ts) (Fin lo) (Fin up))
    /\ lo + up = 1
    /\ ts = 2 * Rmin lo up
    /\ 0 <= ts <= 1.
Proof.
  intro Hdf. unfold Utils.getTPValue. cbv zeta. unfold ngt.
  destruct (Z_lt_le_dec 100 df) as [Hbig|Hsmall].
  - (* Normal approximation *)
    rewrite nlt_fin_true by (apply IZR_lt; exact Hbig).
    js_arith. rewrite getNormalCDF_fin. js_arith.
    pose proof (@normal_cdf_upper_half (Rabs t) (Rabs_pos t)) as [P0 P1].
    set (pZ := normal_cdf (Rabs t)) in *.
    destruct (Rlt_dec t 0) as [N|N].
    + rewrite nlt_fin_true by exact N. js_arith.
      exists (2 * (1 - pZ)), pZ, (1 - pZ).
      split; [reflexivity|]. split; [ring|].
      rewrite Rmin_right by lra. split; lra.
    + rewrite nlt_fin_false by lra. js_arith.
      exists (2 * (1 - pZ)), (1 - pZ), (1 - (1 - pZ)).
      split; [reflexivity|]. split; [ring|].
      rewrite Rmin_left by lra. split; lra.
  - (* trigonometric recursion *)
    assert (D1 : 1 <= IZR df) by (apply IZR_le; exact Hdf).
    rewrite nlt_fin_false by (apply IZR_le; exact Hsmall).
    js_arith. rewrite sqrt_fin by lra.
    assert (SD : 0 < sqrt (IZR df)) by (apply sqrt_lt_R0; lra).
    rewrite ndiv_fin by lra. cbn [Math_atan].
    assert (U : 0 <= Rabs t / sqrt (IZR df)).
    { apply Rmult_le_pos; [apply Rabs_pos|].
      left. apply Rinv_0_lt_compat. exact SD. }
    pose proof (atan_nonneg U) as HT.
    destruct (@tp_two_sided_fin (atan (Rabs t / sqrt (IZR df))) df HT
                (conj Hdf Hsmall)) as (p & Hp & [P0 P1] & Pz).
    rewrite Hp. rewrite min_fin, max_fin.
    rewrite Rmin_right by exact P1. rewrite Rmax_right by exact P0.
    rewrite ndiv_fin by lra. js_arith.
    destruct (Rlt_dec t 0) as [N|N].
    + rewrite (@nlt_fin_true t 0) by exact N.
      rewrite (@nlt_fin_false 0 t) by lra.
      exists p, (1 - p / 2), (p / 2).
      split; [reflexivity|]. split; [ring|].
      rewrite Rmin_right by lra. split; lra.
    + rewrite (@nlt_fin_false t 0) by lra.
      destruct (Rlt_dec 0 t) as [Q|Q].
      * rewrite (@nlt_fin_true 0 t) by exact Q.
        exists p, (p / 2), (1 - p / 2).
        split; [reflexivity|]. split; [ring|].
        rewrite Rmin_left by lra. split; lra.
      * rewrite (@nlt_fin_false 0 t) by lra.
        assert (T0 : t = 0) by lra.
        assert (A0 : atan (Rabs t / sqrt (IZR df)) = 0).
        { rewrite T0, Rabs_R0. unfold Rdiv. rewrite Rmult_0_l. apply atan_0. }
        pose proof (Pz A0) as P1'.
        exists p, (p / 2), (p / 2).
        split; [reflexivity|]. split; [lra|].
        rewrite Rmin_left by lra. split; lra.
Qed.

Lemma getTPValue_consistent_witness :
  (1 <= 7)%Z /\
  exists ts lo up : R,
    Utils.getTPValue (Fin 2) (Fin (IZR 7))
    = Some (Utils.mkTPValue (Fin ts) (Fin lo) (Fin up))
    /\ lo + up = 1
    /\ ts = 2 * Rmin lo up
    /\ 0 <= ts <= 1.
Proof.
  split; [lia | apply (@getTPValue_consistent 2 7); lia].
Defined.

(* ================================================================== *)
(** * Further properties of the distribution approximations *)
(* ================================================================== *)

(** ** [getZCritical]: domain and monotonicity *)

Lemma zcrit_ratio_antitone (s t : R) :
  0 <= s <= t -> zcrit_num t * zcrit_den s <= zcrit_num s * zcrit_den t.
Proof.
  intros [H0 H1]. unfold zcrit_num, zcrit_den.
  assert (S2 : 0 <= s * s) by nra.
  assert (T2 : 0 <= t * t) by nra.
  assert (ST : 0 <= s * t) by nra.
  assert (A02 : s * s <= t * t) by nra.
  assert (A03 : s * s * s <= t * t * t) by (apply cube_le; lra).
  assert (A12 : t * (s * s) <= s * (t * t)) by nra.
  assert (A13 : t * (s * s * s) <= s * (t * t * t)) by nra.
  assert (A23 : t * t * (s * s * s) <= s * s * (t * t * t)).
  { assert (0 <= s * s * (t * t)) by nra. nra. }
  nra.
Qed.

Lemma zcrit_of_t_increasing (s t : R) :
  0 <= s < t -> zcrit_of_t s < zcrit_of_t t.
Proof.
  intros [H0 H1]. unfold zcrit_of_t.
  pose proof (@zcrit_den_pos s H0) as Ds.
  pose proof (@zcrit_den_pos t ltac:(lra)) as Dt.
  pose proof (@zcrit_ratio_antitone s t ltac:(lra)) as A.
  assert (Q : zcrit_num t / zcrit_den t <= zcrit_num s / zcrit_den s).
  { apply Rmult_le_reg_r with (zcrit_den t * zcrit_den s); [nra|].
    replace (zcrit_num t / zcrit_den t * (zcrit_den t * zcrit_den s))
      with (zcrit_num t * zcrit_den s) by (field; lra).
    replace (zcrit_num s / zcrit_den s * (zcrit_den t * zcrit_den s))
      with (zcrit_num s * zcrit_den t) by (field; lra).
    exact A. }
  lra.
Qed.

Lemma zcrit_t_increasing (c1 c2 : R) :
  - 100 <= c1 < c2 -> c2 < 100 -> 0 <= zcrit_t c1 < zcrit_t c2.
Proof.
  intros [H0 H1] H2. unfold zcrit_t.
  assert (L : ln ((1 - c2 / 100) / 2) < ln ((1 - c1 / 100) / 2))
    by (apply ln_increasing; lra).
  assert (L1 : ln ((1 - c1 / 100) / 2) <= 0).
  { rewrite <- ln_1. apply ln_le_mono. lra. }
  split; [apply sqrt_pos|]. apply sqrt_lt_1_alt. lra.
Qed.

Lemma zcrit_increasing (c1 c2 : R) :
  - 100 <= c1 < c2 -> c2 < 100 -> zcrit c1 < zcrit c2.
Proof.
  intros H1 H2. unfold zcrit. apply zcrit_of_t_increasing.
  apply zcrit_t_increasing; assumption.
Qed.

(** X1.  [getZCritical] is strictly increasing in the confidence level on
    its domain [-100, 100): a higher confidence never gives a smaller
    quantile. *)
Theorem getZCritical_increasing (c1 c2 : R) :
  - 100 <= c1 -> c1 < c2 -> c2 < 100 ->
  exists z1 z2 : R,
    Utils.getZCritical (Fin c1) = Fin z1
    /\ Utils.getZCritical (Fin c2) = Fin z2
    /\ z1 < z2.
Proof.
  intros H0 H1 H2. exists (zcrit c1), (zcrit c2).
  split; [apply getZCritical_fin; lra|].
  split; [apply getZCritical_fin; lra|].
  apply zcrit_increasing; lra.
Qed.

Lemma getZCritical_increasing_witness :
  - 100 <= 90 /\ 90 < 95 /\ 95 < 100 /\
  exists z1 z2 : R,
    Utils.getZCritical (Fin 90) = Fin z1
    /\ Utils.getZCritical (Fin 95) = Fin z2
    /\ z1 < z2.
Proof.
  repeat (split; [lra|]). apply (@getZCritical_increasing 90 95); lra.
Defined.

(** X2.  [getZCritical] outside its domain: for every confidence level of
    100 or more, and for every level of -100.001 or less, the result is
    NaN, not an infinity and not an error; for every level from -100 to
    99.999 it is a finite number. *)
Theorem getZCritical_domain (conf : R) :
  (- 100 <= conf <= 99.999 ->
   exists z : R, Utils.getZCritical (Fin conf) = Fin z)
  /\ (conf <= - 100.001 \/ 100 <= conf ->
      Utils.getZCritical (Fin conf) = NaN).
Proof.
  split.
  - intro H. exists (zcrit conf). apply getZCritical_fin. lra.
  - intro H.
    assert (H' : conf < - 100 \/ 100 <= conf) by lra. clear H.
    rename H' into H. unfold Utils.getZCritical. cbv zeta.
    rewrite ndiv_fin by lra. js_arith. rewrite ndiv_fin by lra. js_arith.
    replace (1 - (1 - (1 - conf / 100) / 2)) with ((1 - conf / 100) / 2)
      by lra.
    destruct H as [H|H].
    + (* the logarithm is positive, the square root undefined *)
      assert (P : 0 < ln ((1 - conf / 100) / 2)).
      { rewrite <- ln_1. apply ln_increasing; lra. }
      rewrite log_fin by lra. js_arith. unfold Math_sqrt.
      destruct (Rle_dec 0 (-2 * ln ((1 - conf / 100) / 2))) as [A|_];
        [lra|reflexivity].
    + destruct (Req_dec_T conf 100) as [E|E].
      * subst conf. unfold Math_log.
        destruct (Rlt_dec 0 ((1 - 100 / 100) / 2)) as [A|_]; [lra|].
        destruct (Req_dec_T ((1 - 100 / 100) / 2) 0) as [_|A]; [|lra].
        cbn [nmul]. unfold inf_of_sign.
        destruct (Rlt_dec 0 (- -2)) as [_|A]; [|lra].
        cbn [Math_sqrt nmul]. unfold inf_of_sign.
        repeat match goal with
               | |- context [Rlt_dec 0 ?c] =>
                   destruct (Rlt_dec 0 c) as [_|A]; [|lra]
               end.
        reflexivity.
      * unfold Math_log.
        destruct (Rlt_dec 0 ((1 - conf / 100) / 2)) as [A|_]; [lra|].
        destruct (Req_dec_T ((1 - conf / 100) / 2) 0) as [A|_]; [lra|].
        reflexivity.
Qed.

Lemma ln_80_bounds :
  -2.3025853 <= ln (IZR 1 / IZR 10) <= -2.3025848.
Proof.
  split.
  - apply ln_lower_cert with (s := (10 ^ 20)%Z) (n := 30%nat)
      (a := 100000000214444966986%Z); try lia; [lra | vm_compute; reflexivity].
  - apply ln_upper_cert with (s := (10 ^ 20)%Z) (n := 30%nat)
      (a := 99999999785555079579%Z); try lia; [lra | vm_compute; reflexivity].
Qed.

Lemma zcrit_t_80_bounds : 2.1459657 <= zcrit_t 80 <= 2.1459663.
Proof.
  unfold zcrit_t.
  replace ((1 - 80 / 100) / 2) with (IZR 1 / IZR 10) by lra.
  pose proof ln_80_bounds as [Hl Hu].
  split; [apply sqrt_lower | apply sqrt_upper]; lra.
Qed.

Lemma zcrit_80_bounds : 1.281728 <= zcrit 80 <= 1.281730.
Proof.
  pose proof zcrit_t_80_bounds as [Hl Hu].
  pose proof (@zcrit_of_t_bounds (zcrit_t 80) 2.1459657 2.1459663) as B.
  unfold zcrit. unfold zcrit_num, zcrit_den in B. lra.
Qed.

Lemma ln_90_bounds :
  -2.9957325 <= ln (IZR 1 / IZR 20) <= -2.9957320.
Proof.
  split.
  - apply ln_lower_cert with (s := (10 ^ 20)%Z) (n := 30%nat)
      (a := 100000000278999330475%Z); try lia; [lra | vm_compute; reflexivity].
  - apply ln_upper_cert with (s := (10 ^ 20)%Z) (n := 30%nat)
      (a := 99999999721000716090%Z); try lia; [lra | vm_compute; reflexivity].
Qed.

Lemma zcrit_t_90_bounds : 2.4477466 <= zcrit_t 90 <= 2.4477471.
Proof.
  unfold zcrit_t.
  replace ((1 - 90 / 100) / 2) with (IZR 1 / IZR 20) by lra.
  pose proof ln_90_bounds as [Hl Hu].
  split; [apply sqrt_lower | apply sqrt_upper]; lra.
Qed.

Lemma zcrit_90_bounds : 1.645211 <= zcrit 90 <= 1.645212.
Proof.
  pose proof zcrit_t_90_bounds as [Hl Hu].
  pose proof (@zcrit_of_t_bounds (zcrit_t 90) 2.4477466 2.4477471) as B.
  unfold zcrit. unfold zcrit_num, zcrit_den in B. lra.
Qed.

Lemma ln_99_bounds :
  -5.2983176 <= ln (IZR 1 / IZR 200) <= -5.2983171.
Proof.
  split.
  - apply ln_lower_cert with (s := (10 ^ 20)%Z) (n := 30%nat)
      (a := 100000000493444278836%Z); try lia; [lra | vm_compute; reflexivity].
  - apply ln_upper_cert with (s := (10 ^ 20)%Z) (n := 30%nat)
      (a := 99999999506555767729%Z); try lia; [lra | vm_compute; reflexivity].
Qed.

Lemma zcrit_t_99_bounds : 3.2552470 <= zcrit_t 99 <= 3.2552475.
Proof.
  unfold zcrit_t.
  replace ((1 - 99 / 100) / 2) with (IZR 1 / IZR 200) by lra.
  pose proof ln_99_bounds as [Hl Hu].
  split; [apply sqrt_lower | apply sqrt_upper]; lra.
Qed.

Lemma zcrit_99_bounds : 2.576235 <= zcrit 99 <= 2.576237.
Proof.
  pose proof zcrit_t_99_bounds as [Hl Hu].
  pose proof (@zcrit_of_t_bounds (zcrit_t 99) 3.2552470 3.2552475) as B.
  unfold zcrit. unfold zcrit_num, zcrit_den in B. lra.
Qed.

Lemma ln_99_9_bounds :
  -7.6009027 <= ln (IZR 1 / IZR 2000) <= -7.6009022.
Proof.
  split.
  - apply ln_lower_cert with (s := (10 ^ 20)%Z) (n := 30%nat)
      (a := 100000000707889227196%Z); try lia; [lra | vm_compute; reflexivity].
  - apply ln_upper_cert with (s := (10 ^ 20)%Z) (n := 30%nat)
      (a := 99999999292110819369%Z); try lia; [lra | vm_compute; reflexivity].
Qed.

Lemma zcrit_t_99_9_bounds : 3.8989490 <= zcrit_t 99.9 <= 3.8989494.
Proof.
  unfold zcrit_t.
  replace ((1 - 99.9 / 100) / 2) with (IZR 1 / IZR 2000) by lra.
  pose proof ln_99_9_bounds as [Hl Hu].
  split; [apply sqrt_lower | apply sqrt_upper]; lra.
Qed.

Lemma zcrit_99_9_bounds : 3.290760 <= zcrit 99.9 <= 3.290761.
Proof.
  pose proof zcrit_t_99_9_bounds as [Hl Hu].
  pose proof (@zcrit_of_t_bounds (zcrit_t 99.9) 3.8989490 3.8989494) as B.
  unfold zcrit. unfold zcrit_num, zcrit_den in B. lra.
Qed.

(** X3.  On the range of confidence levels the calculators accept
    (80 to 99.9 percent) the quantile is finite and lies between 1.2817
    and 3.2908. *)
Theorem getZCritical_schema_range (conf : R) :
  80 <= conf <= 99.9 ->
  exists z : R,
    Utils.getZCritical (Fin conf) = Fin z /\ 1.2817 <= z <= 3.2908.
Proof.
  intros [H0 H1]. exists (zcrit conf).
  split; [apply getZCritical_fin; lra|].
  pose proof zcrit_80_bounds as [L _]. pose proof zcrit_99_9_bounds as [_ U].
  split.
  - destruct H0 as [H0|H0]; [|rewrite <- H0; lra].
    pose proof (@zcrit_increasing 80 conf ltac:(lra) ltac:(lra)). lra.
  - destruct H1 as [H1|H1]; [|rewrite H1; lra].
    pose proof (@zcrit_increasing conf 99.9 ltac:(lra) ltac:(lra)). lra.
Qed.

Lemma getZCritical_schema_range_witness :
  80 <= 95 <= 99.9 /\
  exists z : R,
    Utils.getZCritical (Fin 95) = Fin z /\ 1.2817 <= z <= 3.2908.
Proof.
  split; [lra | apply (@getZCritical_schema_range 95); lra].
Defined.

(** X4.  At the three confidence levels that [sampleSizeProp] looks up in
    its table (90, 95, 99), the table value and [getZCritical] differ by
    less than 1e-3. *)
Theorem getZCritical_agrees_with_table (conf : R) :
  conf = 90 \/ conf = 95 \/ conf = 99 ->
  exists z v : R,
    Utils.getZCritical (Fin conf) = Fin z
    /\ SampleSizeProp.zVal (Fin conf) = Fin v
    /\ Rabs (z - v) < 0.001.
Proof.
  intro H. exists (zcrit conf).
  unfold SampleSizeProp.zVal.
  destruct H as [H|[H|H]]; subst conf.
  - exists 1.645. rewrite neq_fin_true by reflexivity.
    split; [apply getZCritical_fin; lra|]. split; [reflexivity|].
    pose proof zcrit_90_bounds. apply Rabs_def1; lra.
  - exists 1.96. rewrite neq_fin_false by lra.
    rewrite neq_fin_true by reflexivity.
    split; [apply getZCritical_fin; lra|]. split; [reflexivity|].
    pose proof zcrit_95_bounds. apply Rabs_def1; lra.
  - exists 2.576. rewrite !neq_fin_false by lra.
    rewrite neq_fin_true by reflexivity.
    split; [apply getZCritical_fin; lra|]. split; [reflexivity|].
    pose proof zcrit_99_bounds. apply Rabs_def1; lra.
Qed.

Lemma getZCritical_agrees_with_table_witness :
  (95 = 90 \/ 95 = 95 \/ 95 = 99) /\
  exists z v : R,
    Utils.getZCritical (Fin 95) = Fin z
    /\ SampleSizeProp.zVal (Fin 95) = Fin v
    /\ Rabs (z - v) < 0.001.
Proof.
  assert (H : 95 = 90 \/ 95 = 95 \/ 95 = 99) by (right; left; reflexivity).
  split; [exact H | apply (@getZCritical_agrees_with_table 95 H)].
Defined.

(** ** [getTCritical] *)

Lemma getTCritical_fin (conf df : R) :
  - 100 <= conf < 100 -> 0 < df <= 500 ->
  Utils.getTCritical (Fin conf) (Fin df)
  = Fin (tcrit_real (zcrit conf) df).
Proof.
  intros Hc [D0 D1]. unfold Utils.getTCritical, ngt. cbv zeta.
  rewrite nle_fin_false by exact D0.
  rewrite nlt_fin_false by exact D1.
  rewrite getZCritical_fin by exact Hc. js_arith.
  assert (0 < df * df) by nra. assert (0 < df * df * df) by nra.
  rewrite !ndiv_fin by lra. js_arith. reflexivity.
Qed.

Lemma getTCritical_large (conf df : R) :
  - 100 <= conf < 100 -> 500 < df ->
  Utils.getTCritical (Fin conf) (Fin df) = Fin (zcrit conf).
Proof.
  intros Hc D. unfold Utils.getTCritical, ngt. cbv zeta.
  rewrite nle_fin_false by lra. rewrite nlt_fin_true by exact D.
  apply getZCritical_fin. exact Hc.
Qed.

Lemma zcrit_ge_083 (conf : R) : 60 <= conf < 100 -> 0.83 <= zcrit conf.
Proof.
  intro H. unfold zcrit. apply zcrit_of_t_ge_083. unfold zcrit_t.
  apply sqrt_lower; [lra|].
  assert (L : ln ((1 - conf / 100) / 2) <= ln (IZR 1 / IZR 5))
    by (apply ln_le_mono; lra).
  pose proof ln_60_bounds. lra.
Qed.

(** The three correction terms are non-negative and shrink as df grows. *)
Lemma tcrit_real_antitone (z d1 d2 : R) :
  0.83 <= z -> 0 < d1 <= d2 ->
  z <= tcrit_real z d2 <= tcrit_real z d1.
Proof.
  intros Hz [D0 D1]. unfold tcrit_real. cbv zeta.
  assert (Z2 : 0.6889 <= z * z) by nra.
  set (A := z * z * z + z).
  set (B := 5 * (z * z * (z * z * z)) + 16 * (z * z * z) + 3 * z).
  set (C := 3 * (z * z * (z * z * z)) * (z * z) + 19 * (z * z * (z * z * z))
            + 17 * (z * z * z) - 15 * z).
  assert (Z3 : 0 <= z * z * z) by nra.
  assert (Z5 : 0 <= z * z * (z * z * z)) by nra.
  assert (HA : 0 <= A) by (unfold A; lra).
  assert (HB : 0 <= B) by (unfold B; lra).
  assert (HC : 0 <= C).
  { unfold C.
    replace (3 * (z * z * (z * z * z)) * (z * z) + 19 * (z * z * (z * z * z))
             + 17 * (z * z * z) - 15 * z)
      with (z * (3 * (z * z) * (z * z) * (z * z) + 19 * (z * z) * (z * z)
                 + 17 * (z * z) - 15)) by ring.
    apply Rmult_le_pos; [lra|].
    assert (0 <= (z * z) * (z * z) * (z * z)) by nra.
    assert (0.6889 * 0.6889 <= (z * z) * (z * z)) by nra. nra. }
  assert (P1 : 0 < 4 * d1) by lra. assert (P2 : 0 < 4 * d2) by lra.
  assert (Q1 : 0 < 96 * d1 * d1) by nra.
  assert (Q2 : 0 < 96 * d2 * d2) by nra.
  assert (R1 : 0 < 384 * d1 * d1 * d1) by nra.
  assert (R2 : 0 < 384 * d2 * d2 * d2).
  { assert (0 < d2 * d2) by nra. nra. }
  assert (M2 : 96 * d1 * d1 <= 96 * d2 * d2) by nra.
  assert (M3 : 384 * d1 * d1 * d1 <= 384 * d2 * d2 * d2).
  { pose proof (@cube_le d1 d2 ltac:(lra)). lra. }
  assert (TA : 0 <= A / (4 * d2) <= A / (4 * d1)).
  { split; [apply Rmult_le_pos; [lra|left; apply Rinv_0_lt_compat; lra]|].
    apply Rdiv_le_mono; lra. }
  assert (TB : 0 <= B / (96 * d2 * d2) <= B / (96 * d1 * d1)).
  { split; [apply Rmult_le_pos; [lra|left; apply Rinv_0_lt_compat; lra]|].
    apply Rdiv_le_mono; lra. }
  assert (TC : 0 <= C / (384 * d2 * d2 * d2) <= C / (384 * d1 * d1 * d1)).
  { split; [apply Rmult_le_pos; [lra|left; apply Rinv_0_lt_compat; lra]|].
    apply Rdiv_le_mono; lra. }
  lra.
Qed.

(** X5.  For confidence levels from 60 percent up and positive degrees of
    freedom, [getTCritical] is finite, never below the Normal quantile
    of the same confidence, and never increases when the degrees of
    freedom increase (including across the switch to the Normal quantile
    above df = 500). *)
Theorem getTCritical_antitone_in_df (conf d1 d2 : R) :
  60 <= conf < 100 -> 0 < d1 -> d1 <= d2 ->
  exists t1 t2 z : R,
    Utils.getTCritical (Fin conf) (Fin d1) = Fin t1
    /\ Utils.getTCritical (Fin conf) (Fin d2) = Fin t2
    /\ Utils.getZCritical (Fin conf) = Fin z
    /\ 0 < z <= t2 /\ t2 <= t1.
Proof.
  intros Hc D0 D1.
  pose proof (zcrit_ge_083 Hc) as Hz.
  assert (Hc' : - 100 <= conf < 100) by lra.
  destruct (Rle_lt_dec d2 500) as [S2|L2].
  - exists (tcrit_real (zcrit conf) d1), (tcrit_real (zcrit conf) d2),
      (zcrit conf).
    rewrite !getTCritical_fin by lra. rewrite getZCritical_fin by exact Hc'.
    repeat (split; [reflexivity|]).
    pose proof (@tcrit_real_antitone (zcrit conf) d1 d2 Hz ltac:(lra)).
    lra.
  - destruct (Rle_lt_dec d1 500) as [S1|L1].
    + exists (tcrit_real (zcrit conf) d1), (zcrit conf), (zcrit conf).
      rewrite getTCritical_fin by lra. rewrite getTCritical_large by lra.
      rewrite getZCritical_fin by exact Hc'.
      repeat (split; [reflexivity|]).
      pose proof (@tcrit_real_antitone (zcrit conf) d1 d1 Hz ltac:(lra)).
      lra.
    + exists (zcrit conf), (zcrit conf), (zcrit conf).
      rewrite !getTCritical_large by lra.
      rewrite getZCritical_fin by exact Hc'.
      repeat (split; [reflexivity|]). lra.
Qed.

Lemma getTCritical_antitone_in_df_witness :
  60 <= 95 < 100 /\ 0 < 10 /\ 10 <= 30 /\
  exists t1 t2 z : R,
    Utils.getTCritical (Fin 95) (Fin 10) = Fin t1
    /\ Utils.getTCritical (Fin 95) (Fin 30) = Fin t2
    /\ Utils.getZCritical (Fin 95) = Fin z
    /\ 0 < z <= t2 /\ t2 <= t1.
Proof.
  repeat (split; [lra|]).
  apply (@getTCritical_antitone_in_df 95 10 30); lra.
Defined.

(** ** [getNormalCDF]: monotonicity, range and symmetry *)

Lemma deriv_monomial (a : R) (k : nat) (x : R) :
  derivable_pt_lim (fun y => a * y ^ k) x (a * (INR k * x ^ pred k)).
Proof.
  apply (derivable_pt_lim_scal (fun y => y ^ k) a x).
  apply derivable_pt_lim_pow.
Qed.

Lemma deriv_erf_poly (x : R) : derivable_pt_lim erf_poly x (erf_poly' x).
Proof.
  pose proof (deriv_monomial 0.254829592 1 x) as D1.
  pose proof (deriv_monomial (-0.284496736) 2 x) as D2.
  pose proof (deriv_monomial 1.421413741 3 x) as D3.
  pose proof (deriv_monomial (-1.453152027) 4 x) as D4.
  pose proof (deriv_monomial 1.061405429 5 x) as D5.
  pose proof (derivable_pt_lim_plus _ _ x _ _
                (derivable_pt_lim_plus _ _ x _ _
                   (derivable_pt_lim_plus _ _ x _ _
                      (derivable_pt_lim_plus _ _ x _ _ D1 D2) D3) D4) D5)
    as D.
  eapply derivable_pt_lim_ext; [|
    replace (erf_poly' x)
      with (0.254829592 * (INR 1 * x ^ pred 1)
            + -0.284496736 * (INR 2 * x ^ pred 2)
            + 1.421413741 * (INR 3 * x ^ pred 3)
            + -1.453152027 * (INR 4 * x ^ pred 4)
            + 1.061405429 * (INR 5 * x ^ pred 5)); [exact D|]].
  - intro z. unfold plus_fct, erf_poly. ring.
  - unfold erf_poly'. simpl. ring.
Qed.

Lemma erf_poly'_pos (t : R) : 0 < erf_poly' t.
Proof.
  unfold erf_poly'.
  assert (A : 0 < 0.254829592 - 0.568993472 * t + t * t).
  { pose proof (Rle_0_sqr (t - 0.284496736)). unfold Rsqr in *. nra. }
  assert (B : 0 < 3.264241223 - 5.812608108 * t + 5.307027145 * (t * t)).
  { pose proof (Rle_0_sqr (t - 0.5476)). unfold Rsqr in *. nra. }
  assert (T2 : 0 <= t * t) by nra.
  nra.
Qed.

Lemma erf_poly_mono (s t : R) : s <= t -> erf_poly s <= erf_poly t.
Proof.
  intros [H|H]; [|rewrite H; lra].
  destruct (MVT_cor2 erf_poly erf_poly' s t H) as (c & Hc & _).
  { intros y _. apply deriv_erf_poly. }
  pose proof (erf_poly'_pos c). nra.
Qed.

(** The approximation on non-negative arguments. *)
Lemma erf_real_mono_nonneg (x y : R) :
  0 <= x <= y -> erf_real x <= erf_real y.
Proof.
  intros [H0 H1].
  destruct (@erf_real_nonneg_arg x H0) as [Ex _].
  destruct (@erf_real_nonneg_arg y ltac:(lra)) as [Ey _].
  rewrite Ex, Ey.
  set (tx := 1 / (1 + 0.3275911 * x)). set (ty := 1 / (1 + 0.3275911 * y)).
  assert (Ty : 0 <= ty).
  { unfold ty. apply Rmult_le_pos; [lra|].
    left. apply Rinv_0_lt_compat. nra. }
  assert (Txy : ty <= tx).
  { unfold tx, ty. apply Rinv_le_swap. nra. }
  pose proof (erf_poly_mono Txy) as P.
  pose proof (@erf_poly_nonneg ty Ty) as P0.
  assert (E : exp (- y * y) <= exp (- x * x)).
  { destruct (Req_dec_T x y) as [Q|Q]; [rewrite Q; lra|].
    left. apply exp_increasing. nra. }
  assert (E0 : 0 < exp (- y * y)) by apply exp_pos.
  nra.
Qed.

Lemma erf_real_neg (x : R) : x < 0 -> erf_real x = - erf_real (- x).
Proof.
  intro H. unfold erf_real.
  destruct (Rlt_dec x 0) as [_|N]; [|lra].
  destruct (Rlt_dec (- x) 0) as [N|_]; [lra|].
  rewrite Rabs_Ropp. ring.
Qed.

Lemma erf_real_mono (x y : R) : x <= y -> erf_real x <= erf_real y.
Proof.
  intro H. destruct (Rlt_dec x 0) as [Nx|Px]; destruct (Rlt_dec y 0) as [Ny|Py].
  - rewrite (erf_real_neg Nx), (erf_real_neg Ny).
    pose proof (@erf_real_mono_nonneg (- y) (- x) ltac:(lra)). lra.
  - rewrite (erf_real_neg Nx).
    destruct (@erf_real_nonneg_arg (- x) ltac:(lra)) as [_ [A _]].
    destruct (@erf_real_nonneg_arg y ltac:(lra)) as [_ [B _]]. lra.
  - lra.
  - apply erf_real_mono_nonneg. lra.
Qed.

Lemma erf_real_range (x : R) : - 1 <= erf_real x <= 1.
Proof.
  destruct (Rlt_dec x 0) as [N|P].
  - rewrite (erf_real_neg N).
    destruct (@erf_real_nonneg_arg (- x) ltac:(lra)) as [_ [A B]]. lra.
  - destruct (@erf_real_nonneg_arg x ltac:(lra)) as [_ [A B]]. lra.
Qed.

Lemma div_sqrt2_mono (x y : R) : x <= y -> x / sqrt 2 <= y / sqrt 2.
Proof.
  intro H. pose proof sqrt2_pos. unfold Rdiv.
  apply Rmult_le_compat_r; [left; apply Rinv_0_lt_compat; lra|exact H].
Qed.

Lemma normal_cdf_mono (x y : R) : x <= y -> normal_cdf x <= normal_cdf y.
Proof.
  intro H. unfold normal_cdf.
  pose proof (erf_real_mono (div_sqrt2_mono H)). lra.
Qed.

Lemma normal_cdf_range (z : R) : 0 <= normal_cdf z <= 1.
Proof. unfold normal_cdf. pose proof (erf_real_range (z / sqrt 2)). lra. Qed.

Lemma normal_cdf_opp (z : R) : z <> 0 -> normal_cdf (- z) = 1 - normal_cdf z.
Proof.
  intro H. unfold normal_cdf. pose proof sqrt2_pos as S.
  assert (I : 0 < / sqrt 2) by (apply Rinv_0_lt_compat; exact S).
  replace (- z / sqrt 2) with (- (z / sqrt 2)) by (unfold Rdiv; ring).
  destruct (Rlt_dec z 0) as [N|P].
  - assert (Q : z / sqrt 2 < 0) by (unfold Rdiv; nra).
    rewrite (erf_real_neg Q). lra.
  - assert (Q : - (z / sqrt 2) < 0) by (unfold Rdiv; nra).
    rewrite (erf_real_neg Q). rewrite Ropp_involutive. lra.
Qed.

(** X6.  [getNormalCDF] is non-decreasing: a larger z never gets a
    smaller probability. *)
Theorem getNormalCDF_monotone (x y : R) :
  x <= y ->
  exists p q : R,
    Utils.getNormalCDF (Fin x) = Fin p
    /\ Utils.getNormalCDF (Fin y) = Fin q
    /\ p <= q.
Proof.
  intro H. exists (normal_cdf x), (normal_cdf y).
  rewrite !getNormalCDF_fin. repeat (split; [reflexivity|]).
  apply normal_cdf_mono. exact H.
Qed.

Lemma getNormalCDF_monotone_witness :
  - 1 <= 2 /\
  exists p q : R,
    Utils.getNormalCDF (Fin (- 1)) = Fin p
    /\ Utils.getNormalCDF (Fin 2) = Fin q
    /\ p <= q.
Proof.
  split; [lra | apply (@getNormalCDF_monotone (- 1) 2); lra].
Defined.

(** X7.  For every argument other than NaN, infinite ones included,
    [getNormalCDF] returns a finite probability in [0, 1]; it is exactly 1
    at +Infinity and 0 at -Infinity, and NaN only for NaN. *)
Theorem getNormalCDF_range (z : num) :
  (z <> NaN ->
   exists p : R, Utils.getNormalCDF z = Fin p /\ 0 <= p <= 1)
  /\ Utils.getNormalCDF PInf = Fin 1
  /\ Utils.getNormalCDF NInf = Fin 0
  /\ Utils.getNormalCDF NaN = NaN.
Proof.
  pose proof sqrt2_pos as S.
  assert (EP : Utils.getNormalCDF PInf = Fin 1).
  { unfold Utils.getNormalCDF. rewrite sqrt_fin by lra.
    unfold ndiv, inf_of_sign0.
    destruct (Rlt_dec (sqrt 2) 0) as [A|_]; [lra|].
    unfold Utils.erf. cbv zeta. cbn [nlt Math_abs nmul]. unfold inf_of_sign.
    destruct (Rlt_dec 0 0.3275911) as [_|A]; [|lra].
    cbn [nadd ndiv nopp nmul Math_exp nsub]. f_equal. lra. }
  assert (EN : Utils.getNormalCDF NInf = Fin 0).
  { unfold Utils.getNormalCDF. rewrite sqrt_fin by lra.
    unfold ndiv, inf_of_sign0.
    destruct (Rlt_dec (sqrt 2) 0) as [A|_]; [lra|].
    cbn [nopp].
    unfold Utils.erf. cbv zeta. cbn [nlt Math_abs nmul]. unfold inf_of_sign.
    destruct (Rlt_dec 0 0.3275911) as [_|A]; [|lra].
    cbn [nadd ndiv nopp nmul Math_exp nsub]. f_equal. lra. }
  split; [|split; [exact EP|split; [exact EN|]]].
  - intro H. destruct z as [r| | |].
    + exists (normal_cdf r). rewrite getNormalCDF_fin.
      split; [reflexivity|apply normal_cdf_range].
    + exists 1. split; [exact EP|lra].
    + exists 0. split; [exact EN|lra].
    + contradiction.
  - unfold Utils.getNormalCDF. rewrite sqrt_fin by lra. reflexivity.
Qed.

(** X8.  Symmetry: for every z other than 0, the probabilities of z and
    of -z add up to 1. *)
Theorem getNormalCDF_symmetry (z : R) :
  z <> 0 ->
  exists p q : R,
    Utils.getNormalCDF (Fin z) = Fin p
    /\ Utils.getNormalCDF (Fin (- z)) = Fin q
    /\ p + q = 1.
Proof.
  intro H. exists (normal_cdf z), (normal_cdf (- z)).
  rewrite !getNormalCDF_fin. repeat (split; [reflexivity|]).
  rewrite (normal_cdf_opp H). ring.
Qed.

Lemma getNormalCDF_symmetry_witness :
  2 <> 0 /\
  exists p q : R,
    Utils.getNormalCDF (Fin 2) = Fin p
    /\ Utils.getNormalCDF (Fin (- 2)) = Fin q
    /\ p + q = 1.
Proof.
  split; [lra | apply (@getNormalCDF_symmetry 2); lra].
Defined.

(** ** Chi-square p-value and quantile *)

Lemma pow_third_fin (x : R) :
  0 < x -> Math_pow (Fin x) (ndiv (Fin 1) (Fin 3)) = Fin (Rpower x (1 / 3)).
Proof.
  intro H. rewrite ndiv_fin by lra. unfold Math_pow, pow_fin.
  rewrite is_int_third.
  destruct (Rlt_dec 0 x) as [_|N]; [reflexivity|contradiction].
Qed.

Lemma getChiSqPValue_fin (chi2 df : R) :
  0 < chi2 -> 0 < df ->
  Utils.getChiSqPValue (Fin chi2) (Fin df)
  = Fin (chisq_pvalue_real chi2 df).
Proof.
  intros Hc Hdf. unfold Utils.getChiSqPValue. cbv zeta.
  rewrite nle_fin_false by exact Hc.
  rewrite (@ndiv_fin chi2 df) by lra.
  assert (Q : 0 < chi2 / df) by (apply Rdiv_lt_0_compat; assumption).
  rewrite pow_third_fin by exact Q. js_arith.
  rewrite !(@ndiv_fin 2) by lra. js_arith.
  assert (P : 0 < 2 / (9 * df)) by (apply Rdiv_lt_0_compat; lra).
  rewrite sqrt_fin by lra. pose proof (sqrt_lt_R0 _ P).
  rewrite ndiv_fin by lra. rewrite getNormalCDF_fin. js_arith. reflexivity.
Qed.

Lemma getChiSqPValue_nonpos (chi2 df : R) :
  chi2 <= 0 -> Utils.getChiSqPValue (Fin chi2) (Fin df) = Fin 1.
Proof.
  intro H. unfold Utils.getChiSqPValue.
  rewrite nle_fin_true by exact H. reflexivity.
Qed.

Lemma chisq_pvalue_real_antitone (c1 c2 df : R) :
  0 < c1 <= c2 -> 0 < df ->
  chisq_pvalue_real c2 df <= chisq_pvalue_real c1 df.
Proof.
  intros [H0 H1] Hdf. unfold chisq_pvalue_real.
  assert (P : 0 < 2 / (9 * df)) by (apply Rdiv_lt_0_compat; lra).
  pose proof (sqrt_lt_R0 _ P) as S.
  assert (I : 0 < / df) by (apply Rinv_0_lt_compat; exact Hdf).
  assert (Q : Rpower (c1 / df) (1 / 3) <= Rpower (c2 / df) (1 / 3)).
  { apply Rle_Rpower_l; [lra|]. unfold Rdiv. split; nra. }
  assert (M : (Rpower (c1 / df) (1 / 3) - (1 - 2 / (9 * df)))
              / sqrt (2 / (9 * df))
              <= (Rpower (c2 / df) (1 / 3) - (1 - 2 / (9 * df)))
                 / sqrt (2 / (9 * df))).
  { unfold Rdiv at 1 3. apply Rmult_le_compat_r; [|lra].
    left. apply Rinv_0_lt_compat. exact S. }
  pose proof (normal_cdf_mono M). lra.
Qed.

Lemma getChiSqPValue_tot (c df : R) :
  0 < df ->
  Utils.getChiSqPValue (Fin c) (Fin df) = Fin (chisq_pvalue_tot c df).
Proof.
  intro Hdf. unfold chisq_pvalue_tot. destruct (Rle_dec c 0) as [N|P].
  - apply getChiSqPValue_nonpos. exact N.
  - apply getChiSqPValue_fin; lra.
Qed.

Lemma chisq_pvalue_tot_range (c df : R) : 0 <= chisq_pvalue_tot c df <= 1.
Proof.
  unfold chisq_pvalue_tot. destruct (Rle_dec c 0) as [N|P]; [lra|].
  unfold chisq_pvalue_real.
  pose proof (normal_cdf_range
                ((Rpower (c / df) (1 / 3) - (1 - 2 / (9 * df)))
                 / sqrt (2 / (9 * df)))). lra.
Qed.

Lemma chisq_pvalue_tot_antitone (c1 c2 df : R) :
  0 < df -> c1 <= c2 -> chisq_pvalue_tot c2 df <= chisq_pvalue_tot c1 df.
Proof.
  intros Hdf H. pose proof (chisq_pvalue_tot_range c2 df) as R2.
  unfold chisq_pvalue_tot in *.
  destruct (Rle_dec c1 0) as [N1|P1]; destruct (Rle_dec c2 0) as [N2|P2];
    try lra.
  apply chisq_pvalue_real_antitone; lra.
Qed.

(** X9.  For positive degrees of freedom [getChiSqPValue] always returns
    a finite probability in [0, 1]; it is 1 for every statistic that is
    zero or negative, and it never increases when the statistic
    increases. *)
Theorem getChiSqPValue_range_and_antitone (c1 c2 df : R) :
  0 < df -> c1 <= c2 ->
  exists p1 p2 : R,
    Utils.getChiSqPValue (Fin c1) (Fin df) = Fin p1
    /\ Utils.getChiSqPValue (Fin c2) (Fin df) = Fin p2
    /\ 0 <= p2 <= p1 /\ p1 <= 1
    /\ (c1 <= 0 -> p1 = 1).
Proof.
  intros Hdf H.
  exists (chisq_pvalue_tot c1 df), (chisq_pvalue_tot c2 df).
  rewrite !getChiSqPValue_tot by exact Hdf.
  repeat (split; [reflexivity|]).
  pose proof (chisq_pvalue_tot_range c1 df).
  pose proof (chisq_pvalue_tot_range c2 df).
  pose proof (chisq_pvalue_tot_antitone Hdf H).
  split; [lra|]. split; [lra|].
  intro N. unfold chisq_pvalue_tot.
  destruct (Rle_dec c1 0); [reflexivity|contradiction].
Qed.

Lemma getChiSqPValue_range_and_antitone_witness :
  0 < 1 /\ 0 <= 4 /\
  exists p1 p2 : R,
    Utils.getChiSqPValue (Fin 0) (Fin 1) = Fin p1
    /\ Utils.getChiSqPValue (Fin 4) (Fin 1) = Fin p2
    /\ 0 <= p2 <= p1 /\ p1 <= 1
    /\ (0 <= 0 -> p1 = 1).
Proof.
  repeat (split; [lra|]).
  apply (@getChiSqPValue_range_and_antitone 0 4 1); lra.
Defined.

(** X10.  Composition of the two chi-square functions: for every
    probability p in (0, 1) and every df >= 1, the p-value of the
    critical value equals the upper Normal tail at the quantile that
    [getZCritical] returns for the two-sided confidence 100 (1 - p): it
    does not depend on df, and it is not p. *)
Theorem chisq_round_trip_is_normal_tail (p df : R) :
  0 < p < 1 -> 1 <= df ->
  Utils.getChiSqPValue (Utils.getChiSqCritical (Fin p) (Fin df)) (Fin df)
  = nsub (Fin 1)
      (Utils.getNormalCDF
         (Utils.getZCritical (nmul (nsub (Fin 1) (Fin p)) (Fin 100)))).
Proof.
  intros Hp Hdf. rewrite chisq_round_trip_any_df by assumption.
  js_arith. rewrite getZCritical_fin by lra. rewrite getNormalCDF_fin.
  reflexivity.
Qed.

Lemma chisq_round_trip_is_normal_tail_witness :
  0 < 0.05 < 1 /\ 1 <= 4 /\
  Utils.getChiSqPValue (Utils.getChiSqCritical (Fin 0.05) (Fin 4)) (Fin 4)
  = nsub (Fin 1)
      (Utils.getNormalCDF
         (Utils.getZCritical (nmul (nsub (Fin 1) (Fin 0.05)) (Fin 100)))).
Proof.
  split; [lra|]. split; [lra|].
  apply (@chisq_round_trip_is_normal_tail 0.05 4); lra.
Defined.

Lemma cube_lt (x y : R) : x < y -> x * x * x < y * y * y.
Proof.
  intro H.
  assert (Q : 0 < x * x + x * y + y * y).
  { destruct (Req_dec_T x 0) as [Z|Z].
    - subst x. nra.
    - pose proof (Rle_0_sqr (x + y)). unfold Rsqr in *. nra. }
  assert (0 < (y - x) * (x * x + x * y + y * y)) by (apply Rmult_lt_0_compat; lra).
  nra.
Qed.

Lemma zcrit_ge_m001 (conf : R) : 0 <= conf < 100 -> - 0.01 <= zcrit conf.
Proof.
  intro H. unfold zcrit. apply zcrit_of_t_ge_m001. unfold zcrit_t.
  apply sqrt_lower; [lra|].
  assert (L : ln ((1 - conf / 100) / 2) <= ln (IZR 1 / IZR 2))
    by (apply ln_le_mono; lra).
  pose proof ln_0_bounds. lra.
Qed.

Lemma chisq_scale_bounds (df : R) :
  1 <= df -> 0 < sqrt (2 / (9 * df)) <= 1 / 2.
Proof.
  intro H.
  assert (P : 0 < 2 / (9 * df)) by (apply Rdiv_lt_0_compat; lra).
  split; [apply sqrt_lt_R0; exact P|].
  apply sqrt_upper; [lra|].
  apply Rmult_le_reg_r with (9 * df); [lra|].
  unfold Rdiv. rewrite Rmult_assoc, Rinv_l by lra. lra.
Qed.

Lemma sqrt_sq_eq (x : R) : 0 <= x -> sqrt x * sqrt x = x.
Proof. intro H. apply sqrt_sqrt. exact H. Qed.

(** X11.  For df >= 1, [getChiSqCritical] is finite and positive on
    probabilities in (0, 1) and strictly decreasing in the probability:
    it behaves as an upper-tail critical value. *)
Theorem getChiSqCritical_decreasing (p1 p2 df : R) :
  0 < p1 -> p1 < p2 -> p2 < 1 -> 1 <= df ->
  exists x1 x2 : R,
    Utils.getChiSqCritical (Fin p1) (Fin df) = Fin x1
    /\ Utils.getChiSqCritical (Fin p2) (Fin df) = Fin x2
    /\ 0 < x2 < x1.
Proof.
  intros H0 H1 H2 Hdf. exists (chisq_crit p1 df), (chisq_crit p2 df).
  rewrite !getChiSqCritical_fin by lra. repeat (split; [reflexivity|]).
  unfold chisq_crit, chisq_inner. cbv zeta.
  pose proof (chisq_scale_bounds Hdf) as [S0 S1].
  assert (P : 0 <= 2 / (9 * df)).
  { apply Rmult_le_pos; [lra|]. left. apply Rinv_0_lt_compat. lra. }
  pose proof (sqrt_sq_eq P) as SQ.
  set (s := sqrt (2 / (9 * df))) in *. rewrite <- SQ.
  pose proof (@zcrit_ge_m001 ((1 - p2) * 100) ltac:(lra)) as Z2.
  pose proof (@zcrit_increasing ((1 - p2) * 100) ((1 - p1) * 100)
                ltac:(lra) ltac:(lra)) as Z12.
  set (z1 := zcrit ((1 - p1) * 100)) in *.
  set (z2 := zcrit ((1 - p2) * 100)) in *.
  assert (I2 : 0 < 1 - s * s + z2 * s) by nra.
  assert (I12 : 1 - s * s + z2 * s < 1 - s * s + z1 * s) by nra.
  pose proof (cube_lt I12) as C.
  assert (C2 : 0 < (1 - s * s + z2 * s) * (1 - s * s + z2 * s)
                   * (1 - s * s + z2 * s)).
  { repeat apply Rmult_lt_0_compat; exact I2. }
  split; nra.
Qed.

Lemma getChiSqCritical_decreasing_witness :
  0 < 0.025 /\ 0.025 < 0.975 /\ 0.975 < 1 /\ 1 <= 10 /\
  exists x1 x2 : R,
    Utils.getChiSqCritical (Fin 0.025) (Fin 10) = Fin x1
    /\ Utils.getChiSqCritical (Fin 0.975) (Fin 10) = Fin x2
    /\ 0 < x2 < x1.
Proof.
  repeat (split; [lra|]).
  apply (@getChiSqCritical_decreasing 0.025 0.975 10); lra.
Defined.

(** ** Byar's interval: Poisson rate and standardized ratio *)

Lemma inv_sqrt_sq (m : R) : 0 < m ->
  0 < sqrt (1 / m) /\ sqrt (1 / m) * sqrt (1 / m) = 1 / m.
Proof.
  intro H. assert (P : 0 < 1 / m) by (apply Rdiv_lt_0_compat; lra).
  split; [apply sqrt_lt_R0; exact P|apply sqrt_sqrt; lra].
Qed.

Lemma byar_upper_inner_gt_1 (z s : R) :
  0.83 <= z -> 0 < s -> s * s <= 2 -> 1 < 1 - s * s / 9 + z / 3 * s.
Proof.
  intros Hz Hs H2.
  assert (s < 1.5) by nra.
  assert (0 < s * (z / 3 - s / 9)) by (apply Rmult_lt_0_compat; lra).
  lra.
Qed.

Lemma byar_lower_inner_cube (z s : R) :
  0.83 <= z -> 0 < s -> s * s <= 2 / 3 ->
  let l := 1 - s * s / 9 + -1 * (z / 3 * s) in
  l * l * l < 1 - s * s / 2.
Proof.
  intros Hz Hs H2 l.
  assert (S1 : s < 1) by nra.
  set (q := 1 - 0.27 * s).
  assert (Lq : l < q) by (unfold l, q; nra).
  pose proof (cube_lt Lq) as C.
  assert (Q : q * q * q <= 1 - s * s / 2).
  { unfold q.
    replace ((1 - 0.27 * s) * (1 - 0.27 * s) * (1 - 0.27 * s))
      with (1 - 0.81 * s + 0.2187 * (s * s) - 0.019683 * (s * s * s)) by lra.
    assert (0 <= s * s * s) by (repeat apply Rmult_le_pos; lra).
    assert (s * s <= s) by nra. nra. }
  lra.
Qed.

Lemma div_lt_div_pos (x y T : R) : 0 < T -> x < y -> x / T < y / T.
Proof.
  intros HT H. unfold Rdiv. apply Rmult_lt_compat_r; [|exact H].
  apply Rinv_0_lt_compat. exact HT.
Qed.

(** X12.  Byar's interval of [ciRatePoisson]: for k >= 0 events, positive
    person-time and a confidence of at least 60 the two bounds are finite,
    the lower one is below the upper one and the observed rate is below
    the upper one; from one event on the observed rate is strictly inside
    the interval. *)
Theorem byar_interval_contains_rate (k T conf : R) :
  0 <= k -> 0 < T -> 60 <= conf -> conf < 100 ->
  let v := CiRatePoisson.compute (Fin k) (Fin T) (Fin conf) in
  exists l r u : R,
    CiRatePoisson.byarLower v = Fin l
    /\ CiRatePoisson.rate v = Fin r
    /\ CiRatePoisson.byarUpper v = Fin u
    /\ l < u /\ r < u /\ (1 <= k -> l < r).
Proof.
  intros Hk HT Hc0 Hc1 v.
  destruct (@byar_bounds_fin k T conf Hk ltac:(lra) ltac:(lra)) as [EL EU].
  exists (byar_bound (-1) (zcrit conf) k T), (k / T),
         (byar_bound 1 (zcrit conf) k T).
  split; [exact EL|]. split; [apply poisson_rate_fin; lra|].
  split; [exact EU|].
  pose proof (@zcrit_ge_083 conf ltac:(lra)) as Hz.
  unfold byar_bound, byar_inner. cbv zeta.
  destruct (@inv_sqrt_sq (k + 0.5) ltac:(lra)) as [S0 SQ].
  set (s := sqrt (1 / (k + 0.5))) in *.
  set (z := zcrit conf) in *.
  assert (E9 : 1 / (9 * (k + 0.5)) = s * s / 9).
  { rewrite SQ. field. lra. }
  rewrite E9.
  assert (M : (k + 0.5) * (s * s) = 1) by (rewrite SQ; field; lra).
  assert (S2 : s * s <= 2).
  { rewrite SQ. apply Rmult_le_reg_r with (k + 0.5); [lra|].
    unfold Rdiv. rewrite Rmult_assoc, Rinv_l by lra. lra. }
  pose proof (byar_upper_inner_gt_1 Hz S0 S2) as U1.
  set (u := 1 - s * s / 9 + 1 * (z / 3 * s)) in *.
  set (l := 1 - s * s / 9 + -1 * (z / 3 * s)).
  assert (U1' : 1 < u) by (unfold u; lra).
  assert (LU : l < u) by (unfold l, u; nra).
  pose proof (cube_lt LU) as CLU.
  assert (U3 : 1 < u * u * u).
  { pose proof (@cube_lt 1 u U1'). lra. }
  split; [|split].
  - apply div_lt_div_pos; [exact HT|].
    apply Rmult_lt_compat_l; [lra|exact CLU].
  - apply div_lt_div_pos; [exact HT|]. nra.
  - intro K1. apply div_lt_div_pos; [exact HT|].
    assert (S3 : s * s <= 2 / 3).
    { rewrite SQ. apply Rmult_le_reg_r with (k + 0.5); [lra|].
      unfold Rdiv. rewrite Rmult_assoc, Rinv_l by lra. lra. }
    pose proof (byar_lower_inner_cube Hz S0 S3) as C. cbv zeta in C.
    fold l in C.
    assert ((k + 0.5) * (l * l * l) < (k + 0.5) * (1 - s * s / 2))
      by (apply Rmult_lt_compat_l; lra).
    nra.
Qed.

Lemma byar_interval_contains_rate_witness :
  0 <= 5 /\ 0 < 1000 /\ 60 <= 95 /\ 95 < 100 /\
  let v := CiRatePoisson.compute (Fin 5) (Fin 1000) (Fin 95) in
  exists l r u : R,
    CiRatePoisson.byarLower v = Fin l
    /\ CiRatePoisson.rate v = Fin r
    /\ CiRatePoisson.byarUpper v = Fin u
    /\ l < u /\ r < u /\ (1 <= 5 -> l < r).
Proof.
  repeat (split; [lra|]).
  apply (@byar_interval_contains_rate 5 1000 95); lra.
Defined.

Lemma smr_parts (n : R) : 1 <= n ->
  0 < sqrt n /\ sqrt n * sqrt n = n /\ 1 <= sqrt n.
Proof.
  intro H. split; [apply sqrt_lt_R0; lra|]. split; [apply sqrt_sqrt; lra|].
  rewrite <- sqrt_1. apply sqrt_le_1_alt. exact H.
Qed.

Lemma smr_fin (o e : R) : 1 <= o -> 0 < e ->
  StandardizedRates.compute (Fin o) (Fin e)
  = StandardizedRates.mkValues (Fin (o / e))
      (Fin (o * (let l := 1 - 1 / (9 * o) - 1.96 / (3 * sqrt o) in l * l * l)
            / e))
      (Fin ((o + 1)
            * (let u := 1 - 1 / (9 * (o + 1)) + 1.96 / (3 * sqrt (o + 1)) in
               u * u * u) / e)).
Proof.
  intros Ho He. unfold StandardizedRates.compute. cbv zeta.
  rewrite neq_fin_false by lra.
  destruct (smr_parts Ho) as (S0 & _ & _).
  destruct (@smr_parts (o + 1) ltac:(lra)) as (T0 & _ & _).
  js_arith. rewrite !sqrt_fin by lra. js_arith.
  rewrite !ndiv_fin by lra. js_arith. rewrite !pow_fin_3. js_arith.
  rewrite !ndiv_fin by lra. reflexivity.
Qed.

Lemma smr_zero (e : R) : 0 < e ->
  StandardizedRates.compute (Fin 0) (Fin e)
  = StandardizedRates.mkValues (Fin 0) (Fin 0)
      (Fin ((0 + 1)
            * (let u := 1 - 1 / (9 * (0 + 1)) + 1.96 / (3 * sqrt (0 + 1)) in
               u * u * u) / e)).
Proof.
  intros He. unfold StandardizedRates.compute. cbv zeta.
  rewrite neq_fin_true by reflexivity.
  destruct (@smr_parts (0 + 1) ltac:(lra)) as (T0 & _ & _).
  js_arith. rewrite !sqrt_fin by lra. js_arith.
  rewrite !ndiv_fin by lra. js_arith. rewrite !pow_fin_3. js_arith.
  rewrite !ndiv_fin by lra. f_equal. f_equal. lra.
Qed.

Lemma smr_upper_inner (n : R) : 1 <= n ->
  1 < 1 - 1 / (9 * n) + 1.96 / (3 * sqrt n).
Proof.
  intro H. destruct (smr_parts H) as (S0 & SQ & S1).
  assert (E : 1 / (9 * n) = / sqrt n * (/ sqrt n) / 9).
  { rewrite <- SQ at 1. field. lra. }
  assert (F : 1.96 / (3 * sqrt n) = 1.96 / 3 * / sqrt n) by (field; lra).
  rewrite E, F.
  assert (I0 : 0 < / sqrt n) by (apply Rinv_0_lt_compat; exact S0).
  assert (I1 : / sqrt n <= 1).
  { rewrite <- Rinv_1. apply Rinv_le_contravar; lra. }
  nra.
Qed.

Lemma smr_lower_inner (n : R) : 1 <= n ->
  0 < 1 - 1 / (9 * n) - 1.96 / (3 * sqrt n) < 1.
Proof.
  intro H. destruct (smr_parts H) as (S0 & SQ & S1).
  assert (E : 1 / (9 * n) = / sqrt n * (/ sqrt n) / 9).
  { rewrite <- SQ at 1. field. lra. }
  assert (F : 1.96 / (3 * sqrt n) = 1.96 / 3 * / sqrt n) by (field; lra).
  rewrite E, F.
  assert (I0 : 0 < / sqrt n) by (apply Rinv_0_lt_compat; exact S0).
  assert (I1 : / sqrt n <= 1).
  { rewrite <- Rinv_1. apply Rinv_le_contravar; lra. }
  nra.
Qed.

(** X13.  The standardized ratio (SMR/SIR) and its Byar interval: for an
    observed count that is 0 or at least 1 and a positive expected count,
    the three numbers are finite with 0 <= lower <= ratio < upper; the
    lower bound is 0 exactly when nothing was observed. *)
Theorem standardized_ratio_interval (o e : R) :
  o = 0 \/ 1 <= o -> 0 < e ->
  let v := StandardizedRates.compute (Fin o) (Fin e) in
  exists l r u : R,
    StandardizedRates.lower v = Fin l
    /\ StandardizedRates.ratio v = Fin r
    /\ StandardizedRates.upper v = Fin u
    /\ 0 <= l <= r /\ r < u /\ (l = 0 <-> o = 0).
Proof.
  intros Ho He v. unfold v. destruct Ho as [Z|Ho].
  - subst o. rewrite smr_zero by exact He.
    eexists _, _, _. repeat (split; [reflexivity|]).
    pose proof (@smr_upper_inner (0 + 1) ltac:(lra)) as U. cbv zeta.
    set (u := 1 - 1 / (9 * (0 + 1)) + 1.96 / (3 * sqrt (0 + 1))) in *.
    pose proof (@cube_lt 1 u U) as C.
    split; [lra|]. split; [|tauto].
    apply Rdiv_lt_0_compat; lra.
  - rewrite smr_fin by assumption.
    eexists _, _, _. repeat (split; [reflexivity|]).
    simpl StandardizedRates.lower. cbv zeta.
    pose proof (smr_lower_inner Ho) as [L0 L1].
    pose proof (@smr_upper_inner (o + 1) ltac:(lra)) as U.
    set (l := 1 - 1 / (9 * o) - 1.96 / (3 * sqrt o)) in *.
    set (u := 1 - 1 / (9 * (o + 1)) + 1.96 / (3 * sqrt (o + 1))) in *.
    pose proof (@cube_lt 1 u U) as CU.
    pose proof (@cube_lt l 1 L1) as CL.
    pose proof (@cube_lt 0 l L0) as CL0.
    assert (P : 0 < o * (l * l * l)) by (apply Rmult_lt_0_compat; lra).
    assert (PL : 0 < o * (l * l * l) / e) by (apply Rdiv_lt_0_compat; lra).
    assert (LR : o * (l * l * l) / e < o / e).
    { apply div_lt_div_pos; [exact He|]. nra. }
    assert (RU : o / e < (o + 1) * (u * u * u) / e).
    { apply div_lt_div_pos; [exact He|]. nra. }
    split; [lra|]. split; [exact RU|]. split; intro; lra.
Qed.

Lemma standardized_ratio_interval_witness :
  (45 = 0 \/ 1 <= 45) /\ 0 < 32.5 /\
  let v := StandardizedRates.compute (Fin 45) (Fin 32.5) in
  exists l r u : R,
    StandardizedRates.lower v = Fin l
    /\ StandardizedRates.ratio v = Fin r
    /\ StandardizedRates.upper v = Fin u
    /\ 0 <= l <= r /\ r < u /\ (l = 0 <-> 45 = 0).
Proof.
  split; [right; lra|]. split; [lra|].
  apply (@standardized_ratio_interval 45 32.5); [right; lra|lra].
Defined.

(** ** Ratio measures on arbitrary non-negative tables *)

Lemma corrected_table_positive (a b c d : R) :
  0 <= a -> 0 <= b -> 0 <= c -> 0 <= d ->
  exists a' b' c' d' : R,
    EpiUtils.applyContinuityCorrection
      (EpiUtils.mkTable (Fin a) (Fin b) (Fin c) (Fin d))
    = EpiUtils.mkTable (Fin a') (Fin b') (Fin c') (Fin d')
    /\ 0 < a' /\ 0 < b' /\ 0 < c' /\ 0 < d'
    /\ ((a' = a /\ b' = b /\ c' = c /\ d' = d)
        \/ (a' = a + 0.5 /\ b' = b + 0.5 /\ c' = c + 0.5 /\ d' = d + 0.5)).
Proof.
  intros Ha Hb Hc Hd.
  destruct (Req_dec_T a 0) as [Za|Na];
    [|destruct (Req_dec_T b 0) as [Zb|Nb];
      [|destruct (Req_dec_T c 0) as [Zc|Nc];
        [|destruct (Req_dec_T d 0) as [Zd|Nd]]]].
  5: { exists a, b, c, d. rewrite correction_without_zero by assumption.
       split; [reflexivity|]. repeat (split; [lra|]). left. tauto. }
  all: exists (a + 0.5), (b + 0.5), (c + 0.5), (d + 0.5);
    rewrite correction_with_zero by tauto;
    split; [reflexivity|]; repeat (split; [lra|]); right; tauto.
Qed.

Lemma log_interval (v z s : R) :
  0 < v -> 0 < z -> 0 < s ->
  0 < exp (ln v - z * s) < v
  /\ v < exp (ln v + z * s)
  /\ exp (ln v - z * s) * exp (ln v + z * s) = v * v.
Proof.
  intros Hv Hz Hs.
  assert (P : 0 < z * s) by (apply Rmult_lt_0_compat; assumption).
  pose proof (exp_pos (ln v - z * s)) as E0.
  assert (L : exp (ln v - z * s) < exp (ln v)) by (apply exp_increasing; lra).
  assert (U : exp (ln v) < exp (ln v + z * s)) by (apply exp_increasing; lra).
  rewrite exp_ln in L, U by exact Hv.
  split; [lra|]. split; [exact U|].
  rewrite <- exp_plus.
  replace (ln v - z * s + (ln v + z * s)) with (ln v + ln v) by lra.
  rewrite exp_plus, exp_ln by exact Hv. reflexivity.
Qed.

Lemma rr_real_pos (a b c d : R) :
  0 < a -> 0 < b -> 0 < c -> 0 < d -> 0 < rr_real a b c d.
Proof.
  intros. unfold rr_real.
  repeat apply Rdiv_lt_0_compat; lra.
Qed.

Lemma inv_gap_pos (x y : R) : 0 < x -> 0 < y -> 0 < 1 / x - 1 / (x + y).
Proof.
  intros Hx Hy.
  replace (1 / x - 1 / (x + y)) with (y / (x * (x + y))) by (field; lra).
  apply Rdiv_lt_0_compat; [lra|]. apply Rmult_lt_0_compat; lra.
Qed.

Lemma rr_se_pos (a b c d : R) :
  0 < a -> 0 < b -> 0 < c -> 0 < d -> 0 < rr_se a b c d.
Proof.
  intros Ha Hb Hc Hd. unfold rr_se. apply sqrt_lt_R0.
  pose proof (inv_gap_pos Ha Hb). pose proof (inv_gap_pos Hc Hd). lra.
Qed.

Lemma or_real_pos (a b c d : R) :
  0 < a -> 0 < b -> 0 < c -> 0 < d -> 0 < or_real a b c d.
Proof.
  intros. unfold or_real.
  apply Rdiv_lt_0_compat; apply Rmult_lt_0_compat; lra.
Qed.

Lemma or_se_pos (a b c d : R) :
  0 < a -> 0 < b -> 0 < c -> 0 < d -> 0 < or_se a b c d.
Proof.
  intros Ha Hb Hc Hd. unfold or_se. apply sqrt_lt_R0.
  assert (forall x, 0 < x -> 0 < 1 / x)
    by (intros; apply Rdiv_lt_0_compat; lra).
  pose proof (H a Ha). pose proof (H b Hb). pose proof (H c Hc).
  pose proof (H d Hd). lra.
Qed.

(** X14.  [computeRR] on every table of non-negative counts, at a
    confidence of at least 60: the estimate and both bounds are finite,
    0 < lower < value < upper, and the interval is symmetric on the log
    scale (lower * upper = value^2).  The continuity correction is what
    makes this hold with zero cells. *)
Theorem computeRR_interval (a b c d conf : R) :
  0 <= a -> 0 <= b -> 0 <= c -> 0 <= d -> 60 <= conf -> conf < 100 ->
  exists v l u : R,
    EpiUtils.computeRR (EpiUtils.mkTable (Fin a) (Fin b) (Fin c) (Fin d))
      (Fin conf)
    = EpiUtils.mkEstimate (Fin v) (Fin l) (Fin u)
    /\ 0 < l /\ l < v /\ v < u /\ l * u = v * v.
Proof.
  intros Ha Hb Hc Hd C0 C1.
  destruct (corrected_table_positive Ha Hb Hc Hd)
    as (a' & b' & c' & d' & E & Pa & Pb & Pc & Pd & _).
  eexists _, _, _. split.
  - apply (@rr_on_positive _ a' b' c' d' conf E); lra.
  - pose proof (@zcrit_ge_083 conf ltac:(lra)) as Hz.
    destruct (@log_interval (rr_real a' b' c' d') (zcrit conf)
                (rr_se a' b' c' d'))
      as ([L0 L1] & U & P);
      [apply rr_real_pos; assumption|lra|apply rr_se_pos; assumption|].
    tauto.
Qed.

Lemma computeRR_interval_witness :
  0 <= 0 /\ 0 <= 10 /\ 0 <= 0 /\ 0 <= 10 /\ 60 <= 95 /\ 95 < 100 /\
  exists v l u : R,
    EpiUtils.computeRR (EpiUtils.mkTable (Fin 0) (Fin 10) (Fin 0) (Fin 10))
      (Fin 95)
    = EpiUtils.mkEstimate (Fin v) (Fin l) (Fin u)
    /\ 0 < l /\ l < v /\ v < u /\ l * u = v * v.
Proof.
  repeat (split; [lra|]).
  apply (@computeRR_interval 0 10 0 10 95); lra.
Defined.

(** X15.  [computeOR] on every table of non-negative counts, at a
    confidence of at least 60: finite, 0 < lower < value < upper, and
    lower * upper = value^2. *)
Theorem computeOR_interval (a b c d conf : R) :
  0 <= a -> 0 <= b -> 0 <= c -> 0 <= d -> 60 <= conf -> conf < 100 ->
  exists v l u : R,
    EpiUtils.computeOR (EpiUtils.mkTable (Fin a) (Fin b) (Fin c) (Fin d))
      (Fin conf)
    = EpiUtils.mkEstimate (Fin v) (Fin l) (Fin u)
    /\ 0 < l /\ l < v /\ v < u /\ l * u = v * v.
Proof.
  intros Ha Hb Hc Hd C0 C1.
  destruct (corrected_table_positive Ha Hb Hc Hd)
    as (a' & b' & c' & d' & E & Pa & Pb & Pc & Pd & _).
  eexists _, _, _. split.
  - apply (@or_on_positive _ a' b' c' d' conf E); lra.
  - pose proof (@zcrit_ge_083 conf ltac:(lra)) as Hz.
    destruct (@log_interval (or_real a' b' c' d') (zcrit conf)
                (or_se a' b' c' d'))
      as ([L0 L1] & U & P);
      [apply or_real_pos; assumption|lra|apply or_se_pos; assumption|].
    tauto.
Qed.

Lemma computeOR_interval_witness :
  0 <= 12 /\ 0 <= 0 /\ 0 <= 7 /\ 0 <= 30 /\ 60 <= 90 /\ 90 < 100 /\
  exists v l u : R,
    EpiUtils.computeOR (EpiUtils.mkTable (Fin 12) (Fin 0) (Fin 7) (Fin 30))
      (Fin 90)
    = EpiUtils.mkEstimate (Fin v) (Fin l) (Fin u)
    /\ 0 < l /\ l < v /\ v < u /\ l * u = v * v.
Proof.
  repeat (split; [lra|]).
  apply (@computeOR_interval 12 0 7 30 90); lra.
Defined.

Lemma exp_opp_inv (x : R) : exp (- x) = 1 / exp x.
Proof. rewrite exp_Ropp. unfold Rdiv. lra. Qed.

Lemma ln_inv_div (x : R) : 0 < x -> ln (1 / x) = - ln x.
Proof. intro H. unfold Rdiv. rewrite Rmult_1_l. apply ln_Rinv. exact H. Qed.

(** X16.  Exchanging the exposed and the unexposed row inverts the risk
    ratio of [computeRR]: the new value is the reciprocal of the old one,
    and the new bounds are the reciprocals of the old upper and lower
    bound. *)
Theorem computeRR_row_swap (a b c d conf : R) :
  0 <= a -> 0 <= b -> 0 <= c -> 0 <= d -> -100 <= conf -> conf < 100 ->
  exists v l u : R,
    EpiUtils.computeRR (EpiUtils.mkTable (Fin a) (Fin b) (Fin c) (Fin d))
      (Fin conf)
    = EpiUtils.mkEstimate (Fin v) (Fin l) (Fin u)
    /\ 0 < v /\ 0 < l /\ 0 < u
    /\ EpiUtils.computeRR (EpiUtils.mkTable (Fin c) (Fin d) (Fin a) (Fin b))
         (Fin conf)
       = EpiUtils.mkEstimate (Fin (1 / v)) (Fin (1 / u)) (Fin (1 / l)).
Proof.
  intros Ha Hb Hc Hd C0 C1.
  destruct (corrected_table_positive Ha Hb Hc Hd)
    as (a' & b' & c' & d' & E & Pa & Pb & Pc & Pd & K).
  assert (E' : EpiUtils.applyContinuityCorrection
                 (EpiUtils.mkTable (Fin c) (Fin d) (Fin a) (Fin b))
               = EpiUtils.mkTable (Fin c') (Fin d') (Fin a') (Fin b')).
  { destruct K as [(-> & -> & -> & ->)|(-> & -> & -> & ->)].
    - apply correction_without_zero; lra.
    - destruct (Req_dec_T a 0); [|destruct (Req_dec_T b 0);
        [|destruct (Req_dec_T c 0); [|destruct (Req_dec_T d 0)]]];
        try (apply correction_with_zero; tauto).
      exfalso. rewrite correction_without_zero in E by assumption.
      injection E. lra. }
  eexists _, _, _. split;
    [apply (@rr_on_positive _ a' b' c' d' conf E); lra|].
  split; [apply rr_real_pos; assumption|].
  split; [apply exp_pos|]. split; [apply exp_pos|].
  rewrite (@rr_on_positive _ c' d' a' b' conf E') by lra.
  pose proof (rr_real_pos Pa Pb Pc Pd) as V.
  assert (R : rr_real c' d' a' b' = 1 / rr_real a' b' c' d').
  { unfold rr_real. field. lra. }
  assert (S : rr_se c' d' a' b' = rr_se a' b' c' d').
  { unfold rr_se. f_equal. lra. }
  rewrite R, S, ln_inv_div by exact V.
  set (v := rr_real a' b' c' d'). set (w := zcrit conf * rr_se a' b' c' d').
  replace (- ln v - w) with (- (ln v + w)) by lra.
  replace (- ln v + w) with (- (ln v - w)) by lra.
  rewrite !exp_opp_inv. reflexivity.
Qed.

Lemma computeRR_row_swap_witness :
  0 <= 20 /\ 0 <= 80 /\ 0 <= 10 /\ 0 <= 90 /\ -100 <= 95 /\ 95 < 100 /\
  exists v l u : R,
    EpiUtils.computeRR (EpiUtils.mkTable (Fin 20) (Fin 80) (Fin 10) (Fin 90))
      (Fin 95)
    = EpiUtils.mkEstimate (Fin v) (Fin l) (Fin u)
    /\ 0 < v /\ 0 < l /\ 0 < u
    /\ EpiUtils.computeRR
         (EpiUtils.mkTable (Fin 10) (Fin 90) (Fin 20) (Fin 80)) (Fin 95)
       = EpiUtils.mkEstimate (Fin (1 / v)) (Fin (1 / u)) (Fin (1 / l)).
Proof.
  repeat (split; [lra|]).
  apply (@computeRR_row_swap 20 80 10 90 95); lra.
Defined.

(** X17.  The odds ratio of [computeOR] does not depend on which margin
    is called exposure: transposing the table (exchanging b and c) gives
    the same estimate and the same bounds. *)
Theorem computeOR_transpose (a b c d conf : R) :
  0 <= a -> 0 <= b -> 0 <= c -> 0 <= d -> -100 <= conf -> conf < 100 ->
  EpiUtils.computeOR (EpiUtils.mkTable (Fin a) (Fin c) (Fin b) (Fin d))
    (Fin conf)
  = EpiUtils.computeOR (EpiUtils.mkTable (Fin a) (Fin b) (Fin c) (Fin d))
      (Fin conf).
Proof.
  intros Ha Hb Hc Hd C0 C1.
  destruct (corrected_table_positive Ha Hb Hc Hd)
    as (a' & b' & c' & d' & E & Pa & Pb & Pc & Pd & K).
  assert (E' : EpiUtils.applyContinuityCorrection
                 (EpiUtils.mkTable (Fin a) (Fin c) (Fin b) (Fin d))
               = EpiUtils.mkTable (Fin a') (Fin c') (Fin b') (Fin d')).
  { destruct K as [(-> & -> & -> & ->)|(-> & -> & -> & ->)].
    - apply correction_without_zero; lra.
    - destruct (Req_dec_T a 0); [|destruct (Req_dec_T b 0);
        [|destruct (Req_dec_T c 0); [|destruct (Req_dec_T d 0)]]];
        try (apply correction_with_zero; tauto).
      exfalso. rewrite correction_without_zero in E by assumption.
      injection E. lra. }
  rewrite (@or_on_positive _ a' b' c' d' conf E) by lra.
  rewrite (@or_on_positive _ a' c' b' d' conf E') by lra.
  assert (R : or_real a' c' b' d' = or_real a' b' c' d').
  { unfold or_real. f_equal. lra. }
  assert (S : or_se a' c' b' d' = or_se a' b' c' d').
  { unfold or_se. f_equal. lra. }
  rewrite R, S. reflexivity.
Qed.

Lemma computeOR_transpose_witness :
  0 <= 20 /\ 0 <= 80 /\ 0 <= 0 /\ 0 <= 90 /\ -100 <= 95 /\ 95 < 100 /\
  EpiUtils.computeOR (EpiUtils.mkTable (Fin 20) (Fin 0) (Fin 80) (Fin 90))
    (Fin 95)
  = EpiUtils.computeOR (EpiUtils.mkTable (Fin 20) (Fin 80) (Fin 0) (Fin 90))
      (Fin 95).
Proof.
  repeat (split; [lra|]).
  apply (@computeOR_transpose 20 80 0 90 95); lra.
Defined.

(** ** Risk difference, NNT and the uncorrected measures *)


Lemma risk_unit (x y : R) : 0 <= x -> 0 <= y -> 0 < x + y ->
  0 <= x / (x + y) <= 1.
Proof.
  intros Hx Hy Hs.
  assert (I : 0 < / (x + y)) by (apply Rinv_0_lt_compat; exact Hs).
  split.
  - unfold Rdiv. apply Rmult_le_pos; lra.
  - apply Rmult_le_reg_r with (x + y); [exact Hs|].
    unfold Rdiv. rewrite Rmult_assoc, Rinv_l by lra. lra.
Qed.

Lemma rd_real_range (a b c d : R) :
  0 <= a -> 0 <= b -> 0 <= c -> 0 <= d -> 0 < a + b -> 0 < c + d ->
  -1 <= rd_real a b c d <= 1.
Proof.
  intros Ha Hb Hc Hd Hab Hcd. unfold rd_real.
  pose proof (risk_unit Ha Hb Hab). pose proof (risk_unit Hc Hd Hcd). lra.
Qed.



(** X18.  The interval of [computeRD] on a table of non-negative counts
    with two non-empty rows, at a confidence of at least 60: the
    difference lies in [-1, 1], the interval is centred on it and
    contains it, and it collapses to the single point 0 when neither
    group has an event. *)
Theorem computeRD_interval (a b c d conf : R) :
  0 <= a -> 0 <= b -> 0 <= c -> 0 <= d -> 0 < a + b -> 0 < c + d ->
  60 <= conf -> conf < 100 ->
  let r := EpiUtils.computeRD
             (EpiUtils.mkTable (Fin a) (Fin b) (Fin c) (Fin d)) (Fin conf) in
  exists v l u : R,
    EpiUtils.rd_value r = Fin v /\ EpiUtils.rd_lower r = Fin l
    /\ EpiUtils.rd_upper r = Fin u
    /\ -1 <= v <= 1 /\ l <= v <= u /\ v - l = u - v
    /\ (a = 0 -> c = 0 -> l = 0 /\ v = 0 /\ u = 0).
Proof.
  intros Ha Hb Hc Hd Hab Hcd C0 C1 r.
  destruct (@rd_on_raw a b c d conf Ha Hb Hc Hd Hab Hcd ltac:(lra))
    as (EV & EL & EU).
  eexists _, _, _. split; [exact EV|]. split; [exact EL|].
  split; [exact EU|].
  pose proof (rd_real_range Ha Hb Hc Hd Hab Hcd) as RG.
  pose proof (@zcrit_ge_083 conf ltac:(lra)) as Hz.
  assert (S0 : 0 <= rd_se a b c d) by (unfold rd_se; apply sqrt_pos).
  assert (P : 0 <= zcrit conf * rd_se a b c d)
    by (apply Rmult_le_pos; lra).
  split; [exact RG|]. split; [lra|]. split; [lra|].
  intros Za Zc. subst a c.
  assert (V : rd_real 0 b 0 d = 0) by (unfold rd_real; lra).
  assert (S : rd_se 0 b 0 d = 0).
  { unfold rd_se.
    replace (0 / (0 + b) * (1 - 0 / (0 + b)) / (0 + b)
             + 0 / (0 + d) * (1 - 0 / (0 + d)) / (0 + d)) with 0
      by (unfold Rdiv; ring).
    apply sqrt_0. }
  rewrite V, S. lra.
Qed.

Lemma computeRD_interval_witness :
  0 <= 0 /\ 0 <= 40 /\ 0 <= 0 /\ 0 <= 60 /\ 0 < 0 + 40 /\ 0 < 0 + 60 /\
  60 <= 95 /\ 95 < 100 /\
  let r := EpiUtils.computeRD
             (EpiUtils.mkTable (Fin 0) (Fin 40) (Fin 0) (Fin 60)) (Fin 95) in
  exists v l u : R,
    EpiUtils.rd_value r = Fin v /\ EpiUtils.rd_lower r = Fin l
    /\ EpiUtils.rd_upper r = Fin u
    /\ -1 <= v <= 1 /\ l <= v <= u /\ v - l = u - v
    /\ (0 = 0 -> 0 = 0 -> l = 0 /\ v = 0 /\ u = 0).
Proof.
  repeat (split; [lra|]).
  apply (@computeRD_interval 0 40 0 60 95); lra.
Defined.



(** ** Uncorrected measures and clinical impact *)

(** X20.  On a table without a zero cell, the uncorrected calculator
    [epiMeasures] and the utilities [computeRR] and [computeOR] report
    the same relative risk and the same odds ratio. *)
Theorem epiMeasures_agrees_on_positive (a b c d conf : R) :
  0 < a -> 0 < b -> 0 < c -> 0 < d -> -100 <= conf -> conf < 100 ->
  let t := EpiUtils.mkTable (Fin a) (Fin b) (Fin c) (Fin d) in
  let m := EpiMeasures.compute (Fin a) (Fin c) (Fin b) (Fin d) in
  EpiMeasures.rr m = EpiUtils.value (EpiUtils.computeRR t (Fin conf))
  /\ EpiMeasures.or m = EpiUtils.value (EpiUtils.computeOR t (Fin conf)).
Proof.
  intros Ha Hb Hc Hd C0 C1 t m. unfold t, m.
  assert (E : EpiUtils.applyContinuityCorrection
                (EpiUtils.mkTable (Fin a) (Fin b) (Fin c) (Fin d))
              = EpiUtils.mkTable (Fin a) (Fin b) (Fin c) (Fin d))
    by (apply correction_without_zero; lra).
  rewrite (@rr_on_positive _ a b c d conf E) by lra.
  rewrite (@or_on_positive _ a b c d conf E) by lra.
  cbn [EpiUtils.value]. unfold EpiMeasures.compute. cbv zeta.
  cbn [EpiMeasures.rr EpiMeasures.or]. js_arith.
  assert (0 < c / (c + d)) by (apply Rdiv_lt_0_compat; lra).
  assert (0 < b * c) by (apply Rmult_lt_0_compat; lra).
  rewrite !ndiv_fin by lra. split; reflexivity.
Qed.

Lemma epiMeasures_agrees_on_positive_witness :
  0 < 20 /\ 0 < 80 /\ 0 < 10 /\ 0 < 90 /\ -100 <= 95 /\ 95 < 100 /\
  let t := EpiUtils.mkTable (Fin 20) (Fin 80) (Fin 10) (Fin 90) in
  let m := EpiMeasures.compute (Fin 20) (Fin 10) (Fin 80) (Fin 90) in
  EpiMeasures.rr m = EpiUtils.value (EpiUtils.computeRR t (Fin 95))
  /\ EpiMeasures.or m = EpiUtils.value (EpiUtils.computeOR t (Fin 95)).
Proof.
  repeat (split; [lra|]).
  apply (@epiMeasures_agrees_on_positive 20 80 10 90 95); lra.
Defined.

(** X21.  With a zero cell the two disagree: [epiMeasures] applies no
    correction, so its odds ratio is 0, +Infinity or NaN, never a
    positive number, whereas [computeOR] still reports a positive finite
    value. *)
Theorem epiMeasures_zero_cell (a b c d : R) :
  0 <= a -> 0 <= b -> 0 <= c -> 0 <= d ->
  a = 0 \/ b = 0 \/ c = 0 \/ d = 0 ->
  let o := EpiMeasures.or
             (EpiMeasures.compute (Fin a) (Fin c) (Fin b) (Fin d)) in
  (b * c <> 0 -> o = Fin 0)
  /\ (b * c = 0 -> 0 < a * d -> o = PInf)
  /\ (b * c = 0 -> a * d = 0 -> o = NaN)
  /\ exists v : R,
       EpiUtils.value
         (EpiUtils.computeOR
            (EpiUtils.mkTable (Fin a) (Fin b) (Fin c) (Fin d)) (Fin 95))
       = Fin v /\ 0 < v.
Proof.
  intros Ha Hb Hc Hd Z o. unfold o, EpiMeasures.compute. cbv zeta.
  cbn [EpiMeasures.or]. js_arith.
  split; [|split; [|split]].
  - intro N. rewrite ndiv_fin by exact N. f_equal.
    assert (a * d = 0).
    { destruct Z as [Z|[Z|[Z|Z]]]; subst; try lra; exfalso; apply N; lra. }
    unfold Rdiv. rewrite H. lra.
  - intros E P. rewrite E. apply ndiv_zero_pos. exact P.
  - intros E P. rewrite E, P. unfold ndiv, inf_of_sign.
    destruct (Req_dec_T 0 0) as [_|N]; [|contradiction].
    destruct (Rlt_dec 0 0); [lra|reflexivity].
  - destruct (corrected_table_positive Ha Hb Hc Hd)
      as (a' & b' & c' & d' & E & Pa & Pb & Pc & Pd & _).
    rewrite (@or_on_positive _ a' b' c' d' 95 E) by lra.
    eexists. split; [reflexivity|]. apply or_real_pos; assumption.
Qed.

Lemma epiMeasures_zero_cell_witness :
  0 <= 5 /\ 0 <= 0 /\ 0 <= 3 /\ 0 <= 7 /\
  (5 = 0 \/ 0 = 0 \/ 3 = 0 \/ 7 = 0) /\
  let o := EpiMeasures.or
             (EpiMeasures.compute (Fin 5) (Fin 3) (Fin 0) (Fin 7)) in
  (0 * 3 <> 0 -> o = Fin 0)
  /\ (0 * 3 = 0 -> 0 < 5 * 7 -> o = PInf)
  /\ (0 * 3 = 0 -> 5 * 7 = 0 -> o = NaN)
  /\ exists v : R,
       EpiUtils.value
         (EpiUtils.computeOR
            (EpiUtils.mkTable (Fin 5) (Fin 0) (Fin 3) (Fin 7)) (Fin 95))
       = Fin v /\ 0 < v.
Proof.
  repeat (split; [lra|]).
  apply (@epiMeasures_zero_cell 5 0 3 7); lra.
Defined.




(** X23.  The relative risk reduction of [screeningImpact] is never
    negative: it is |Rc - Re| / Rc, so a higher risk among the exposed is
    reported as a positive reduction.  With a control risk of 0 it is not
    a number at all: NaN when both risks are 0, +Infinity otherwise. *)
Theorem screeningImpact_rrr (re rc : R) :
  0 <= re -> 0 <= rc ->
  let x := ScreeningImpact.rrr (ScreeningImpact.compute (Fin re) (Fin rc)) in
  (0 < rc -> x = Fin (Rabs (rc - re) / rc) /\ 0 <= Rabs (rc - re) / rc)
  /\ (rc = 0 -> re = 0 -> x = NaN)
  /\ (rc = 0 -> 0 < re -> x = PInf).
Proof.
  intros E0 C0 x. unfold x, ScreeningImpact.compute. cbv zeta.
  cbn [ScreeningImpact.rrr]. js_arith. split; [|split].
  - intro P. rewrite ndiv_fin by lra. split; [reflexivity|].
    unfold Rdiv. apply Rmult_le_pos; [apply Rabs_pos|].
    left. apply Rinv_0_lt_compat. exact P.
  - intros -> ->. replace (0 - 0) with 0 by lra. rewrite Rabs_R0.
    unfold ndiv, inf_of_sign.
    destruct (Req_dec_T 0 0) as [_|N]; [|contradiction].
    destruct (Rlt_dec 0 0); [lra|reflexivity].
  - intros -> P. apply ndiv_zero_pos. apply Rabs_pos_lt. lra.
Qed.

Lemma screeningImpact_rrr_witness :
  0 <= 0.12 /\ 0 <= 0.05 /\
  let x := ScreeningImpact.rrr
             (ScreeningImpact.compute (Fin 0.12) (Fin 0.05)) in
  (0 < 0.05 -> x = Fin (Rabs (0.05 - 0.12) / 0.05)
               /\ 0 <= Rabs (0.05 - 0.12) / 0.05)
  /\ (0.05 = 0 -> 0.12 = 0 -> x = NaN)
  /\ (0.05 = 0 -> 0 < 0.12 -> x = PInf).
Proof.
  repeat (split; [lra|]).
  apply (@screeningImpact_rrr 0.12 0.05); lra.
Defined.

(** ** Intervals for a proportion: Wald, Wilson, Wilson with correction *)

Lemma lt_of_sq (a b : R) : 0 <= b -> a * a < b * b -> a < b.
Proof. intros Hb H. destruct (Rlt_le_dec a b) as [L|L]; [exact L|nra]. Qed.

(** Real forms of the Wald and Wilson bounds. *)
Lemma prop_unit (x n : R) : 0 <= x <= n -> 0 < n ->
  0 <= x / n <= 1 /\ 0 <= x / n * (1 - x / n) / n.
Proof.
  intros [H0 H1] Hn.
  assert (I : 0 < / n) by (apply Rinv_0_lt_compat; exact Hn).
  assert (P0 : 0 <= x / n) by (unfold Rdiv; apply Rmult_le_pos; lra).
  assert (P1 : x / n <= 1).
  { apply Rmult_le_reg_r with n; [exact Hn|].
    unfold Rdiv. rewrite Rmult_assoc, Rinv_l by lra. lra. }
  split; [lra|]. unfold Rdiv at 1. apply Rmult_le_pos; [|lra].
  apply Rmult_le_pos; lra.
Qed.

Lemma ciProportion_wald_fin (x n conf : R) :
  0 <= x <= n -> 0 < n -> -100 <= conf < 100 ->
  let v := CiProportion.compute (Fin x) (Fin n) (Fin conf) in
  let p := x / n in
  CiProportion.p v = Fin p
  /\ CiProportion.wLow v = Fin (p - zcrit conf * sqrt (p * (1 - p) / n))
  /\ CiProportion.wHigh v = Fin (p + zcrit conf * sqrt (p * (1 - p) / n)).
Proof.
  intros Hx Hn Hc v p. unfold v, CiProportion.compute. cbv zeta.
  cbn [CiProportion.p CiProportion.wLow CiProportion.wHigh].
  rewrite getZCritical_fin by exact Hc.
  rewrite !(@ndiv_fin x n) by lra. js_arith.
  rewrite !ndiv_fin by lra.
  destruct (prop_unit Hx Hn) as [_ Q].
  rewrite sqrt_fin by exact Q. js_arith. repeat split; reflexivity.
Qed.

Lemma ciProportion_wilson_fin (x n conf : R) :
  0 <= x <= n -> 0 < n -> -100 <= conf < 100 ->
  let v := CiProportion.compute (Fin x) (Fin n) (Fin conf) in
  let p := x / n in
  let z := zcrit conf in
  let w := z * sqrt (p * (1 - p) / n + z * z / (4 * n * n)) in
  CiProportion.wilsonLow v
  = Fin ((p + z * z / (2 * n) - w) / (1 + z * z / n))
  /\ CiProportion.wilsonHigh v
     = Fin ((p + z * z / (2 * n) + w) / (1 + z * z / n)).
Proof.
  intros Hx Hn Hc v p z w. unfold v, CiProportion.compute. cbv zeta.
  cbn [CiProportion.wilsonLow CiProportion.wilsonHigh].
  rewrite getZCritical_fin by exact Hc. fold z.
  rewrite !(@ndiv_fin x n) by lra. fold p. js_arith.
  assert (N4 : 4 * n * n <> 0) by (apply Rgt_not_eq; nra).
  rewrite !(@ndiv_fin (z * z)) by lra.
  rewrite !(@ndiv_fin (p * (1 - p))) by lra. js_arith.
  destruct (prop_unit Hx Hn) as [_ Q]. fold p in Q.
  assert (Z4 : 0 <= z * z / (4 * n * n)).
  { unfold Rdiv. apply Rmult_le_pos; [apply Rle_0_sqr|].
    left. apply Rinv_0_lt_compat. nra. }
  rewrite sqrt_fin by lra. js_arith. fold w.
  assert (D : 0 < 1 + z * z / n).
  { assert (0 <= z * z / n);
      [unfold Rdiv; apply Rmult_le_pos;
       [apply Rle_0_sqr|left; apply Rinv_0_lt_compat; exact Hn]|lra]. }
  rewrite !ndiv_fin by lra. split; reflexivity.
Qed.

(** X24.  The Wald interval of [ciProportion] for 0 <= x <= n and a
    confidence of at least 60: it is centred on the observed proportion
    and contains it, and it has zero width when x = 0 or x = n. *)
Theorem wald_interval (x n conf : R) :
  0 <= x -> x <= n -> 0 < n -> 60 <= conf -> conf < 100 ->
  let v := CiProportion.compute (Fin x) (Fin n) (Fin conf) in
  exists p l u : R,
    CiProportion.p v = Fin p /\ CiProportion.wLow v = Fin l
    /\ CiProportion.wHigh v = Fin u
    /\ l <= p <= u /\ p - l = u - p
    /\ (x = 0 \/ x = n -> l = p /\ u = p).
Proof.
  intros H0 H1 Hn C0 C1 v.
  destruct (@ciProportion_wald_fin x n conf ltac:(lra) Hn ltac:(lra))
    as (EP & EL & EU).
  eexists _, _, _. split; [exact EP|]. split; [exact EL|].
  split; [exact EU|].
  pose proof (@zcrit_ge_083 conf ltac:(lra)) as Hz.
  pose proof (sqrt_pos (x / n * (1 - x / n) / n)) as S.
  assert (P : 0 <= zcrit conf * sqrt (x / n * (1 - x / n) / n))
    by (apply Rmult_le_pos; lra).
  split; [lra|]. split; [lra|].
  intro B.
  assert (Z : x / n * (1 - x / n) / n = 0).
  { destruct B as [B|B]; subst x.
    - unfold Rdiv. ring.
    - replace (n / n) with 1 by (field; lra). unfold Rdiv. ring. }
  rewrite Z, sqrt_0. lra.
Qed.

Lemma wald_interval_witness :
  0 <= 0 /\ 0 <= 20 /\ 0 < 20 /\ 60 <= 95 /\ 95 < 100 /\
  let v := CiProportion.compute (Fin 0) (Fin 20) (Fin 95) in
  exists p l u : R,
    CiProportion.p v = Fin p /\ CiProportion.wLow v = Fin l
    /\ CiProportion.wHigh v = Fin u
    /\ l <= p <= u /\ p - l = u - p
    /\ (0 = 0 \/ 0 = 20 -> l = p /\ u = p).
Proof.
  repeat (split; [lra|]).
  apply (@wald_interval 0 20 95); lra.
Defined.

Lemma wilson_real_bounds (p A w : R) :
  0 < p < 1 -> 0 < A -> 0 <= w ->
  w * w = A * (p * (1 - p)) + A * A / 4 ->
  0 < (p + A / 2 - w) / (1 + A)
  /\ (p + A / 2 - w) / (1 + A) < p
  /\ p < (p + A / 2 + w) / (1 + A)
  /\ (p + A / 2 + w) / (1 + A) < 1.
Proof.
  intros [P0 P1] HA Hw E.
  assert (I : 0 < / (1 + A)) by (apply Rinv_0_lt_compat; lra).
  assert (PQ : 0 < A * (p * (1 - p)) * (1 + A)).
  { repeat apply Rmult_lt_0_compat; lra. }
  assert (W1 : w < p + A / 2).
  { apply lt_of_sq; [lra|]. rewrite E.
    assert (0 < p * p * (1 + A)).
    { apply Rmult_lt_0_compat; [apply Rmult_lt_0_compat|]; lra. }
    nra. }
  assert (W2 : A / 2 - p * A < w).
  { apply lt_of_sq; [exact Hw|]. rewrite E. nra. }
  assert (W3 : p * A - A / 2 < w).
  { apply lt_of_sq; [exact Hw|]. rewrite E. nra. }
  assert (W4 : w < 1 - p + A / 2).
  { apply lt_of_sq; [lra|]. rewrite E.
    assert (0 < (1 - p) * (1 - p) * (1 + A)).
    { apply Rmult_lt_0_compat; [apply Rmult_lt_0_compat|]; lra. }
    nra. }
  assert (Q : forall y, (y / (1 + A)) * (1 + A) = y) by (intro; field; lra).
  repeat split.
  - unfold Rdiv. apply Rmult_lt_0_compat; lra.
  - apply Rmult_lt_reg_r with (1 + A); [lra|]. rewrite Q. nra.
  - apply Rmult_lt_reg_r with (1 + A); [lra|]. rewrite Q. nra.
  - apply Rmult_lt_reg_r with (1 + A); [lra|]. rewrite Q. nra.
Qed.

(** X25.  The Wilson score interval of [ciProportion] for counts strictly
    between the extremes, 1 <= x <= n - 1, and a confidence of at least
    60: both bounds are finite, the interval lies strictly inside (0, 1)
    and strictly contains the observed proportion. *)
Theorem wilson_interval (x n conf : R) :
  1 <= x -> x <= n - 1 -> 60 <= conf -> conf < 100 ->
  let v := CiProportion.compute (Fin x) (Fin n) (Fin conf) in
  exists l u : R,
    CiProportion.wilsonLow v = Fin l /\ CiProportion.wilsonHigh v = Fin u
    /\ 0 < l /\ l < x / n /\ x / n < u /\ u < 1.
Proof.
  intros H0 H1 C0 C1 v.
  assert (Hn : 0 < n) by lra.
  destruct (@ciProportion_wilson_fin x n conf ltac:(lra) Hn ltac:(lra))
    as (EL & EU). cbv zeta in EL, EU.
  eexists _, _. split; [exact EL|]. split; [exact EU|].
  pose proof (@zcrit_ge_083 conf ltac:(lra)) as Hz.
  set (z := zcrit conf) in *. set (p := x / n) in *.
  destruct (@prop_unit x n ltac:(lra) Hn) as [PU Q]. fold p in PU, Q.
  assert (In : 0 < / n) by (apply Rinv_0_lt_compat; exact Hn).
  assert (PS : 0 < p < 1).
  { unfold p, Rdiv. split; [apply Rmult_lt_0_compat; lra|].
    apply Rmult_lt_reg_r with n; [exact Hn|].
    rewrite Rmult_assoc, Rinv_l by lra. lra. }
  assert (A0 : 0 < z * z / n).
  { unfold Rdiv. apply Rmult_lt_0_compat; [nra|exact In]. }
  assert (Z4 : 0 <= z * z / (4 * n * n)).
  { unfold Rdiv. apply Rmult_le_pos; [apply Rle_0_sqr|].
    left. apply Rinv_0_lt_compat. nra. }
  set (e := p * (1 - p) / n + z * z / (4 * n * n)) in *.
  assert (E0 : 0 <= e) by (unfold e; lra).
  assert (W0 : 0 <= z * sqrt e) by (apply Rmult_le_pos; [lra|apply sqrt_pos]).
  assert (WW : z * sqrt e * (z * sqrt e)
               = z * z / n * (p * (1 - p)) + z * z / n * (z * z / n) / 4).
  { replace (z * sqrt e * (z * sqrt e)) with (z * z * (sqrt e * sqrt e))
      by ring.
    rewrite sqrt_sqrt by exact E0. unfold e. field. lra. }
  replace (z * z / (2 * n)) with (z * z / n / 2) by (field; lra).
  destruct (@wilson_real_bounds p (z * z / n) (z * sqrt e) PS A0 W0 WW)
    as (B1 & B2 & B3 & B4).
  repeat split; assumption.
Qed.

Lemma wilson_interval_witness :
  1 <= 5 /\ 5 <= 100 - 1 /\ 60 <= 95 /\ 95 < 100 /\
  let v := CiProportion.compute (Fin 5) (Fin 100) (Fin 95) in
  exists l u : R,
    CiProportion.wilsonLow v = Fin l /\ CiProportion.wilsonHigh v = Fin u
    /\ 0 < l /\ l < 5 / 100 /\ 5 / 100 < u /\ u < 1.
Proof.
  repeat (split; [lra|]).
  apply (@wilson_interval 5 100 95); lra.
Defined.

(** ** The chi-square test on a 2x2 table *)

Lemma chi_square_result (a b c d : R) (yates : bool) :
  a + b <> 0 -> c + d <> 0 -> a + c <> 0 -> b + d <> 0 ->
  ChiSquare.compute (Fin a) (Fin b) (Fin c) (Fin d) yates
  = Some (ChiSquare.mkResult (Fin (chi2_real a b c d yates))
            (Fin (chisq_pvalue_tot (chi2_real a b c d yates) 1))).
Proof.
  intros H1 H2 H3 H4. unfold ChiSquare.compute. cbv zeta. js_arith.
  rewrite !neq_fin_false by assumption. cbn [orb].
  assert (D : (a + b) * (c + d) * (a + c) * (b + d) <> 0).
  { repeat apply Rmult_integral_contrapositive_currified; assumption. }
  assert (E : forall x : num, x = Fin (chi2_real a b c d yates) ->
            Some (ChiSquare.mkResult x (Utils.getChiSqPValue x (Fin 1)))
            = Some (ChiSquare.mkResult (Fin (chi2_real a b c d yates))
                      (Fin (chisq_pvalue_tot (chi2_real a b c d yates) 1)))).
  { intros x ->. rewrite getChiSqPValue_tot by lra. reflexivity. }
  apply E. unfold chi2_real. cbv zeta. destruct yates.
  - rewrite ndiv_fin by lra. js_arith. rewrite max_fin, pow_fin_2. js_arith.
    rewrite ndiv_fin by exact D. reflexivity.
  - rewrite pow_fin_2. js_arith. rewrite ndiv_fin by exact D. reflexivity.
Qed.

Lemma chi_square_zero_margin (a b c d : R) (yates : bool) :
  a + b = 0 \/ c + d = 0 \/ a + c = 0 \/ b + d = 0 ->
  ChiSquare.compute (Fin a) (Fin b) (Fin c) (Fin d) yates = None.
Proof.
  intro H. unfold ChiSquare.compute. cbv zeta. js_arith.
  destruct H as [H|[H|[H|H]]]; rewrite (neq_fin_true H);
    rewrite ?orb_true_r; reflexivity.
Qed.

Lemma phi_square_le_1 (a b c d : R) :
  0 <= a -> 0 <= b -> 0 <= c -> 0 <= d ->
  (a * d - b * c) * (a * d - b * c)
  <= (a + b) * (c + d) * (a + c) * (b + d).
Proof.
  intros Ha Hb Hc Hd.
  replace ((a + b) * (c + d) * (a + c) * (b + d))
    with ((a * d - b * c) * (a * d - b * c)
          + (4 * (a * b) * (c * d)
             + (a * d + b * c) * (a * b + c * d)
             + (a * c + b * d) * (a * d + b * c)
             + (a * c + b * d) * (a * b + c * d))) by ring.
  assert (P : forall x y, 0 <= x -> 0 <= y -> 0 <= x * y)
    by (intros; apply Rmult_le_pos; assumption).
  assert (0 <= 4 * (a * b) * (c * d)) by (repeat apply P; lra).
  assert (0 <= (a * d + b * c) * (a * b + c * d))
    by (apply P; apply Rplus_le_le_0_compat; apply P; assumption).
  assert (0 <= (a * c + b * d) * (a * d + b * c))
    by (apply P; apply Rplus_le_le_0_compat; apply P; assumption).
  assert (0 <= (a * c + b * d) * (a * b + c * d))
    by (apply P; apply Rplus_le_le_0_compat; apply P; assumption).
  lra.
Qed.

Lemma chi2_real_bounds (a b c d : R) :
  0 <= a -> 0 <= b -> 0 <= c -> 0 <= d ->
  0 < a + b -> 0 < c + d -> 0 < a + c -> 0 < b + d ->
  0 <= chi2_real a b c d true
  /\ chi2_real a b c d true <= chi2_real a b c d false
  /\ chi2_real a b c d false <= a + b + c + d.
Proof.
  intros Ha Hb Hc Hd R1 R2 C1 C2.
  pose proof (phi_square_le_1 Ha Hb Hc Hd) as PH.
  unfold chi2_real. cbv zeta.
  set (D := (a + b) * (c + d) * (a + c) * (b + d)) in *.
  assert (DP : 0 < D) by (unfold D; repeat apply Rmult_lt_0_compat; lra).
  assert (ID : 0 < / D) by (apply Rinv_0_lt_compat; exact DP).
  set (n := a + b + c + d). assert (N0 : 0 < n) by (unfold n; lra).
  pose proof (Rabs_pos (a * d - b * c)) as M0.
  assert (MM : Rabs (a * d - b * c) * Rabs (a * d - b * c)
               = (a * d - b * c) * (a * d - b * c)).
  { rewrite <- Rabs_mult. apply Rabs_right. apply Rle_ge. apply Rle_0_sqr. }
  set (m := Rabs (a * d - b * c)) in *.
  assert (K0 : 0 <= Rmax 0 (m - n / 2)) by apply Rmax_l.
  assert (K1 : Rmax 0 (m - n / 2) <= m) by (apply Rmax_lub; lra).
  set (k := Rmax 0 (m - n / 2)) in *.
  assert (KK : k * k <= m * m) by nra.
  assert (KP : 0 <= k * k) by nra.
  split; [|split].
  - unfold Rdiv. apply Rmult_le_pos; [|lra]. apply Rmult_le_pos; lra.
  - unfold Rdiv. apply Rmult_le_compat_r; [lra|].
    apply Rmult_le_compat_l; lra.
  - apply Rmult_le_reg_r with D; [exact DP|].
    unfold Rdiv. rewrite Rmult_assoc, Rinv_l by lra.
    rewrite Rmult_1_r. apply Rmult_le_compat_l; lra.
Qed.

(** X26.  The chi-square calculator on non-negative counts.  If a row or
    a column total is zero it returns no result.  Otherwise the statistic
    is finite with 0 <= chi2 <= n, Yates' correction never increases it,
    the p-value lies in [0, 1], and the corrected p-value is never below
    the uncorrected one. *)
Theorem chiSquare_test_result (a b c d : R) :
  0 <= a -> 0 <= b -> 0 <= c -> 0 <= d ->
  (a + b = 0 \/ c + d = 0 \/ a + c = 0 \/ b + d = 0 ->
   forall yates,
     ChiSquare.compute (Fin a) (Fin b) (Fin c) (Fin d) yates = None)
  /\ (0 < a + b -> 0 < c + d -> 0 < a + c -> 0 < b + d ->
      exists x p xy py : R,
        ChiSquare.compute (Fin a) (Fin b) (Fin c) (Fin d) false
        = Some (ChiSquare.mkResult (Fin x) (Fin p))
        /\ ChiSquare.compute (Fin a) (Fin b) (Fin c) (Fin d) true
           = Some (ChiSquare.mkResult (Fin xy) (Fin py))
        /\ 0 <= xy /\ xy <= x /\ x <= a + b + c + d
        /\ 0 <= p /\ p <= py /\ py <= 1).
Proof.
  intros Ha Hb Hc Hd. split.
  - intros Z yates. apply chi_square_zero_margin. exact Z.
  - intros R1 R2 C1 C2. eexists _, _, _, _.
    split; [apply chi_square_result; lra|].
    split; [apply chi_square_result; lra|].
    destruct (chi2_real_bounds Ha Hb Hc Hd R1 R2 C1 C2) as (B0 & B1 & B2).
    pose proof (chisq_pvalue_tot_range (chi2_real a b c d false) 1).
    pose proof (chisq_pvalue_tot_range (chi2_real a b c d true) 1).
    pose proof (@chisq_pvalue_tot_antitone _ _ 1 ltac:(lra) B1).
    repeat split; lra.
Qed.

Lemma chiSquare_test_result_witness :
  0 <= 10 /\ 0 <= 20 /\ 0 <= 30 /\ 0 <= 40 /\
  (10 + 20 = 0 \/ 30 + 40 = 0 \/ 10 + 30 = 0 \/ 20 + 40 = 0 ->
   forall yates,
     ChiSquare.compute (Fin 10) (Fin 20) (Fin 30) (Fin 40) yates = None)
  /\ (0 < 10 + 20 -> 0 < 30 + 40 -> 0 < 10 + 30 -> 0 < 20 + 40 ->
      exists x p xy py : R,
        ChiSquare.compute (Fin 10) (Fin 20) (Fin 30) (Fin 40) false
        = Some (ChiSquare.mkResult (Fin x) (Fin p))
        /\ ChiSquare.compute (Fin 10) (Fin 20) (Fin 30) (Fin 40) true
           = Some (ChiSquare.mkResult (Fin xy) (Fin py))
        /\ 0 <= xy /\ xy <= x /\ x <= 10 + 20 + 30 + 40
        /\ 0 <= p /\ p <= py /\ py <= 1).
Proof.
  repeat (split; [lra|]).
  apply (@chiSquare_test_result 10 20 30 40); lra.
Defined.

(** ** Confidence interval for a variance *)

Lemma ciVariance_fin (sd n conf : R) :
  1 <= n - 1 -> 0 < conf < 100 ->
  let a := 1 - conf / 100 in
  let df := n - 1 in
  0 < chisq_crit (1 - a / 2) df -> 0 < chisq_crit (a / 2) df ->
  let v := CiVariance.compute (Fin sd) (Fin n) (Fin conf) in
  CiVariance.s2 v = Fin (sd * sd)
  /\ CiVariance.varLower v
     = Fin (df * (sd * sd) / chisq_crit (a / 2) df)
  /\ CiVariance.varUpper v
     = Fin (df * (sd * sd) / chisq_crit (1 - a / 2) df).
Proof.
  intros Hn Hc a df PL PU v. unfold v, CiVariance.compute. cbv zeta.
  cbn [CiVariance.s2 CiVariance.varLower CiVariance.varUpper]. js_arith.
  rewrite !ndiv_fin by lra. js_arith. rewrite !ndiv_fin by lra. js_arith.
  subst a df. rewrite !getChiSqCritical_fin by lra.
  rewrite !ndiv_fin by lra. repeat split; reflexivity.
Qed.

Lemma quot_cancel (df x c : R) : 0 < df -> 0 < c ->
  df * x / (df * c) = x / c.
Proof. intros. field. lra. Qed.

Lemma quot_lt_self (x c : R) : 0 < x -> 1 < c -> x / c < x.
Proof.
  intros Hx Hc. apply Rmult_lt_reg_r with c; [lra|].
  unfold Rdiv. rewrite Rmult_assoc, Rinv_l by lra. nra.
Qed.

Lemma quot_gt_self (x c : R) : 0 < x -> 0 < c < 1 -> x < x / c.
Proof.
  intros Hx Hc. apply Rmult_lt_reg_r with c; [lra|].
  unfold Rdiv. rewrite Rmult_assoc, Rinv_l by lra. nra.
Qed.

Lemma quot_antitone (x c1 c2 : R) : 0 < x -> 0 < c1 < c2 -> x / c2 < x / c1.
Proof.
  intros Hx [H1 H2]. unfold Rdiv. apply Rmult_lt_compat_l; [exact Hx|].
  apply Rinv_lt_contravar; [apply Rmult_lt_0_compat; lra|exact H2].
Qed.

(** X27.  The variance interval of [ciVariance] at 95% confidence, for a
    positive sample SD and n >= 2: all bounds are finite and
    0 < lower < s^2, lower < upper.  The upper bound is above the sample
    variance only up to n = 228; from n = 229 on it is strictly below it,
    so the reported interval does not contain the estimate.  (The lower
    chi-square quantile is taken from [getChiSqCritical] at 1 - alpha/2,
    which approximates it with a positive Normal quantile.) *)
Theorem ciVariance_interval_95 (sd n : R) :
  0 < sd -> 2 <= n ->
  let v := CiVariance.compute (Fin sd) (Fin n) (Fin 95) in
  exists s2 lo up : R,
    CiVariance.s2 v = Fin s2 /\ CiVariance.varLower v = Fin lo
    /\ CiVariance.varUpper v = Fin up
    /\ 0 < lo /\ lo < s2 /\ lo < up
    /\ (n <= 228 -> s2 < up)
    /\ (229 <= n -> up < s2).
Proof.
  intros Hsd Hn v.
  assert (Hdf : 1 <= n - 1) by lra.
  pose proof (chisq_scale_bounds Hdf) as [S0 S1].
  assert (P : 0 <= 2 / (9 * (n - 1))).
  { apply Rmult_le_pos; [lra|]. left. apply Rinv_0_lt_compat. lra. }
  pose proof (sqrt_sq_eq P) as SQ.
  pose proof zcrit_2_5_bounds as [L0 L1].
  pose proof zcrit_97_5_bounds as [U0 U1].
  assert (EL : chisq_crit (1 - (1 - 95 / 100) / 2) (n - 1)
               = (n - 1) * (let i := chisq_inner (zcrit 2.5) (n - 1) in
                            i * i * i)).
  { unfold chisq_crit. cbv zeta.
    replace ((1 - (1 - (1 - 95 / 100) / 2)) * 100) with 2.5 by lra.
    reflexivity. }
  assert (EU : chisq_crit ((1 - 95 / 100) / 2) (n - 1)
               = (n - 1) * (let i := chisq_inner (zcrit 97.5) (n - 1) in
                            i * i * i)).
  { unfold chisq_crit. cbv zeta.
    replace ((1 - (1 - 95 / 100) / 2) * 100) with 97.5 by lra.
    reflexivity. }
  cbv zeta in EL, EU. unfold chisq_inner in EL, EU.
  set (s := sqrt (2 / (9 * (n - 1)))) in *.
  rewrite <- SQ in EL, EU.
  set (zl := zcrit 2.5) in *. set (zu := zcrit 97.5) in *.
  set (il := 1 - s * s + zl * s) in *.
  set (iu := 1 - s * s + zu * s) in *.
  assert (IL0 : 0 < il) by (unfold il; nra).
  assert (ILU : il < iu) by (unfold il, iu; nra).
  assert (IU1 : 1 < iu) by (unfold iu; nra).
  pose proof (cube_lt ILU) as CLU.
  pose proof (@cube_lt 0 il IL0) as CL0.
  pose proof (@cube_lt 1 iu IU1) as CU1.
  assert (PL : 0 < chisq_crit (1 - (1 - 95 / 100) / 2) (n - 1)).
  { rewrite EL. apply Rmult_lt_0_compat; lra. }
  assert (PU : 0 < chisq_crit ((1 - 95 / 100) / 2) (n - 1)).
  { rewrite EU. apply Rmult_lt_0_compat; lra. }
  destruct (@ciVariance_fin sd n 95 Hdf ltac:(lra) PL PU)
    as (E2 & ELo & EUp).
  eexists _, _, _. split; [exact E2|]. split; [exact ELo|].
  split; [exact EUp|].
  rewrite EL, EU.
  rewrite !quot_cancel by lra.
  assert (X : 0 < sd * sd) by (apply Rmult_lt_0_compat; lra).
  split; [apply Rdiv_lt_0_compat; lra|].
  split; [apply quot_lt_self; lra|].
  split; [apply quot_antitone; lra|].
  assert (SS : s * s * (9 * (n - 1)) = 2).
  { rewrite SQ. field. lra. }
  split.
  - intro Hs. apply quot_gt_self; [exact X|]. split; [lra|].
    assert (zl < s).
    { apply lt_of_sq; [lra|].
      assert (zl * zl <= 0.031252 * 0.031252) by nra.
      assert (0.00097895 <= s * s); [|lra].
      assert (9 * (n - 1) <= 2043) by lra. nra. }
    assert (il < 1) by (unfold il; nra).
    pose proof (@cube_lt il 1 H0). lra.
  - intro Hb. apply quot_lt_self; [exact X|].
    assert (s < zl).
    { apply lt_of_sq; [lra|].
      assert (0.03125 * 0.03125 <= zl * zl) by nra.
      assert (s * s <= 0.00097466); [|lra].
      assert (2052 <= 9 * (n - 1)) by lra. nra. }
    assert (1 < il) by (unfold il; nra).
    pose proof (@cube_lt 1 il H0). lra.
Qed.

Lemma ciVariance_interval_95_witness :
  0 < 15 /\ 2 <= 300 /\
  let v := CiVariance.compute (Fin 15) (Fin 300) (Fin 95) in
  exists s2 lo up : R,
    CiVariance.s2 v = Fin s2 /\ CiVariance.varLower v = Fin lo
    /\ CiVariance.varUpper v = Fin up
    /\ 0 < lo /\ lo < s2 /\ lo < up
    /\ (300 <= 228 -> s2 < up)
    /\ (229 <= 300 -> up < s2).
Proof.
  repeat (split; [lra|]).
  apply (@ciVariance_interval_95 15 300); lra.
Defined.

(** ** Mirror symmetry of the t p-values *)

(** X28.  For t <> 0 and every integer df >= 1, [getTPValue] at -t returns
    the same two-sided p-value as at t, with the lower and the upper tail
    exchanged. *)
Theorem getTPValue_mirror (t : R) (df : Z) :
  t <> 0 -> (1 <= df)%Z ->
  exists ts lo up : R,
    Utils.getTPValue (Fin t) (Fin (IZR df))
    = Some (Utils.mkTPValue (Fin ts) (Fin lo) (Fin up))
    /\ Utils.getTPValue (Fin (- t)) (Fin (IZR df))
       = Some (Utils.mkTPValue (Fin ts) (Fin up) (Fin lo)).
Proof.
  intros Ht Hdf. unfold Utils.getTPValue. cbv zeta. unfold ngt.
  rewrite !abs_fin, Rabs_Ropp.
  destruct (Z_lt_le_dec 100 df) as [Hbig|Hsmall].
  - rewrite !(@nlt_fin_true 100 (IZR df)) by (apply IZR_lt; exact Hbig).
    rewrite getNormalCDF_fin. js_arith.
    set (pZ := normal_cdf (Rabs t)).
    destruct (Rlt_dec t 0) as [N|N].
    + rewrite (@nlt_fin_true t 0) by exact N.
      rewrite (@nlt_fin_false (- t) 0) by lra. js_arith.
      exists (2 * (1 - pZ)), pZ, (1 - pZ).
      split; [reflexivity|].
      replace (1 - (1 - pZ)) with pZ by lra. reflexivity.
    + rewrite (@nlt_fin_false t 0) by lra.
      rewrite (@nlt_fin_true (- t) 0) by lra. js_arith.
      exists (2 * (1 - pZ)), (1 - pZ), (1 - (1 - pZ)).
      split; [reflexivity|].
      replace (1 - (1 - pZ)) with pZ by lra. reflexivity.
  - assert (D1 : 1 <= IZR df) by (apply IZR_le; exact Hdf).
    rewrite !(@nlt_fin_false 100 (IZR df)) by (apply IZR_le; exact Hsmall).
    rewrite sqrt_fin by lra.
    assert (SD : 0 < sqrt (IZR df)) by (apply sqrt_lt_R0; lra).
    rewrite ndiv_fin by lra. cbn [Math_atan].
    assert (U : 0 <= Rabs t / sqrt (IZR df)).
    { apply Rmult_le_pos; [apply Rabs_pos|].
      left. apply Rinv_0_lt_compat. exact SD. }
    pose proof (atan_nonneg U) as HT.
    destruct (@tp_two_sided_fin (atan (Rabs t / sqrt (IZR df))) df HT
                (conj Hdf Hsmall)) as (p & Hp & [P0 P1] & _).
    rewrite Hp. rewrite min_fin, max_fin.
    rewrite Rmin_right by exact P1. rewrite Rmax_right by exact P0.
    rewrite ndiv_fin by lra. js_arith.
    destruct (Rlt_dec t 0) as [N|N].
    + rewrite (@nlt_fin_true t 0) by exact N.
      rewrite (@nlt_fin_false 0 t) by lra.
      rewrite (@nlt_fin_false (- t) 0) by lra.
      rewrite (@nlt_fin_true 0 (- t)) by lra.
      exists p, (1 - p / 2), (p / 2). split; reflexivity.
    + rewrite (@nlt_fin_false t 0) by lra.
      rewrite (@nlt_fin_true 0 t) by lra.
      rewrite (@nlt_fin_true (- t) 0) by lra.
      rewrite (@nlt_fin_false 0 (- t)) by lra.
      exists p, (p / 2), (1 - p / 2). split; reflexivity.
Qed.

Lemma getTPValue_mirror_witness :
  2 <> 0 /\ (1 <= 7)%Z /\
  exists ts lo up : R,
    Utils.getTPValue (Fin 2) (Fin (IZR 7))
    = Some (Utils.mkTPValue (Fin ts) (Fin lo) (Fin up))
    /\ Utils.getTPValue (Fin (- 2)) (Fin (IZR 7))
       = Some (Utils.mkTPValue (Fin ts) (Fin up) (Fin lo)).
Proof.
  split; [lra|]. split; [lia|].
  apply (@getTPValue_mirror 2 7); [lra|lia].
Defined.

(** ** Wilson interval with continuity correction at x = 0 *)

Lemma zcrit_ge_196 (conf : R) : 95 <= conf < 100 -> 1.96 <= zcrit conf.
Proof.
  intros [H0 H1]. pose proof zcrit_95_bounds as [L _].
  destruct (Req_dec_T conf 95) as [E|N]; [subst conf; lra|].
  pose proof (@zcrit_increasing 95 conf ltac:(lra) H1). lra.
Qed.

Lemma zcrit_le_1282 (conf : R) : 60 <= conf <= 80 -> zcrit conf <= 1.282.
Proof.
  intros [H0 H1]. pose proof zcrit_80_bounds as [_ U].
  destruct (Req_dec_T conf 80) as [E|N]; [subst conf; lra|].
  pose proof (@zcrit_increasing conf 80 ltac:(lra) ltac:(lra)). lra.
Qed.

Lemma sqrt_neg_nan (a : R) : a < 0 -> Math_sqrt (Fin a) = NaN.
Proof.
  intro H. unfold Math_sqrt. destruct (Rle_dec 0 a); [lra|reflexivity].
Qed.

Lemma wilsonCC_low_at_zero (n conf : R) :
  0 < n -> -100 <= conf < 100 ->
  let z := zcrit conf in
  CiProportion.wilsonCCLow
    (CiProportion.compute (Fin 0) (Fin n) (Fin conf))
  = ndiv (nsub (Fin (z * z - 1))
            (nmul (Fin z) (Math_sqrt (Fin (z * z - (2 + 1 / n))))))
      (Fin (2 * (n + z * z))).
Proof.
  intros Hn Hc z. unfold CiProportion.compute. cbv zeta.
  cbn [CiProportion.wilsonCCLow].
  rewrite getZCritical_fin by exact Hc. fold z.
  rewrite !(@ndiv_fin 0 n) by lra. rewrite !(@ndiv_fin 1 n) by lra.
  js_arith.
  replace (2 * n * (0 / n) + z * z - 1) with (z * z - 1)
    by (unfold Rdiv; ring).
  replace (z * z - (2 + 1 / n) + 4 * (0 / n) * (n * (1 - 0 / n) + 1))
    with (z * z - (2 + 1 / n)) by (unfold Rdiv; ring).
  reflexivity.
Qed.

(** X29.  The continuity-corrected Wilson bound of [ciProportion] with no
    successes (x = 0, so the observed proportion is 0) and n >= 1: at a
    confidence of 95 or more the lower bound is a positive number, so the
    interval does not contain the observed proportion; at a confidence
    between 60 and 80 the square root is taken of a negative number and
    the lower bound is NaN. *)
Theorem wilsonCC_zero_successes (n conf : R) :
  1 <= n ->
  let v := CiProportion.compute (Fin 0) (Fin n) (Fin conf) in
  CiProportion.p v = Fin 0
  /\ (95 <= conf < 100 ->
      exists l : R, CiProportion.wilsonCCLow v = Fin l /\ 0 < l)
  /\ (60 <= conf <= 80 -> CiProportion.wilsonCCLow v = NaN).
Proof.
  intros Hn v. unfold v.
  assert (In : 0 < 1 / n <= 1).
  { split; [apply Rdiv_lt_0_compat; lra|].
    unfold Rdiv. rewrite Rmult_1_l, <- Rinv_1.
    apply Rinv_le_contravar; lra. }
  split; [|split].
  - unfold CiProportion.compute. cbv zeta. cbn [CiProportion.p].
    rewrite ndiv_fin by lra. f_equal. unfold Rdiv. ring.
  - intro Hc. rewrite wilsonCC_low_at_zero by lra. cbv zeta.
    pose proof (zcrit_ge_196 Hc) as Hz. set (z := zcrit conf) in *.
    assert (Z2 : 3.8 <= z * z) by nra.
    rewrite sqrt_fin by lra. js_arith.
    assert (D : 0 < 2 * (n + z * z)) by nra.
    rewrite ndiv_fin by lra. eexists. split; [reflexivity|].
    apply Rdiv_lt_0_compat; [|exact D].
    pose proof (sqrt_pos (z * z - (2 + 1 / n))) as W0.
    pose proof (@sqrt_sq_eq (z * z - (2 + 1 / n)) ltac:(lra)) as WW.
    set (w := sqrt (z * z - (2 + 1 / n))) in *.
    assert (z * w < z * z - 1); [|lra].
    apply lt_of_sq; [lra|].
    replace (z * w * (z * w)) with (z * z * (w * w)) by ring.
    rewrite WW. nra.
  - intro Hc. rewrite wilsonCC_low_at_zero by lra. cbv zeta.
    pose proof (zcrit_le_1282 Hc) as Hz.
    pose proof (@zcrit_ge_083 conf ltac:(lra)) as Hz0.
    set (z := zcrit conf) in *.
    rewrite sqrt_neg_nan by nra. reflexivity.
Qed.

Lemma wilsonCC_zero_successes_witness :
  1 <= 20 /\
  let v := CiProportion.compute (Fin 0) (Fin 20) (Fin 95) in
  CiProportion.p v = Fin 0
  /\ (95 <= 95 < 100 ->
      exists l : R, CiProportion.wilsonCCLow v = Fin l /\ 0 < l)
  /\ (60 <= 95 <= 80 -> CiProportion.wilsonCCLow v = NaN).
Proof.
  split; [lra|]. apply (@wilsonCC_zero_successes 20 95). lra.
Defined.

(** ** Power of a comparison of two means *)

Lemma powerMeans_fin (n1 n2 m1 m2 sd alpha : R) :
  0 < n1 -> 0 < n2 -> 0 < sd -> 0 < alpha <= 2 ->
  let z := zcrit ((1 - alpha) * 100) in
  let lam := Rabs (m1 - m2) / (sd * sqrt (1 / n1 + 1 / n2)) in
  PowerMeans.power
    (PowerMeans.compute (Fin n1) (Fin n2) (Fin m1) (Fin m2) (Fin sd)
       (Fin alpha))
  = Fin (normal_cdf (lam - z) + normal_cdf (- lam - z))
  /\ 0 <= lam.
Proof.
  intros H1 H2 Hs Ha z lam. unfold PowerMeans.compute. cbv zeta.
  cbn [PowerMeans.power]. js_arith.
  rewrite getZCritical_fin by lra. fold z.
  rewrite !ndiv_fin by lra. js_arith.
  assert (P : 0 < 1 / n1 + 1 / n2).
  { assert (0 < 1 / n1) by (apply Rdiv_lt_0_compat; lra).
    assert (0 < 1 / n2) by (apply Rdiv_lt_0_compat; lra). lra. }
  rewrite sqrt_fin by lra. js_arith.
  pose proof (sqrt_lt_R0 _ P) as S.
  assert (SE : 0 < sd * sqrt (1 / n1 + 1 / n2))
    by (apply Rmult_lt_0_compat; assumption).
  rewrite !ndiv_fin by lra. fold lam. js_arith.
  rewrite !getNormalCDF_fin. js_arith. split; [reflexivity|].
  unfold lam, Rdiv. apply Rmult_le_pos; [apply Rabs_pos|].
  left. apply Rinv_0_lt_compat. exact SE.
Qed.

(** X30.  The power reported by [powerMeans] for positive group sizes, a
    positive SD and 0 < alpha <= 0.4 is a finite number in [0, 1], and it
    does not change when the two means are exchanged. *)
Theorem powerMeans_range (n1 n2 m1 m2 sd alpha : R) :
  0 < n1 -> 0 < n2 -> 0 < sd -> 0 < alpha -> alpha <= 0.4 ->
  exists pw : R,
    PowerMeans.power
      (PowerMeans.compute (Fin n1) (Fin n2) (Fin m1) (Fin m2) (Fin sd)
         (Fin alpha)) = Fin pw
    /\ PowerMeans.power
         (PowerMeans.compute (Fin n1) (Fin n2) (Fin m2) (Fin m1) (Fin sd)
            (Fin alpha)) = Fin pw
    /\ 0 <= pw <= 1.
Proof.
  intros H1 H2 Hs Ha0 Ha1.
  destruct (@powerMeans_fin n1 n2 m1 m2 sd alpha H1 H2 Hs ltac:(lra))
    as [E L].
  destruct (@powerMeans_fin n1 n2 m2 m1 sd alpha H1 H2 Hs ltac:(lra))
    as [E' _].
  cbv zeta in E, E', L.
  replace (Rabs (m2 - m1)) with (Rabs (m1 - m2)) in E'
    by (rewrite <- Rabs_Ropp; f_equal; ring).
  eexists. split; [exact E|]. split; [exact E'|].
  pose proof (@zcrit_ge_083 ((1 - alpha) * 100) ltac:(lra)) as Hz.
  set (z := zcrit ((1 - alpha) * 100)) in *.
  set (lam := Rabs (m1 - m2) / (sd * sqrt (1 / n1 + 1 / n2))) in *.
  pose proof (normal_cdf_range (lam - z)) as [A0 _].
  pose proof (normal_cdf_range (- lam - z)) as [B0 _].
  pose proof (@normal_cdf_mono (lam - z) (lam + z) ltac:(lra)) as M.
  pose proof (@normal_cdf_opp (lam + z) ltac:(lra)) as O.
  replace (- (lam + z)) with (- lam - z) in O by ring.
  lra.
Qed.

Lemma powerMeans_range_witness :
  0 < 50 /\ 0 < 50 /\ 0 < 20 /\ 0 < 0.05 /\ 0.05 <= 0.4 /\
  exists pw : R,
    PowerMeans.power
      (PowerMeans.compute (Fin 50) (Fin 50) (Fin 100) (Fin 110) (Fin 20)
         (Fin 0.05)) = Fin pw
    /\ PowerMeans.power
         (PowerMeans.compute (Fin 50) (Fin 50) (Fin 110) (Fin 100) (Fin 20)
            (Fin 0.05)) = Fin pw
    /\ 0 <= pw <= 1.
Proof.
  repeat (split; [lra|]).
  apply (@powerMeans_range 50 50 100 110 20 0.05); lra.
Defined.
